(** * react-sse: the event store, the connection manager and the hooks'
    selectors of [src/lib/react_sse.ts], embedded in Rocq.

    Conventions of the embedding.
    - A JavaScript [number] that the code uses as a count or as a
      millisecond timestamp is a [Z]; [NaN], infinities and fractions are
      not represented.
    - [Record<string, SSEConnectionState>] is a plain object: its own
      properties are a [gmap string _], and reading a key that is not
      an own property falls through to [Object.prototype].
    - An array is a [list], oldest element first.
    - A callback is known by an identity ([Listener]) and calling it is
      recorded in a trace, so that "how often was it called" is a
      statement about a list. *)

From Stdlib Require Import ZArith Ascii String.
From stdpp Require Import base option list gmap strings.

Local Open Scope string_scope.
Local Open Scope list_scope.
Local Open Scope Z_scope.

(** ** Types (react_sse.ts, lines 45-88) *)

Inductive SSEConnectionStatus : Set :=
  | idle | connecting | open | closed | error.

(** The value that the best-effort [JSON.parse] leaves in
    [SSEMessage.data], kept as its canonical JSON text. *)
Definition Json : Set := string.

Record SSEMessage : Set := {
  connectionId : string;
  type : string;
  (** [ev.data]: a string on a [MessageEvent], [undefined] on any other
      event a listener is handed *)
  dataStr : option string;
  data : option Json;
  lastEventId : option string;
  timestamp : Z;
  uid : option string
}.

Module SSEConnectionState.
Record t : Set := {
  id : string;
  url : string;
  status : SSEConnectionStatus;
  lastEvent : option SSEMessage;
  error : option string
}.
End SSEConnectionState.

Module ConnectionConfig.
(** [tokenLoader] is a host function; its outcome enters the model as
    the argument of the continuation that runs once it settles. *)
Record t : Set := {
  id : string;
  url : string;
  tokenQueryParam : option string;
  connectOnMount : option bool;
  eventTypes : option (list string)
}.
End ConnectionConfig.

(** What the connections object holds under a key: a state as the
    interface describes it, or the object that [pushEvent] builds when
    it spreads something that is not a state, which has [lastEvent] and
    [status: "open"] and neither [id] nor [url]. *)
Inductive Stored : Set :=
  | Typed (c : SSEConnectionState.t)
  | Headless (lastEvent : SSEMessage).

(** What reading a key of the connections object gives when it is not
    [undefined]: an own property, or a member inherited from
    [Object.prototype] (a built-in function, or for [__proto__] the
    prototype itself). *)
Inductive Property : Set :=
  | Own (v : Stored)
  | Inherited (name : string).

(** The property names of [Object.prototype] (ECMAScript with Annex B). *)
Definition Object_prototype : list string :=
  ["constructor"; "__defineGetter__"; "__defineSetter__"; "hasOwnProperty";
   "__lookupGetter__"; "__lookupSetter__"; "isPrototypeOf";
   "propertyIsEnumerable"; "toString"; "valueOf"; "__proto__";
   "toLocaleString"].

(** [obj[key]] for a plain object with the own properties [own]. *)
Definition property_get (own : gmap string Stored) (key : string) : option Property :=
  match own !! key with
  | Some v => Some (Own v)
  | None => if bool_decide (key ∈ Object_prototype) then Some (Inherited key)
            else None
  end.

Record InternalState : Set := {
  connections : gmap string Stored;
  events : list SSEMessage
}.

(** A subscriber, known by its identity. *)
Definition Listener : Set := nat.

(** ** JavaScript array helpers *)

(** [arr.splice(0, deleteCount)]: the start index is 0 and the count is
    clamped to [0, arr.length]; the elements from the clamped count on
    remain. *)
Definition splice0 {A : Type} (deleteCount : Z) (arr : list A) : list A :=
  let actualDeleteCount := Z.min (Z.max deleteCount 0) (Z.of_nat (length arr)) in
  drop (Z.to_nat actualDeleteCount) arr.

(** ** class Store (react_sse.ts, lines 92-132) *)

Record Store : Set := {
  maxEvents : Z;
  state : InternalState;
  listeners : list Listener
}.

Definition new_Store (maxEvents : Z) : Store :=
  {| maxEvents := maxEvents;
     state := {| connections := ∅; events := [] |};
     listeners := [] |}.

Definition getState (s : Store) : InternalState := state s.

(** [Set.prototype.add] and [delete] on the insertion-ordered listener set. *)
Definition subscribe (l : Listener) (s : Store) : Store :=
  {| maxEvents := maxEvents s;
     state := state s;
     listeners := if decide (l ∈ listeners s) then listeners s
                  else listeners s ++ [l] |}.

Definition unsubscribe (l : Listener) (s : Store) : Store :=
  {| maxEvents := maxEvents s;
     state := state s;
     listeners := filter (λ l', l' ≠ l) (listeners s) |}.

(** [notify]: every registered listener is called, in insertion order.
    The result is the list of calls made. *)
Definition notify (s : Store) : list Listener := listeners s.

Definition with_state (st : InternalState) (s : Store) : Store :=
  {| maxEvents := maxEvents s; state := st; listeners := listeners s |}.

(** Every mutator returns the new store and the listener calls it made. *)
Definition setConnection (connect : SSEConnectionState.t) (s : Store)
  : Store * list Listener :=
  let s' := with_state
    {| connections := <[SSEConnectionState.id connect := Typed connect]>
                        (connections (state s));
       events := events (state s) |} s in
  (s', notify s').

Definition removeConnection (id : string) (s : Store) : Store * list Listener :=
  let s' := with_state
    {| connections := delete id (connections (state s));
       events := events (state s) |} s in
  (s', notify s').

(** The entry spread into the upsert when the id has none yet. *)
Definition minimal_entry (id : string) : SSEConnectionState.t :=
  {| SSEConnectionState.id := id;
     SSEConnectionState.url := "";
     SSEConnectionState.status := open;
     SSEConnectionState.lastEvent := None;
     SSEConnectionState.error := None |}.

Definition upsert_entry (prev : SSEConnectionState.t) (msg : SSEMessage)
  : SSEConnectionState.t :=
  {| SSEConnectionState.id := SSEConnectionState.id prev;
     SSEConnectionState.url := SSEConnectionState.url prev;
     SSEConnectionState.status := open;
     SSEConnectionState.lastEvent := Some msg;
     SSEConnectionState.error := SSEConnectionState.error prev |}.

(** [{ ...(found || minimal), lastEvent: msg, status: "open" }], where
    [found] is what reading the key gave. Everything found is truthy. A
    state is spread with its fields; the spread of an object without
    [id] and [url] has none either; and the spread of an inherited
    member copies nothing, since built-in functions and
    [Object.prototype] have no enumerable own properties. *)
Definition upserted (found : option Property) (msg : SSEMessage) : Stored :=
  match found with
  | Some (Own (Typed prev)) => Typed (upsert_entry prev msg)
  | Some (Own (Headless _)) => Headless msg
  | Some (Inherited _) => Headless msg
  | None => Typed (upsert_entry (minimal_entry (connectionId msg)) msg)
  end.

Definition pushEvent (msg : SSEMessage) (s : Store) : Store * list Listener :=
  let events0 := events (state s) ++ [msg] in
  let events1 :=
    if Z.of_nat (length events0) >? maxEvents s
    then splice0 (Z.of_nat (length events0) - maxEvents s) events0
    else events0 in
  let found := property_get (connections (state s)) (connectionId msg) in
  let s' := with_state
    {| events := events1;
       connections := <[connectionId msg := upserted found msg]>
                        (connections (state s)) |} s in
  (s', notify s').

(** A sequence of calls made on the store. *)
Inductive StoreCall : Set :=
  | CallSetConnection (connect : SSEConnectionState.t)
  | CallRemoveConnection (id : string)
  | CallPushEvent (msg : SSEMessage)
  | CallSubscribe (l : Listener)
  | CallUnsubscribe (l : Listener).

Definition call (c : StoreCall) (s : Store) : Store :=
  match c with
  | CallSetConnection connect => (setConnection connect s).1
  | CallRemoveConnection id => (removeConnection id s).1
  | CallPushEvent msg => (pushEvent msg s).1
  | CallSubscribe l => subscribe l s
  | CallUnsubscribe l => unsubscribe l s
  end.

Definition calls (cs : list StoreCall) (s : Store) : Store :=
  foldl (λ s c, call c s) s cs.

(** The events appended by a sequence of calls, in call order. *)
Definition appended (cs : list StoreCall) : list SSEMessage :=
  omap (λ c, match c with CallPushEvent msg => Some msg | _ => None end) cs.

(** ** Per-tab identifier (react_sse.ts, lines 3-43) *)

Definition UID_STORAGE_KEY : string := "@react-sse:uid".

(** [window.sessionStorage] when it can be reached. *)
Record Storage : Set := {
  items : gmap string string;
  (** [setItem] throws (quota exhausted, storage disabled for writing) *)
  setItem_throws : bool
}.

Record Window : Set := {
  (** [None]: touching [window.sessionStorage] throws *)
  sessionStorage : option Storage;
  (** [typeof window.EventSource !== "undefined"] *)
  hasEventSource : bool;
  (** [window.location.origin] *)
  origin : string
}.

(** The part of the JavaScript realm the library reads and writes:
    the global [window] ([None] on a server), the module variable
    [cachedUid], and the source of fresh identifiers behind
    [generateUid] ([crypto.randomUUID] or the time-and-random fallback),
    given as the sequence of values it will produce. *)
Record Realm : Type := {
  window : option Window;
  cachedUid : option string;
  entropy : nat → string;
  drawn : nat
}.

Definition generateUid (r : Realm) : string * Realm :=
  (entropy r (drawn r),
   {| window := window r; cachedUid := cachedUid r;
      entropy := entropy r; drawn := S (drawn r) |}).

Definition set_cachedUid (u : string) (r : Realm) : Realm :=
  {| window := window r; cachedUid := Some u;
     entropy := entropy r; drawn := drawn r |}.

Definition set_storage (ss : Storage) (w : Window) (r : Realm) : Realm :=
  {| window := Some {| sessionStorage := Some ss;
                       hasEventSource := hasEventSource w;
                       origin := origin w |};
     cachedUid := cachedUid r; entropy := entropy r; drawn := drawn r |}.

(** JavaScript truthiness of a [string | undefined | null]. *)
Definition truthy (s : option string) : bool :=
  match s with
  | None => false
  | Some v => negb (bool_decide (v = ""))
  end.

(** The [catch] block of [getClientUid]. *)
Definition getClientUid_catch (r : Realm) : string * Realm :=
  let '(u, r1) := generateUid r in (u, set_cachedUid u r1).

Definition getClientUid (r : Realm) : string * Realm :=
  if truthy (cachedUid r) then (default "" (cachedUid r), r)
  else match window r with
  | None => ("", r)
  | Some w =>
    match sessionStorage w with
    | None => getClientUid_catch r
    | Some ss =>
      let uid := if truthy (items ss !! UID_STORAGE_KEY)
                 then default "" (items ss !! UID_STORAGE_KEY) else "" in
      if negb (truthy (Some uid)) then
        let '(uid', r1) := generateUid r in
        if setItem_throws ss then getClientUid_catch r1
        else
          let ss' := {| items := <[UID_STORAGE_KEY := uid']> (items ss);
                        setItem_throws := setItem_throws ss |} in
          (uid', set_cachedUid uid' (set_storage ss' w r1))
      else (uid, set_cachedUid uid r)
    end
  end.

(** [uid?: string | null]: [None] stands for both [undefined] and [null]. *)
Definition isClientUid (uid : option string) (r : Realm) : bool * Realm :=
  if negb (truthy uid) then (false, r)
  else let '(own, r') := getClientUid r in
       (bool_decide (default "" uid = own), r').

(** ** The platform's [URL] and [URLSearchParams] (WHATWG URL standard) *)

Record URL : Set := {
  (** scheme, authority and path: everything before the query *)
  location : string;
  (** the list behind [url.searchParams] *)
  searchParams : list (string * string);
  (** the fragment with its leading '#', or empty *)
  hash : string
}.

(** [params.set(name, value)]: when a pair is called [name], the first
    such pair takes the value and the others are removed; otherwise the
    pair is appended. *)
Fixpoint set_first (name value : string) (l : list (string * string))
  : list (string * string) :=
  match l with
  | [] => []
  | (k, v) :: rest =>
    if bool_decide (k = name)
    then (k, value) :: filter (λ p, p.1 ≠ name) rest
    else (k, v) :: set_first name value rest
  end.

Definition URLSearchParams_set (name value : string) (l : list (string * string))
  : list (string * string) :=
  if bool_decide (name ∈ l.*1) then set_first name value l
  else l ++ [(name, value)].

Definition with_searchParams (l : list (string * string)) (u : URL) : URL :=
  {| location := location u; searchParams := l; hash := hash u |}.

(** [parts.join(sep)] *)
Fixpoint join (sep : string) (parts : list string) : string :=
  match parts with
  | [] => ""
  | [p] => p
  | p :: rest => p +:+ sep +:+ join sep rest
  end.

Fixpoint includes (c : ascii) (s : string) : bool :=
  match s with
  | EmptyString => false
  | String a rest => if bool_decide (a = c) then true else includes c rest
  end.

Fixpoint endsWith (c : ascii) (s : string) : bool :=
  match s with
  | EmptyString => false
  | String a EmptyString => bool_decide (a = c)
  | String _ rest => endsWith c rest
  end.

(** [tokenQueryParam || "authToken"] *)
Definition credential_key (tokenQueryParam : string) : string :=
  if truthy (Some tokenQueryParam) then tokenQueryParam else "authToken".

Section Platform.
(** What the library takes from the browser: [new URL(urlStr, base)]
    ([None] when it throws), the serializer of one query component used
    by [url.toString()], and [encodeURIComponent]. *)
Variable URL_new : string → string → option URL.
Variable urlencode : string → string.
Variable encodeURIComponent : string → string.

Definition URL_toString (u : URL) : string :=
  location u
  +:+ (if bool_decide (searchParams u = []) then ""
       else "?" +:+ join "&" (map (λ p, urlencode p.1 +:+ "=" +:+ urlencode p.2)
                                  (searchParams u)))
  +:+ hash u.

(** The [try] block of [buildUrl], once [new URL] has succeeded. *)
Definition buildUrl_params (uid token tokenQueryParam : string) (u : URL) : URL :=
  let u1 := if truthy (Some uid)
            then with_searchParams (URLSearchParams_set "uid" uid (searchParams u)) u
            else u in
  if truthy (Some token)
  then with_searchParams
         (URLSearchParams_set (credential_key tokenQueryParam) token
                              (searchParams u1)) u1
  else u1.

(** The [catch] block of [buildUrl]. *)
Definition buildUrl_fallback (uid token tokenQueryParam urlStr : string) : string :=
  let hasQuery := includes "?"%char urlStr in
  let parts := [] in
  let parts := if truthy (Some uid)
               then parts ++ ["uid=" +:+ encodeURIComponent uid] else parts in
  let parts := if truthy (Some token)
               then parts ++ [encodeURIComponent (credential_key tokenQueryParam)
                              +:+ "=" +:+ encodeURIComponent token]
               else parts in
  if negb hasQuery then urlStr +:+ "?" +:+ join "&" parts
  else
    let sep := if endsWith "?"%char urlStr || endsWith "&"%char urlStr
               then "" else "&" in
    urlStr +:+ sep +:+ join "&" parts.

(** [buildUrl(urlStr, token, tokenQueryParam = "authToken")]; a
    [tokenQueryParam] of [None] is the omitted argument. The origin
    handed to [new URL] is [window.location.origin], or [undefined]
    (here the empty string) without a window. *)
Definition buildUrl (urlStr token : string) (tokenQueryParam : option string)
  (r : Realm) : string * Realm :=
  let tokenQueryParam := default "authToken" tokenQueryParam in
  let '(uid, r') := getClientUid r in
  let base := match window r' with Some w => origin w | None => "" end in
  match URL_new urlStr base with
  | Some u => (URL_toString (buildUrl_params uid token tokenQueryParam u), r')
  | None => (buildUrl_fallback uid token tokenQueryParam urlStr, r')
  end.
End Platform.

(** A small instance of the platform, for evaluating [buildUrl] on
    concrete URLs: it agrees with the browser on absolute URLs with a
    non-empty path and on origin-relative paths, as long as every
    character is unreserved (nothing needs percent-encoding and nothing
    is normalised). *)
Fixpoint break_at (c : ascii) (s : string) : string * option string :=
  match s with
  | EmptyString => ("", None)
  | String a rest =>
    if bool_decide (a = c) then ("", Some rest)
    else let '(before, after) := break_at c rest in (String a before, after)
  end.

Fixpoint split_on (c : ascii) (s : string) : list string :=
  match s with
  | EmptyString => [""]
  | String a rest =>
    if bool_decide (a = c) then "" :: split_on c rest
    else match split_on c rest with
         | [] => [String a ""]
         | p :: ps => String a p :: ps
         end
  end.

Definition parse_query (q : string) : list (string * string) :=
  map (λ part, let '(k, v) := break_at "="%char part in (k, default "" v))
      (filter (λ part, part ≠ "") (split_on "&"%char q)).

Definition plain_URL_new (urlStr base : string) : option URL :=
  let '(beforeHash, fragment) := break_at "#"%char urlStr in
  let '(path, query) := break_at "?"%char beforeHash in
  let absolute := includes ":"%char path in
  if negb absolute && bool_decide (base = "") then None
  else Some {| location := if absolute then path else base +:+ path;
               searchParams := parse_query (default "" query);
               hash := match fragment with
                       | Some f => if bool_decide (f = "") then "" else "#" +:+ f
                       | None => ""
                       end |}.

(** ** class SSEManager (react_sse.ts, lines 134-227) *)

(** A value that was thrown or passed to a rejection, as far as
    [String(e)] tells values apart. *)
Inductive JsValue : Set :=
  | VUndefined
  | VString (s : string)
  | VError (name message : string)
  (** a DOM [Event], with its [message] property when it has one *)
  | VEvent (message : option string).

(** [String(e)]; an [Error] prints as [name: message], or as the one of
    the two that is not empty. *)
Definition String_ (e : JsValue) : string :=
  match e with
  | VUndefined => "undefined"
  | VString s => s
  | VError name message =>
    if bool_decide (message = "") then name
    else if bool_decide (name = "") then message
    else name +:+ ": " +:+ message
  | VEvent _ => "[object Event]"
  end.

(** The three optional host callbacks: which of them were supplied. *)
Record Callbacks : Set := {
  onEvent : bool;
  onOpen : bool;
  onError : bool
}.

(** What the outside sees of a run, in order: a store listener called, a
    host callback called, a token loader started. *)
Inductive Effect : Set :=
  | Notified (l : Listener)
  | HostOnEvent (e : SSEMessage)
  | HostOnOpen (id : string)
  | HostOnError (id : string) (error : JsValue)
  | TokenLoaderCalled (id : string).

(** An [EventSource] the manager constructed. *)
Record EventSource : Set := {
  es_url : string;
  es_closed : bool;
  (** the connection whose listeners are attached to it *)
  es_cfg : ConnectionConfig.t;
  (** the custom event names with a listener attached *)
  es_types : list string
}.

(** The manager with its store, the realm, every [EventSource] ever
    constructed (a handle is an index into [transports]), the async
    bodies of [connect] that wait for their token, and the trace. *)
Record Manager : Type := {
  store : Store;
  callbacks : option Callbacks;
  (** [private sources = new Map<string, EventSource>()] *)
  sources : gmap string nat;
  transports : list EventSource;
  pending : list ConnectionConfig.t;
  realm : Realm;
  trace : list Effect
}.

Definition new_SSEManager (store : Store) (callbacks : option Callbacks)
  (r : Realm) : Manager :=
  {| store := store; callbacks := callbacks; sources := ∅; transports := [];
     pending := []; realm := r; trace := [] |}.

(** Run a store mutator inside the manager, recording the listener calls. *)
Definition on_store (f : Store → Store * list Listener) (m : Manager) : Manager :=
  let '(s', called) := f (store m) in
  {| store := s'; callbacks := callbacks m; sources := sources m;
     transports := transports m; pending := pending m; realm := realm m;
     trace := trace m ++ map Notified called |}.

Definition emit (e : Effect) (m : Manager) : Manager :=
  {| store := store m; callbacks := callbacks m; sources := sources m;
     transports := transports m; pending := pending m; realm := realm m;
     trace := trace m ++ [e] |}.

(** [this.callbacks?.onX?.(...)] *)
Definition call_host (supplied : Callbacks → bool) (e : Effect) (m : Manager)
  : Manager :=
  match callbacks m with
  | Some cb => if supplied cb then emit e m else m
  | None => m
  end.

Definition with_sources (src : gmap string nat) (ts : list EventSource)
  (m : Manager) : Manager :=
  {| store := store m; callbacks := callbacks m; sources := src;
     transports := ts; pending := pending m; realm := realm m;
     trace := trace m |}.

Definition with_pending (p : list ConnectionConfig.t) (m : Manager) : Manager :=
  {| store := store m; callbacks := callbacks m; sources := sources m;
     transports := transports m; pending := p; realm := realm m;
     trace := trace m |}.

Definition with_realm (r : Realm) (m : Manager) : Manager :=
  {| store := store m; callbacks := callbacks m; sources := sources m;
     transports := transports m; pending := pending m; realm := r;
     trace := trace m |}.

Definition connection (id url : string) (st : SSEConnectionStatus)
  (err : option string) : SSEConnectionState.t :=
  {| SSEConnectionState.id := id; SSEConnectionState.url := url;
     SSEConnectionState.status := st; SSEConnectionState.lastEvent := None;
     SSEConnectionState.error := err |}.

(** [connect(cfg)] up to the [await]: the two guards, the [connecting]
    entry, and the start of the async body, which calls the token loader
    and suspends. *)
Definition connect (cfg : ConnectionConfig.t) (m : Manager) : Manager :=
  match window (realm m) with
  | None => m
  | Some w =>
    if negb (hasEventSource w) then m
    else if bool_decide (is_Some (sources m !! ConnectionConfig.id cfg)) then m
    else
      let m1 := on_store (setConnection
                  (connection (ConnectionConfig.id cfg) (ConnectionConfig.url cfg)
                              connecting None)) m in
      let m2 := emit (TokenLoaderCalled (ConnectionConfig.id cfg)) m1 in
      with_pending (pending m2 ++ [cfg]) m2
  end.

(** [(cfg.eventTypes && cfg.eventTypes.length ? cfg.eventTypes : ["message"]).slice()] *)
Definition listened_types (cfg : ConnectionConfig.t) : list string :=
  match ConnectionConfig.eventTypes cfg with
  | Some (t :: ts) => t :: ts
  | _ => ["message"]
  end.

Section ManagerOnPlatform.
Variable URL_new : string → string → option URL.
Variable urlencode : string → string.
Variable encodeURIComponent : string → string.

(** The [catch] of the token [try]: the loader rejected with [e]. *)
Definition token_rejected (cfg : ConnectionConfig.t) (e : JsValue)
  (m : Manager) : Manager :=
  let m1 := on_store (setConnection
              (connection (ConnectionConfig.id cfg) (ConnectionConfig.url cfg)
                          error (Some ("token: " +:+ String_ e)))) m in
  call_host onError (HostOnError (ConnectionConfig.id cfg) e) m1.

(** [new EventSource(fullUrl)] throws when the platform's URL parser
    rejects [fullUrl]; the parser is the one behind [new URL], asked
    here with the window's origin as the base. *)
Definition EventSource_constructible (fullUrl : string) (r : Realm) : bool :=
  match URL_new fullUrl (match window r with Some w => origin w | None => "" end) with
  | Some _ => true
  | None => false
  end.

(** The rest of the async body: the loader resolved with [token]. When
    the [EventSource] constructor throws, the body ends there: nothing
    is tracked, no listener is attached and the entry is left as it
    is. *)
Definition token_resolved (cfg : ConnectionConfig.t) (token : string)
  (m : Manager) : Manager :=
  let '(fullUrl, r') :=
    buildUrl URL_new urlencode encodeURIComponent
             (ConnectionConfig.url cfg) token
             (Some (default "authToken" (ConnectionConfig.tokenQueryParam cfg)))
             (realm m) in
  if EventSource_constructible fullUrl r' then
    let es := {| es_url := fullUrl; es_closed := false; es_cfg := cfg;
                 es_types := listened_types cfg |} in
    let handle := length (transports m) in
    with_sources (<[ConnectionConfig.id cfg := handle]> (sources m))
                 (transports m ++ [es]) (with_realm r' m)
  else with_realm r' m.

(** The async body of [connect] resumes with the loader's outcome. *)
Definition token_settled (cfg : ConnectionConfig.t) (outcome : JsValue + string)
  (m : Manager) : Manager :=
  match outcome with
  | inl e => token_rejected cfg e m
  | inr token => token_resolved cfg token m
  end.

(** The ["open"] listener of the [EventSource] [es]. *)
Definition handle_open (es : EventSource) (m : Manager) : Manager :=
  let id := ConnectionConfig.id (es_cfg es) in
  call_host onOpen (HostOnOpen id)
    (on_store (setConnection (connection id (es_url es) open None)) m).

(** The ["error"] listener: [String(err?.message ?? "SSE error")]. *)
Definition handle_error (es : EventSource) (message : option string)
  (m : Manager) : Manager :=
  let id := ConnectionConfig.id (es_cfg es) in
  call_host onError (HostOnError id (VEvent message))
    (on_store (setConnection
       (connection id (es_url es) error
                   (Some (String_ (VString (default "SSE error" message)))))) m).

(** An event as a listener for the type [ev_type] sees it, with the
    outcome of [JSON.parse(ev.data)] ([None] when it throws) and the
    value of [Date.now()]. A [MessageEvent] has its data; the plain
    [Event] of the transport's own ["open"] and ["error"] has none. *)
Record MessageEvent : Set := {
  ev_type : string;
  ev_data : option string;
  ev_parsed : option Json;
  ev_lastEventId : option string;
  ev_now : Z
}.

(** One listener attached for a custom event type. *)
Definition handle_message (es : EventSource) (ev : MessageEvent)
  (m : Manager) : Manager :=
  let '(own, r') := getClientUid (realm m) in
  let msg := {| connectionId := ConnectionConfig.id (es_cfg es);
                type := ev_type ev;
                dataStr := ev_data ev;
                data := ev_parsed ev;
                lastEventId := ev_lastEventId ev;
                timestamp := ev_now ev;
                uid := Some own |} in
  call_host onEvent (HostOnEvent msg)
    (on_store (pushEvent msg) (with_realm r' m)).

Definition close_transport (h : nat) (ts : list EventSource) : list EventSource :=
  match ts !! h with
  | Some es => <[h := {| es_url := es_url es; es_closed := true;
                         es_cfg := es_cfg es; es_types := es_types es |}]> ts
  | None => ts
  end.

Definition disconnect (id : string) (m : Manager) : Manager :=
  let m1 := match sources m !! id with
            | Some h => with_sources (delete id (sources m))
                                     (close_transport h (transports m)) m
            | None => m
            end in
  on_store (removeConnection id) m1.

Definition disconnectAll (m : Manager) : Manager :=
  with_sources ∅
    (foldr close_transport (transports m) (map snd (map_to_list (sources m)))) m.

(** The plain [Event] with which the transport announces ["open"] or
    ["error"], as a listener for a custom type of that name sees it:
    no data, so [JSON.parse] throws, and no [lastEventId]. *)
Definition lifecycle_event (name : string) (now : Z) : MessageEvent :=
  {| ev_type := name; ev_data := None; ev_parsed := None;
     ev_lastEventId := None; ev_now := now |}.

(** An event dispatched on the [EventSource] runs every listener
    attached for its type, in the order they were attached: the
    ["open"] listener, the ["error"] listener, then one listener for
    each entry of the custom types. [message] is the event's [message]
    property, which the ["error"] listener reads. *)
Definition dispatch (es : EventSource) (message : option string)
  (ev : MessageEvent) (m : Manager) : Manager :=
  let m1 := if bool_decide (ev_type ev = "open") then handle_open es m else m in
  let m2 := if bool_decide (ev_type ev = "error") then handle_error es message m1
            else m1 in
  foldl (λ m _, handle_message es ev m) m2
        (filter (λ t, t = ev_type ev) (es_types es)).

(** What can happen to a manager: a call by the host, or the event loop
    resuming an async body or delivering an event of a transport: its
    own ["open"] and ["error"] (at the time [now]), or an event the
    server named. *)
Inductive Input : Set :=
  | DoConnect (cfg : ConnectionConfig.t)
  | DoDisconnect (id : string)
  | DoDisconnectAll
  | TokenSettled (task : nat) (outcome : JsValue + string)
  | TransportOpen (h : nat) (now : Z)
  | TransportError (h : nat) (message : option string) (now : Z)
  | TransportMessage (h : nat) (ev : MessageEvent).

(** A transport delivers events only while it is not closed. *)
Definition live (h : nat) (m : Manager) : option EventSource :=
  match transports m !! h with
  | Some es => if es_closed es then None else Some es
  | None => None
  end.

Definition step (i : Input) (m : Manager) : Manager :=
  match i with
  | DoConnect cfg => connect cfg m
  | DoDisconnect id => disconnect id m
  | DoDisconnectAll => disconnectAll m
  | TokenSettled task outcome =>
    match pending m !! task with
    | Some cfg => token_settled cfg outcome (with_pending (delete task (pending m)) m)
    | None => m
    end
  | TransportOpen h now =>
    match live h m with
    | Some es => dispatch es None (lifecycle_event "open" now) m
    | None => m
    end
  | TransportError h message now =>
    match live h m with
    | Some es => dispatch es message (lifecycle_event "error" now) m
    | None => m
    end
  | TransportMessage h ev =>
    match live h m with
    | Some es => dispatch es None ev m
    | None => m
    end
  end.

Definition run (inputs : list Input) (m : Manager) : Manager :=
  foldl (λ m i, step i m) m inputs.
End ManagerOnPlatform.

(** ** Selectors of the hooks (react_sse.ts, lines 279-372)

    Each selector is the function that [useStoreSelector] applies to
    [store.getState()]. The two hooks whose result depends on object
    identity, [useSSEConnections] and [useSSEEvents], come after the
    heap below. *)

(** [s.connections[id]] *)
Definition useSSEConnection (id : string) (s : InternalState) : option Property :=
  property_get (connections s) id.

(** The filter of [useSSEEvents]. A predicate is a function object, given
    by its address; React compares it by that address, and calling it
    runs the body that the table [fns] of function objects has there
    (predicates are taken to be pure). *)
Record EventsFilter : Set := {
  connectionIds : option (list string);
  types : option (list string);
  predicate : option nat;
  sinceTs : option Z
}.

(** [new Set(xs).has(x)] *)
Definition Set_has (xs : list string) (x : string) : bool :=
  bool_decide (x ∈ xs).

(** [xs && xs.length]: the array is given and not empty. *)
Definition given_nonempty (xs : option (list string)) : bool :=
  match xs with
  | Some (_ :: _) => true
  | _ => false
  end.

(** The callback that [useSSEEvents] hands to [React.useMemo], on the
    elements of the store's array. *)
Definition useSSEEvents_compute (fns : nat → SSEMessage → bool)
  (filter : EventsFilter) (events : list SSEMessage) : list SSEMessage :=
  let out := events in
  let out := match sinceTs filter with
             | Some ts => if bool_decide (ts ≠ 0)
                          then List.filter (λ e, timestamp e >=? ts) out
                          else out
             | None => out
             end in
  let out := if given_nonempty (connectionIds filter)
             then List.filter (λ e, Set_has (default [] (connectionIds filter))
                                            (connectionId e)) out
             else out in
  let out := if given_nonempty (types filter)
             then List.filter (λ e, Set_has (default [] (types filter)) (type e)) out
             else out in
  let out := match predicate filter with
             | Some p => List.filter (fns p) out
             | None => out
             end in
  out.

(** An argument that is one string or an array of strings. *)
Inductive OneOrMany : Set :=
  | One (x : string)
  | Many (xs : list string).

(** [Array.isArray(x) ? x : [x]] *)
Definition as_array (x : OneOrMany) : list string :=
  match x with
  | One x => [x]
  | Many xs => xs
  end.

(** The loop of [useSSEEvent], over the elements from index
    [arr.length - 1] down to 0. *)
Fixpoint scan_back (idSet : list string) (typeSet : option (list string))
  (newest_first : list SSEMessage) : option SSEMessage :=
  match newest_first with
  | [] => None
  | e :: older =>
    if negb (Set_has idSet (connectionId e)) then scan_back idSet typeSet older
    else if match typeSet with
            | Some ts => negb (Set_has ts (type e))
            | None => false
            end
    then scan_back idSet typeSet older
    else Some e
  end.

Definition useSSEEvent (connectionId : OneOrMany) (type : option OneOrMany)
  (s : InternalState) : option SSEMessage :=
  scan_back (as_array connectionId) (as_array <$> type) (reverse (events s)).

(** The loop of [useLiveSSEEvent], with its [break]. *)
Fixpoint scan_back_since (since : Z) (idSet : list string)
  (typeSet : option (list string)) (newest_first : list SSEMessage)
  : option SSEMessage :=
  match newest_first with
  | [] => None
  | e :: older =>
    if timestamp e <? since then None
    else if negb (Set_has idSet (connectionId e))
    then scan_back_since since idSet typeSet older
    else if match typeSet with
            | Some ts => negb (Set_has ts (type e))
            | None => false
            end
    then scan_back_since since idSet typeSet older
    else Some e
  end.

(** The selector of [useLiveSSEEvent] for the mount instant [since]. *)
Definition useLiveSSEEvent_selector (since : Z) (connectionId : OneOrMany)
  (type : option OneOrMany) (s : InternalState) : option SSEMessage :=
  scan_back_since since (as_array connectionId) (as_array <$> type)
                  (reverse (events s)).

(** One render of [useLiveSSEEvent]: [mountTsRef] is the ref's current
    value (0 before the first render), [now] is [Date.now()]. The result
    comes with the ref's value after the render. *)
Definition useLiveSSEEvent (now mountTsRef : Z) (connectionId : OneOrMany)
  (type : option OneOrMany) (s : InternalState) : option SSEMessage * Z :=
  let mountTsRef := if bool_decide (mountTsRef = 0) then now else mountTsRef in
  (useLiveSSEEvent_selector mountTsRef connectionId type s, mountTsRef).

(** ** The store's objects on a heap

    The same three mutators, with the objects they build and the one
    they write to placed in a heap, so that a state obtained from
    [getState] earlier is an address that can be read again later. *)

Abbreviation loc := nat.

Inductive Object : Set :=
  (** an [InternalState]: its two fields are references *)
  | ObjState (connections_ref events_ref : loc)
  | ObjConnections (m : gmap string Stored)
  | ObjEvents (arr : list SSEMessage)
  (** the object that the selector of [useSSEConnections] builds, by
      its own properties *)
  | ObjSelected (own : gmap string Property).

Abbreviation Heap := (list Object).

Definition alloc (o : Object) (h : Heap) : loc * Heap := (length h, h ++ [o]).

(** [this.maxEvents] and the reference held in [this.state]. *)
Record StoreRef : Set := {
  ref_maxEvents : Z;
  ref_state : loc
}.

Definition read_connections (h : Heap) (l : loc)
  : option (gmap string Stored) :=
  match h !! l with
  | Some (ObjConnections m) => Some m
  | _ => None
  end.

Definition read_events (h : Heap) (l : loc) : option (list SSEMessage) :=
  match h !! l with
  | Some (ObjEvents arr) => Some arr
  | _ => None
  end.

(** What a holder of the state reference [l] sees. *)
Definition snapshot (h : Heap) (l : loc) : option InternalState :=
  match h !! l with
  | Some (ObjState lc le) =>
    m ← read_connections h lc;
    arr ← read_events h le;
    Some {| connections := m; events := arr |}
  | _ => None
  end.

(** [arr.splice(0, deleteCount)] on the array at [l], in place. *)
Definition heap_splice0 (l : loc) (deleteCount : Z) (h : Heap) : Heap :=
  match h !! l with
  | Some (ObjEvents arr) => <[l := ObjEvents (splice0 deleteCount arr)]> h
  | _ => h
  end.

Definition new_Store_on_heap (maxEvents : Z) (h : Heap) : StoreRef * Heap :=
  let '(lc, h1) := alloc (ObjConnections ∅) h in
  let '(le, h2) := alloc (ObjEvents []) h1 in
  let '(ls, h3) := alloc (ObjState lc le) h2 in
  ({| ref_maxEvents := maxEvents; ref_state := ls |}, h3).

Definition heap_setConnection (connect : SSEConnectionState.t)
  (sh : StoreRef * Heap) : option (StoreRef * Heap) :=
  let '(s, h) := sh in
  match h !! ref_state s with
  | Some (ObjState lc le) =>
    m ← read_connections h lc;
    let '(lc', h1) :=
      alloc (ObjConnections (<[SSEConnectionState.id connect := Typed connect]> m))
            h in
    let '(ls', h2) := alloc (ObjState lc' le) h1 in
    Some ({| ref_maxEvents := ref_maxEvents s; ref_state := ls' |}, h2)
  | _ => None
  end.

Definition heap_removeConnection (id : string) (sh : StoreRef * Heap)
  : option (StoreRef * Heap) :=
  let '(s, h) := sh in
  match h !! ref_state s with
  | Some (ObjState lc le) =>
    m ← read_connections h lc;
    let '(lc', h1) := alloc (ObjConnections (delete id m)) h in
    let '(ls', h2) := alloc (ObjState lc' le) h1 in
    Some ({| ref_maxEvents := ref_maxEvents s; ref_state := ls' |}, h2)
  | _ => None
  end.

Definition heap_pushEvent (msg : SSEMessage) (sh : StoreRef * Heap)
  : option (StoreRef * Heap) :=
  let '(s, h) := sh in
  match h !! ref_state s with
  | Some (ObjState lc le) =>
    arr ← read_events h le;
    let '(le', h1) := alloc (ObjEvents (arr ++ [msg])) h in
    len ← length <$> read_events h1 le';
    let h2 := if Z.of_nat len >? ref_maxEvents s
              then heap_splice0 le' (Z.of_nat len - ref_maxEvents s) h1
              else h1 in
    m ← read_connections h2 lc;
    let found := property_get m (connectionId msg) in
    let '(lc', h3) :=
      alloc (ObjConnections (<[connectionId msg := upserted found msg]> m)) h2 in
    let '(ls', h4) := alloc (ObjState lc' le') h3 in
    Some ({| ref_maxEvents := ref_maxEvents s; ref_state := ls' |}, h4)
  | _ => None
  end.

(** A mutation of the store, for statements about all three. *)
Inductive Mutation : Set :=
  | MSetConnection (connect : SSEConnectionState.t)
  | MRemoveConnection (id : string)
  | MPushEvent (msg : SSEMessage).

Definition mutate (mu : Mutation) (s : Store) : Store :=
  match mu with
  | MSetConnection connect => (setConnection connect s).1
  | MRemoveConnection id => (removeConnection id s).1
  | MPushEvent msg => (pushEvent msg s).1
  end.

Definition heap_mutate (mu : Mutation) (sh : StoreRef * Heap)
  : option (StoreRef * Heap) :=
  match mu with
  | MSetConnection connect => heap_setConnection connect sh
  | MRemoveConnection id => heap_removeConnection id sh
  | MPushEvent msg => heap_pushEvent msg sh
  end.

(** ** The hooks that depend on object identity

    [useSyncExternalStore] and [useMemo] compare what they are given
    with [Object.is], so these two hooks are stated over the heap: the
    store's state is the reference [state_ref], the arrays and objects
    are addresses. *)

(** The own properties of the object that the selector of
    [useSSEConnections] fills: [out[id] = s.connections[id]] for every
    requested id whose read is truthy, which every present value is.
    The assignment to ["__proto__"] runs the setter inherited from
    [Object.prototype] and creates no own property. *)
Definition selected (ids : list string) (own : gmap string Stored)
  : gmap string Property :=
  foldl (λ out id, match property_get own id with
                   | Some v => if bool_decide (id = "__proto__") then out
                               else <[id := v]> out
                   | None => out
                   end) ∅ ids.

(** One call of the selector of [useSSEConnections]: the reference it
    returns, and the heap afterwards. Without [ids] it returns the
    store's connections object; with [ids] it builds a new object. *)
Definition useSSEConnections (ids : option (list string)) (state_ref : loc)
  (h : Heap) : option (loc * Heap) :=
  match h !! state_ref with
  | Some (ObjState lc _) =>
    match ids with
    | None => Some (lc, h)
    | Some ids =>
      m ← read_connections h lc;
      Some (alloc (ObjSelected (selected ids m)) h)
    end
  | _ => None
  end.

(** The dependency array of the memo in [useSSEEvents]:
    [[events, filter.sinceTs, connIdsKey, typesKey, filter.predicate]],
    the array and the function by their addresses. *)
Record MemoDeps : Set := {
  dep_events : loc;
  dep_sinceTs : option Z;
  dep_connIdsKey : string;
  dep_typesKey : string;
  dep_predicate : option nat
}.

#[global] Instance MemoDeps_eq_dec : EqDecision MemoDeps := ltac:(solve_decision).

(** [filter.connectionIds?.join("|") ?? ""] and the same for the types *)
Definition joined_key (xs : option (list string)) : string :=
  match xs with
  | Some xs => join "|" xs
  | None => ""
  end.

Definition deps_of (filter : EventsFilter) (events : loc) : MemoDeps :=
  {| dep_events := events;
     dep_sinceTs := sinceTs filter;
     dep_connIdsKey := joined_key (connectionIds filter);
     dep_typesKey := joined_key (types filter);
     dep_predicate := predicate filter |}.

(** What the component that calls [useSSEEvents] keeps for the hook's
    [useMemo] from one render to the next: nothing before the first
    render; nothing either after a render without a filter, which
    returns before [useMemo] is reached; otherwise the dependencies and
    the value of the last computation (the array by its elements). *)
Inductive MemoCell : Set :=
  | Unmounted
  | NotReached
  | Memoized (deps : MemoDeps) (value : list SSEMessage).

(** One render of [useSSEEvents(filter)]: the result and the memo cell
    for the next render. [useMemo] reuses the value it holds when every
    dependency is the same as at the last computation. A render that
    reaches [useMemo] when the previous one did not, or the other way
    round, changes the number of hooks the component calls, which React
    refuses; that and a dangling state reference are [None]. *)
Definition useSSEEvents (fns : nat → SSEMessage → bool)
  (filter : option EventsFilter) (state_ref : loc) (h : Heap) (cell : MemoCell)
  : option (list SSEMessage * MemoCell) :=
  match h !! state_ref with
  | Some (ObjState _ le) =>
    events ← read_events h le;
    match filter with
    | None =>
      match cell with
      | Memoized _ _ => None
      | _ => Some (events, NotReached)
      end
    | Some f =>
      let deps := deps_of f le in
      let computed := useSSEEvents_compute fns f events in
      match cell with
      | NotReached => None
      | Unmounted => Some (computed, Memoized deps computed)
      | Memoized deps0 value0 =>
        if decide (deps = deps0) then Some (value0, Memoized deps0 value0)
        else Some (computed, Memoized deps computed)
      end
    end
  | _ => None
  end.

(** What happens around a component that calls [useSSEEvents]: the
    store is mutated, or the component renders with a filter. *)
Inductive Act : Set :=
  | Mutate (mu : Mutation)
  | Render (filter : option EventsFilter).

(** The results of the renders among [acts], in order, from the store
    [sh] and the memo cell [cell]. *)
Fixpoint component (fns : nat → SSEMessage → bool) (acts : list Act)
  (sh : StoreRef * Heap) (cell : MemoCell) : option (list (list SSEMessage)) :=
  match acts with
  | [] => Some []
  | Mutate mu :: rest =>
    sh' ← heap_mutate mu sh;
    component fns rest sh' cell
  | Render filter :: rest =>
    '(out, cell') ← useSSEEvents fns filter (ref_state sh.1) sh.2 cell;
    outs ← component fns rest sh cell';
    Some (out :: outs)
  end.

(** ** Abbreviations and sample values for the statements below *)

Abbreviation log s := (events (state s)).

(** An event with the three fields the selectors read. *)
Definition ev (id ty : string) (ts : Z) : SSEMessage :=
  {| connectionId := id; type := ty; dataStr := Some ""; data := None;
     lastEventId := None; timestamp := ts; uid := None |}.

(** How often a listener occurs among the calls made. *)
Definition times_called (l : Listener) (called : list Listener) : nat :=
  length (filter (λ l', l' = l) called).

(** A browser tab that has not asked for its identifier yet: session
    storage is empty and writable, and [generateUid] will produce
    "tab-A", "tab-B", ... *)
Definition sample_entropy (n : nat) : string :=
  "tab-" +:+ String (ascii_of_nat (65 + n)) "".

Definition sample_window : Window :=
  {| sessionStorage := Some {| items := ∅; setItem_throws := false |};
     hasEventSource := true;
     origin := "https://app.example" |}.

Definition fresh_tab : Realm :=
  {| window := Some sample_window; cachedUid := None;
     entropy := sample_entropy; drawn := 0 |}.

(** The same tab once its identifier "tab-A" is cached. *)
Definition known_tab : Realm := (getClientUid fresh_tab).2.

(** The encoders of the small platform: unreserved characters encode as
    themselves. *)
Definition plain_encode (s : string) : string := s.

Definition plain_buildUrl : string → string → option string → Realm → string * Realm :=
  buildUrl plain_URL_new plain_encode plain_encode.

(** A platform on which [new URL] always throws, to reach the fallback. *)
Definition throwing_URL_new (urlStr base : string) : option URL := None.

(** The position of the first parameter called [name]. *)
Fixpoint param_index (name : string) (l : list (string * string)) : option nat :=
  match l with
  | [] => None
  | (k, _) :: rest =>
    if bool_decide (k = name) then Some 0%nat else S <$> param_index name rest
  end.

(** The identity parameter comes before the parameter called [key]. *)
Definition uid_before (key : string) (l : list (string * string)) : bool :=
  match param_index "uid" l, param_index key l with
  | Some i, Some j => bool_decide (i < j)%nat
  | _, _ => false
  end.

Definition sample_cfg : ConnectionConfig.t :=
  {| ConnectionConfig.id := "a";
     ConnectionConfig.url := "https://x.example/sse";
     ConnectionConfig.tokenQueryParam := None;
     ConnectionConfig.connectOnMount := None;
     ConnectionConfig.eventTypes := None |}.

Definition all_callbacks : Callbacks :=
  {| onEvent := true; onOpen := true; onError := true |}.

(** A manager in a browser tab, over a store with one subscriber. *)
Definition sample_manager : Manager :=
  new_SSEManager (subscribe 1%nat (new_Store 500)) (Some all_callbacks) known_tab.

(** The two membership tests of the scanning loops, as one test. *)
Definition matches (idSet : list string) (typeSet : option (list string))
  (e : SSEMessage) : bool :=
  Set_has idSet (connectionId e)
  && match typeSet with
     | Some ts => Set_has ts (type e)
     | None => true
     end.

(** The same in the words of the specification: the connection id is in
    the requested ids, and the type is in the requested types when types
    were requested. *)
Definition Matching (connectionId_arg : OneOrMany) (type_arg : option OneOrMany)
  (e : SSEMessage) : Prop :=
  connectionId e ∈ as_array connectionId_arg
  ∧ match type_arg with
    | Some t => type e ∈ as_array t
    | None => True
    end.

(** The conditions of a filter that the code applies: a threshold other
    than 0, a non-empty id list, a non-empty type list, a predicate. *)
Definition satisfies_effective (fns : nat → SSEMessage → bool)
  (f : EventsFilter) (e : SSEMessage) : bool :=
  match sinceTs f with
  | Some ts => if bool_decide (ts ≠ 0) then timestamp e >=? ts else true
  | None => true
  end
  && (if given_nonempty (connectionIds f)
      then Set_has (default [] (connectionIds f)) (connectionId e) else true)
  && (if given_nonempty (types f)
      then Set_has (default [] (types f)) (type e) else true)
  && match predicate f with
     | Some p => fns p e
     | None => true
     end.

(** The specification's reading of the filter: every condition that is
    supplied counts, whatever its value. *)
Definition satisfies_supplied (fns : nat → SSEMessage → bool)
  (f : EventsFilter) (e : SSEMessage) : bool :=
  match sinceTs f with
  | Some ts => timestamp e >=? ts
  | None => true
  end
  && match connectionIds f with
     | Some ids => Set_has ids (connectionId e)
     | None => true
     end
  && match types f with
     | Some ts => Set_has ts (type e)
     | None => true
     end
  && match predicate f with
     | Some p => fns p e
     | None => true
     end.

Definition events_by_spec (fns : nat → SSEMessage → bool) (f : EventsFilter)
  (evs : list SSEMessage) : list SSEMessage :=
  List.filter (satisfies_supplied fns f) evs.

(** No supplied condition is one of those the code skips. *)
Definition all_effective (f : EventsFilter) : Prop :=
  sinceTs f ≠ Some 0 ∧ connectionIds f ≠ Some [] ∧ types f ≠ Some [].

Definition state_of (evs : list SSEMessage) : InternalState :=
  {| connections := ∅; events := evs |}.

(** A store of capacity 1 built on an empty heap. *)
Definition sample_heap_store : StoreRef * Heap := new_Store_on_heap 1 [].

(** Run mutations one after the other, keeping every state reference
    the store has held, newest first. *)
Fixpoint heap_mutations (mus : list Mutation) (held : list loc)
  (sh : StoreRef * Heap) : option (list loc * (StoreRef * Heap)) :=
  match mus with
  | [] => Some (held, sh)
  | mu :: rest =>
    sh' ← heap_mutate mu sh;
    heap_mutations rest (ref_state sh'.1 :: held) sh'
  end.

(** ** SSEProvider (react_sse.ts, lines 238-265)

    What the provider does on its manager is the declarative-connections
    effect and that effect's cleanup; the manager is the one the provider
    holds while its callbacks stay the same. *)

(** [new Store(maxEvents)] with the default [maxEvents = 500], and
    [new SSEManager(store, { onEvent, onOpen, onError })]. *)
Definition SSEProvider_init (maxEvents : option Z) (cb : Callbacks) (r : Realm)
  : Manager :=
  new_SSEManager (new_Store (default 500 maxEvents)) (Some cb) r.

(** [ctx.connect]: [(cfg) => enabled && mgrRef.current.connect(cfg)] *)
Definition ctx_connect (enabled : bool) (cfg : ConnectionConfig.t) (m : Manager)
  : Manager :=
  if enabled then connect cfg m else m.

(** [connections.filter((c) => c.connectOnMount !== false)] *)
Definition toConnect (connections : list ConnectionConfig.t)
  : list ConnectionConfig.t :=
  List.filter (λ c, negb (bool_decide (ConnectionConfig.connectOnMount c = Some false)))
              connections.

(** The body of the declarative-connections effect. *)
Definition SSEProvider_effect (enabled : bool)
  (connections : list ConnectionConfig.t) (m : Manager) : Manager :=
  if negb enabled then m
  else foldl (λ m c, ctx_connect enabled c m) m (toConnect connections).

(** The cleanup the effect returns (none when it returned early). *)
Definition SSEProvider_cleanup (enabled : bool)
  (connections : list ConnectionConfig.t) (m : Manager) : Manager :=
  if negb enabled then m
  else foldl (λ m c, disconnect (ConnectionConfig.id c) m) m (toConnect connections).

(** ** Further notions for the statements below *)

(** The two references held by the state object at [p]. *)
Definition connections_ref (h : Heap) (p : loc) : option loc :=
  match h !! p with
  | Some (ObjState lc _) => Some lc
  | _ => None
  end.

Definition events_ref (h : Heap) (p : loc) : option loc :=
  match h !! p with
  | Some (ObjState _ le) => Some le
  | _ => None
  end.


(** The manager runs in a browser that has [EventSource]. *)
Definition in_browser (m : Manager) : Prop :=
  ∃ w, window (realm m) = Some w ∧ hasEventSource w = true.

(** The message that a listener builds from a [MessageEvent]. *)
Definition message_of (es : EventSource) (ev : MessageEvent) (own : string)
  : SSEMessage :=
  {| connectionId := ConnectionConfig.id (es_cfg es);
     type := ev_type ev;
     dataStr := ev_data ev;
     data := ev_parsed ev;
     lastEventId := ev_lastEventId ev;
     timestamp := ev_now ev;
     uid := Some own |}.

(** A page reload in the same session: the window with its storage
    stays, the module starts over. *)
Definition reload (r : Realm) (entropy' : nat → string) (drawn' : nat) : Realm :=
  {| window := window r; cachedUid := None; entropy := entropy'; drawn := drawn' |}.

(** One of the three calls that change the store's state. *)
Definition is_mutator (c : StoreCall) : Prop :=
  match c with
  | CallSubscribe _ | CallUnsubscribe _ => False
  | _ => True
  end.

(** The capacity is a count and the log fits into it. *)
Definition log_within_capacity (s : Store) : Prop :=
  0 ≤ maxEvents s ∧ Z.of_nat (length (log s)) ≤ maxEvents s.

(** An [EventSource] after [close()]. *)
Definition closed_source (es : EventSource) : EventSource :=
  {| es_url := es_url es; es_closed := true;
     es_cfg := es_cfg es; es_types := es_types es |}.

(** ** Notions for the statements about [useSSEEvents] *)

(** The filters that the renders among [acts] pass. *)
Fixpoint filters_of (acts : list Act) : list EventsFilter :=
  match acts with
  | [] => []
  | Render (Some f) :: rest => f :: filters_of rest
  | _ :: rest => filters_of rest
  end.

(** The join keys tell the lists of two filters apart: when the keys of
    the connection ids agree, the lists of connection ids agree (an
    omitted list counting as empty), and the same for the types. *)
Definition keys_tell_apart (f f' : EventsFilter) : Prop :=
  (joined_key (connectionIds f) = joined_key (connectionIds f') →
   default [] (connectionIds f) = default [] (connectionIds f'))
  ∧ (joined_key (types f) = joined_key (types f') →
     default [] (types f) = default [] (types f')).

(** What each render among [acts] is asked and the log it sees, when
    the mutations among [acts] are applied to the store [s]. *)
Fixpoint rendered (acts : list Act) (s : Store)
  : list (option EventsFilter * list SSEMessage) :=
  match acts with
  | [] => []
  | Mutate mu :: rest => rendered rest (mutate mu s)
  | Render filter :: rest => (filter, log s) :: rendered rest s
  end.

(** The events of [evs] that pass the conditions the code applies, or
    all of [evs] without a filter. *)
Definition filtered (fns : nat → SSEMessage → bool)
  (asked : option EventsFilter * list SSEMessage) : list SSEMessage :=
  match asked.1 with
  | Some f => List.filter (satisfies_effective fns f) asked.2
  | None => asked.2
  end.

(** What a memo cell holds is the filtered list of an array that is
    still where it was, for one of the filters [fs]. *)
Definition memo_of (fns : nat → SSEMessage → bool) (h : Heap)
  (fs : list EventsFilter) (cell : MemoCell) : Prop :=
  match cell with
  | Unmounted => True
  | NotReached => False
  | Memoized deps value =>
    ∃ f0 evs0, f0 ∈ fs
               ∧ deps = deps_of f0 (dep_events deps)
               ∧ read_events h (dep_events deps) = Some evs0
               ∧ value = List.filter (satisfies_effective fns f0) evs0
  end.

(** A table of function objects in which address 0 holds the test for
    events of the type "tick". *)
Definition sample_fns (address : nat) (e : SSEMessage) : bool :=
  match address with
  | 0%nat => bool_decide (type e = "tick")
  | _ => true
  end.

(** * Properties *)

(** ** The event log *)

Lemma splice0_drop {A : Type} (k : Z) (arr : list A) :
  splice0 k arr = drop (Z.to_nat k) arr.
Proof.
  unfold splice0.
  destruct (decide (k ≤ Z.of_nat (length arr))) as [Hle | Hgt].
  - f_equal. lia.
  - rewrite !drop_ge; [done | lia | lia].
Qed.

(** The log after [pushEvent], as a cut of the old log with the message
    at its end. *)
Lemma pushEvent_log (msg : SSEMessage) (s : Store) :
  0 ≤ maxEvents s →
  log (pushEvent msg s).1
  = drop (length (log s ++ [msg]) - Z.to_nat (maxEvents s)) (log s ++ [msg]).
Proof.
  intros Hcap. cbn.
  destruct (Z.gtb_spec (Z.of_nat (length (log s ++ [msg]))) (maxEvents s)) as [Hgt | Hle].
  - rewrite splice0_drop. f_equal. lia.
  - replace (length (log s ++ [msg]) - Z.to_nat (maxEvents s))%nat with 0%nat by lia.
    by rewrite drop_0.
Qed.

Lemma call_maxEvents (c : StoreCall) (s : Store) :
  maxEvents (call c s) = maxEvents s.
Proof. by destruct c. Qed.

Lemma call_log_other (c : StoreCall) (s : Store) :
  (∀ msg, c ≠ CallPushEvent msg) → log (call c s) = log s.
Proof. destruct c; intros Hc; try done. by destruct (Hc msg). Qed.

(** Cutting twice from the front, the second time after more was
    appended, is cutting once. *)
Lemma drop_app_drop {A : Type} (cap : nat) (l k : list A) :
  let cut := drop (length l - cap) l in
  drop (length (cut ++ k) - cap) (cut ++ k)
  = drop (length (l ++ k) - cap) (l ++ k).
Proof.
  intros cut. subst cut.
  rewrite <- (drop_app_le l k (length l - cap)) by lia.
  rewrite drop_drop. f_equal.
  rewrite length_drop, !length_app. lia.
Qed.

Lemma calls_log (cs : list StoreCall) (s : Store) :
  0 ≤ maxEvents s →
  Z.of_nat (length (log s)) ≤ maxEvents s →
  log (calls cs s)
  = drop (length (log s ++ appended cs) - Z.to_nat (maxEvents s))
         (log s ++ appended cs).
Proof.
  revert s. induction cs as [| c cs IH]; intros s Hcap Hlen.
  - cbn. rewrite app_nil_r.
    replace (length (log s) - Z.to_nat (maxEvents s))%nat with 0%nat by lia.
    by rewrite drop_0.
  - change (calls (c :: cs) s) with (calls cs (call c s)).
    assert (Hstep : log (call c s)
              = match c with
                | CallPushEvent msg =>
                  drop (length (log s ++ [msg]) - Z.to_nat (maxEvents s))
                       (log s ++ [msg])
                | _ => log s
                end).
    { destruct c; try done. by apply pushEvent_log. }
    rewrite IH; rewrite ?call_maxEvents; [| done |].
    + rewrite Hstep. destruct c; try done.
      cbn [appended omap list_omap].
      rewrite drop_app_drop.
      by rewrite <- app_assoc.
    + rewrite Hstep. destruct c; try done.
      rewrite length_drop. lia.
Qed.

(** C1. For every sequence of calls made on a store created with a
    capacity C (a count, so not negative), the log is never longer than
    C, and it is exactly the last C of the events appended, in the order
    of their arrival: eviction drops the oldest and keeps the order of
    the rest. The sequence may mix [pushEvent] with the other calls, and
    the statement holds after each of its prefixes, a prefix being such a
    sequence itself. *)
Theorem pushEvent_log_bounded_suffix (C : Z) (cs : list StoreCall) :
  0 ≤ C →
  Z.of_nat (length (log (calls cs (new_Store C)))) ≤ C
  ∧ log (calls cs (new_Store C))
    = drop (length (appended cs) - Z.to_nat C) (appended cs).
Proof.
  intros Hcap.
  assert (Hlog := calls_log cs (new_Store C) Hcap).
  cbn in Hlog. rewrite Hlog by lia.
  split; [| done].
  rewrite length_drop. lia.
Qed.

(** Capacity 2 and three events E1, E2, E3: the log is [E2, E3]. *)
Lemma pushEvent_log_bounded_suffix_witness :
  let E1 := ev "a" "message" 1 in
  let E2 := ev "b" "message" 2 in
  let E3 := ev "a" "tick" 3 in
  let cs := [CallPushEvent E1; CallSubscribe 0%nat; CallPushEvent E2;
             CallRemoveConnection "a"; CallPushEvent E3] in
  Z.of_nat (length (log (calls cs (new_Store 2)))) ≤ 2
  ∧ log (calls cs (new_Store 2)) = [E2; E3].
Proof.
  intros E1 E2 E3 cs.
  exact (pushEvent_log_bounded_suffix 2 cs ltac:(lia)).
Defined.

(** With a negative [maxEvents] every push empties the log, whose
    length 0 is then above the bound. *)
Lemma pushEvent_negative_maxEvents (msg : SSEMessage) (s : Store) :
  maxEvents s < 0 → log (pushEvent msg s).1 = [].
Proof.
  intros Hneg. cbn.
  destruct (Z.gtb_spec (Z.of_nat (length (log s ++ [msg]))) (maxEvents s)) as [Hgt | Hle].
  - rewrite splice0_drop. apply drop_ge. lia.
  - lia.
Qed.

(** ** Notification *)

Lemma times_called_absent (l : Listener) (ls : list Listener) :
  l ∉ ls → times_called l ls = 0%nat.
Proof.
  unfold times_called. induction ls as [| x ls IH]; intros Hnotin; [done |].
  apply not_elem_of_cons in Hnotin as [Hne Hrest].
  rewrite filter_cons_False by congruence. by apply IH.
Qed.

Lemma times_called_once (l : Listener) (ls : list Listener) :
  NoDup ls → l ∈ ls → times_called l ls = 1%nat.
Proof.
  induction 1 as [| x ls Hx Hnodup IH]; intros Hin.
  - by apply elem_of_nil in Hin.
  - unfold times_called. destruct (decide (x = l)) as [-> | Hne].
    + rewrite filter_cons_True by done. cbn. f_equal.
      by apply times_called_absent.
    + rewrite filter_cons_False by done.
      apply elem_of_cons in Hin as [Heq | Hin]; [congruence | by apply IH].
Qed.

(** The listener set never holds a listener twice. *)
Lemma subscribe_NoDup (l : Listener) (s : Store) :
  NoDup (listeners s) → NoDup (listeners (subscribe l s)).
Proof.
  intros Hnodup. cbn. case_decide as Hin; [done |].
  apply NoDup_app. split_and!; [done | | apply NoDup_singleton].
  intros x Hx Hx'. apply list_elem_of_singleton in Hx' as ->. done.
Qed.

Lemma call_NoDup (c : StoreCall) (s : Store) :
  NoDup (listeners s) → NoDup (listeners (call c s)).
Proof.
  destruct c; cbn [call]; try done.
  - apply subscribe_NoDup.
  - intros Hnodup. cbn. by apply NoDup_filter.
Qed.

Lemma calls_NoDup (cs : list StoreCall) (s : Store) :
  NoDup (listeners s) → NoDup (listeners (calls cs s)).
Proof.
  revert s. induction cs as [| c cs IH]; intros s Hnodup; [done |].
  apply (IH (call c s)). by apply call_NoDup.
Qed.

Lemma reachable_NoDup (C : Z) (cs : list StoreCall) :
  NoDup (listeners (calls cs (new_Store C))).
Proof. apply calls_NoDup. cbn. apply NoDup_nil_2. Qed.

(** ** [pushEvent] as a whole *)

(** What [pushEvent msg] does, for every message and store. The message
    goes to the end of the log (what is left of the old log with the
    message appended once the oldest entries are evicted; the message is
    the newest entry whenever the capacity is at least 1, and nothing is
    evicted while the log is below capacity). The entry written under
    [msg.connectionId] depends on what reading that key gave before: the
    minimal state (the id, an empty url) when it gave nothing; the old
    state with [status: open] and [lastEvent: msg] when it gave a state;
    and an object with [status] and [lastEvent] only when it gave
    anything else. The entry of every other id is as before. Every
    subscribed listener is called exactly once, nobody else is called,
    and the subscriptions stay. *)
Lemma pushEvent_upsert (msg : SSEMessage) (s : Store) :
  NoDup (listeners s) →
  let s' := (pushEvent msg s).1 in
  let called := (pushEvent msg s).2 in
  (∃ k, log s' = drop k (log s ++ [msg]))
  ∧ (1 ≤ maxEvents s → last (log s') = Some msg)
  ∧ (Z.of_nat (length (log s)) < maxEvents s → log s' = log s ++ [msg])
  ∧ connections (state s') !! connectionId msg
    = Some match property_get (connections (state s)) (connectionId msg) with
           | None =>
             Typed {| SSEConnectionState.id := connectionId msg;
                      SSEConnectionState.url := "";
                      SSEConnectionState.status := open;
                      SSEConnectionState.lastEvent := Some msg;
                      SSEConnectionState.error := None |}
           | Some (Own (Typed prev)) =>
             Typed {| SSEConnectionState.id := SSEConnectionState.id prev;
                      SSEConnectionState.url := SSEConnectionState.url prev;
                      SSEConnectionState.status := open;
                      SSEConnectionState.lastEvent := Some msg;
                      SSEConnectionState.error := SSEConnectionState.error prev |}
           | Some _ => Headless msg
           end
  ∧ (∀ id, id ≠ connectionId msg →
           connections (state s') !! id = connections (state s) !! id)
  ∧ (∀ l, l ∈ listeners s → times_called l called = 1%nat)
  ∧ (∀ l, l ∉ listeners s → times_called l called = 0%nat)
  ∧ listeners s' = listeners s.
Proof.
  intros Hnodup s' called. subst s' called.
  split_and!.
  - cbn. case_match.
    + rewrite splice0_drop. eauto.
    + exists 0%nat. by rewrite drop_0.
  - intros Hcap. rewrite pushEvent_log by lia.
    rewrite drop_app_le by (rewrite length_app; cbn; lia).
    apply last_snoc.
  - intros Hroom. rewrite pushEvent_log by lia.
    rewrite length_app. cbn [length].
    replace (length (log s) + 1 - Z.to_nat (maxEvents s))%nat with 0%nat by lia.
    by rewrite drop_0.
  - cbn. rewrite lookup_insert_eq.
    by destruct (property_get _ _) as [[[prev | old] | name] |].
  - intros id Hne. cbn. by rewrite lookup_insert_ne.
  - intros l Hin. by apply times_called_once.
  - intros l Hnotin. by apply times_called_absent.
  - done.
Qed.

(** A store with two subscribers, a connection "a" opened earlier and
    room in the log. *)
Lemma pushEvent_upsert_sample :
  let s := calls [CallSubscribe 1%nat; CallSubscribe 2%nat;
                  CallSetConnection (connection "a" "https://x/sse" connecting None)]
                 (new_Store 2) in
  let msg := ev "a" "message" 7 in
  NoDup (listeners s)
  ∧ last (log (pushEvent msg s).1) = Some msg
  ∧ (pushEvent msg s).2 = [1%nat; 2%nat]
  ∧ times_called 1%nat (pushEvent msg s).2 = 1%nat.
Proof.
  intros s msg.
  assert (Hnodup : NoDup (listeners s)) by apply reachable_NoDup.
  destruct (pushEvent_upsert msg s Hnodup) as (_ & Hlast & _ & _ & _ & Honce & _).
  split_and!; [done | apply Hlast; cbn; lia | done |].
  apply Honce. cbn. set_solver.
Defined.

(** C5. The claim fails in the code for an event whose connection id is
    the name of a member of [Object.prototype] (["constructor"],
    ["toString"], ["__proto__"], ...) while the store has no entry of
    its own under that id. Reading the key finds the inherited member,
    which is truthy, so the minimal state is not used; spreading the
    member copies nothing. The entry written is an object with
    [status: open] and [lastEvent: msg] and without [id] and [url]: not
    the minimal connection state, which the same call writes for every
    other id without an entry. The log, the other entries and the
    notification are as claimed. *)
Theorem pushEvent_inherited_key (msg : SSEMessage) (s : Store) :
  connectionId msg ∈ Object_prototype →
  connections (state s) !! connectionId msg = None →
  let s' := (pushEvent msg s).1 in
  connections (state s') !! connectionId msg = Some (Headless msg)
  ∧ connections (state s') !! connectionId msg
    ≠ Some (Typed (upsert_entry (minimal_entry (connectionId msg)) msg))
  ∧ useSSEConnection (connectionId msg) (state s') = Some (Own (Headless msg))
  ∧ (∀ other, connectionId other ∉ Object_prototype →
       connections (state s) !! connectionId other = None →
       connections (state (pushEvent other s).1) !! connectionId other
       = Some (Typed (upsert_entry (minimal_entry (connectionId other)) other)))
  ∧ (∀ id, id ≠ connectionId msg →
           connections (state s') !! id = connections (state s) !! id)
  ∧ (pushEvent msg s).2 = listeners s.
Proof.
  intros Hproto Hnone s'. subst s'.
  assert (Hentry : connections (state (pushEvent msg s).1) !! connectionId msg
                   = Some (Headless msg)).
  { cbn. rewrite lookup_insert_eq. unfold property_get. rewrite Hnone.
    by rewrite bool_decide_eq_true_2. }
  split_and!.
  - done.
  - by rewrite Hentry.
  - unfold useSSEConnection, property_get. by rewrite Hentry.
  - intros other Hplain Hnone'. cbn. rewrite lookup_insert_eq.
    unfold property_get. rewrite Hnone'. by rewrite bool_decide_eq_false_2.
  - intros id Hne. cbn. by rewrite lookup_insert_ne.
  - done.
Qed.

(** The first event of a connection called "constructor" on a new store,
    next to the first event of a connection called "a". *)
Lemma pushEvent_inherited_key_witness :
  let s := subscribe 1%nat (new_Store 500) in
  let msg := ev "constructor" "message" 7 in
  connections (state (pushEvent msg s).1) !! "constructor" = Some (Headless msg)
  ∧ connections (state (pushEvent (ev "a" "message" 7) s).1) !! "a"
    = Some (Typed {| SSEConnectionState.id := "a";
                     SSEConnectionState.url := "";
                     SSEConnectionState.status := open;
                     SSEConnectionState.lastEvent := Some (ev "a" "message" 7);
                     SSEConnectionState.error := None |})
  ∧ log (pushEvent msg s).1 = [msg]
  ∧ (pushEvent msg s).2 = [1%nat].
Proof.
  intros s msg.
  assert (Hproto : connectionId msg ∈ Object_prototype)
    by (by apply (bool_decide_eq_true_1 (_ ∈ _))).
  assert (Hnone : connections (state s) !! connectionId msg = None) by reflexivity.
  destruct (pushEvent_inherited_key msg s Hproto Hnone)
    as (Hentry & _ & _ & Hother & _ & Hcalled).
  split_and!; [exact Hentry | | reflexivity | exact Hcalled].
  apply (Hother (ev "a" "message" 7)); [| reflexivity].
  by apply (bool_decide_eq_false_1 (_ ∈ _)).
Defined.

(** ** The per-tab identifier *)

Lemma truthy_Some (v : string) : truthy (Some v) = true ↔ v ≠ "".
Proof.
  cbn. case_bool_decide; split; intros; done.
Qed.

Lemma truthy_empty : truthy (Some "") = false.
Proof. cbn. by rewrite bool_decide_eq_true_2. Qed.

Lemma truthy_default (o : option string) :
  truthy o = true → o = Some (default "" o) ∧ default "" o ≠ "".
Proof.
  destruct o as [v |]; [| done]. intros Hv. split; [done |].
  by apply truthy_Some.
Qed.

Lemma getClientUid_cached (r : Realm) :
  truthy (cachedUid r) = true → getClientUid r = (default "" (cachedUid r), r).
Proof. intros Hc. unfold getClientUid. by rewrite Hc. Qed.

Lemma getClientUid_no_window (r : Realm) :
  window r = None → (getClientUid r).2 = r.
Proof.
  intros Hw. unfold getClientUid. rewrite Hw. by destruct (truthy (cachedUid r)).
Qed.

(** Without a cached identifier, a call in a browser leaves a trace: it
    draws a fresh identifier or caches the stored one. *)
Lemma getClientUid_initialises (r : Realm) :
  truthy (cachedUid r) = false → window r ≠ None → (getClientUid r).2 ≠ r.
Proof.
  intros Hc Hw. unfold getClientUid, getClientUid_catch, generateUid.
  rewrite Hc. destruct (window r) as [w |] eqn:Ew; [| done].
  destruct (sessionStorage w) as [ss |].
  - destruct (truthy (items ss !! UID_STORAGE_KEY)) eqn:Hitem.
    + apply truthy_default in Hitem as [_ Hne].
      apply truthy_Some in Hne as Hne'. rewrite Hne'. cbn [negb].
      intros Heq. apply (f_equal cachedUid) in Heq. cbn in Heq.
      rewrite <- Heq in Hc. by rewrite Hne' in Hc.
    + rewrite truthy_empty. cbn [negb]. destruct (setItem_throws ss); cbn;
        intros Heq; apply (f_equal drawn) in Heq; cbn in Heq; lia.
  - cbn. intros Heq; apply (f_equal drawn) in Heq; cbn in Heq; lia.
Qed.

(** Once an identifier was returned, later calls return it again and
    change nothing. *)
Lemma getClientUid_stable (r : Realm) :
  (getClientUid r).1 ≠ "" →
  getClientUid (getClientUid r).2 = getClientUid r.
Proof.
  unfold getClientUid at 1 3 4, getClientUid_catch, generateUid.
  destruct (truthy (cachedUid r)) eqn:Hc.
  - intros _. cbn. by apply getClientUid_cached.
  - destruct (window r) as [w |] eqn:Ew; [| done].
    assert (Hcache : ∀ u r', u ≠ "" → cachedUid r' = Some u →
                             getClientUid r' = (u, r')).
    { intros u r' Hu Hr'. rewrite getClientUid_cached; rewrite Hr'; [done |].
      by apply truthy_Some. }
    destruct (sessionStorage w) as [ss |].
    + destruct (truthy (items ss !! UID_STORAGE_KEY)) eqn:Hitem.
      * apply truthy_default in Hitem as [_ Hne].
        apply truthy_Some in Hne as Hne'. rewrite Hne'. cbn [negb fst snd].
        intros _. by apply Hcache.
      * rewrite truthy_empty. cbn [negb].
        destruct (setItem_throws ss); cbn; intros Hu; by apply Hcache.
    + cbn. intros Hu. by apply Hcache.
Qed.

(** C9, as the code has it. [isClientUid] answers true exactly for a
    non-empty candidate equal to the identifier that [getClientUid]
    returns at that moment. An absent or empty candidate is answered
    false without touching the identifier state. For a non-empty
    candidate the state afterwards is the one [getClientUid] leaves:
    unchanged once an identifier is cached and where there is no window,
    and changed (the identifier is created or read from storage, and
    cached) on a call in a browser before that. *)
Theorem isClientUid_spec (candidate : option string) (r : Realm) :
  ((isClientUid candidate r).1 = true
   ↔ truthy candidate = true ∧ candidate = Some (getClientUid r).1)
  ∧ (truthy candidate = false → isClientUid candidate r = (false, r))
  ∧ (truthy candidate = true → (isClientUid candidate r).2 = (getClientUid r).2)
  ∧ (truthy (cachedUid r) = true ∨ window r = None → (isClientUid candidate r).2 = r)
  ∧ (truthy candidate = true → truthy (cachedUid r) = false → window r ≠ None →
     (isClientUid candidate r).2 ≠ r).
Proof.
  assert (Hstate : truthy candidate = true →
                   (isClientUid candidate r).2 = (getClientUid r).2).
  { intros Hc. unfold isClientUid. rewrite Hc. cbn [negb].
    by destruct (getClientUid r). }
  split_and!.
  - unfold isClientUid. destruct (truthy candidate) eqn:Hc; cbn [negb].
    + destruct (getClientUid r) as [own r'] eqn:Eg. cbn [fst].
      apply truthy_default in Hc as [Hsome _].
      rewrite bool_decide_eq_true. split.
      * intros <-. done.
      * intros [_ Heq]. rewrite Heq. done.
    + split; [done | intros [? _]; done].
  - intros Hc. unfold isClientUid. by rewrite Hc.
  - done.
  - intros Hquiet. destruct (truthy candidate) eqn:Hc.
    + rewrite Hstate by done. destruct Hquiet as [Hcached | Hw].
      * by rewrite getClientUid_cached.
      * by apply getClientUid_no_window.
    + unfold isClientUid. by rewrite Hc.
  - intros Hc Hcached Hw. rewrite Hstate by done.
    by apply getClientUid_initialises.
Qed.

(** In a tab whose identifier "tab-A" is cached, asking about "tab-A"
    and about another string. *)
Lemma isClientUid_spec_witness :
  let r := (getClientUid fresh_tab).2 in
  cachedUid r = Some "tab-A"
  ∧ isClientUid (Some "tab-A") r = (true, r)
  ∧ (isClientUid (Some "tab-B") r).2 = r
  ∧ isClientUid (Some "") fresh_tab = (false, fresh_tab)
  ∧ (isClientUid (Some "tab-B") fresh_tab).2 ≠ fresh_tab.
Proof.
  intros r.
  destruct (isClientUid_spec (Some "tab-B") r) as (_ & _ & _ & Hquiet & _).
  destruct (isClientUid_spec (Some "") fresh_tab) as (_ & Hempty & _).
  destruct (isClientUid_spec (Some "tab-B") fresh_tab) as (_ & _ & _ & _ & Hinit).
  split_and!.
  - reflexivity.
  - reflexivity.
  - apply Hquiet. left. reflexivity.
  - apply Hempty. reflexivity.
  - apply Hinit; [reflexivity | reflexivity | discriminate].
Defined.

(** The claim's "no side effects on the identity state" fails on the
    first question asked in a fresh tab: the call creates the
    identifier, writes it to session storage and caches it. *)
Lemma isClientUid_creates_identity :
  (isClientUid (Some "tab-B") fresh_tab).1 = false
  ∧ (isClientUid (Some "tab-B") fresh_tab).2 ≠ fresh_tab
  ∧ cachedUid fresh_tab = None
  ∧ cachedUid (isClientUid (Some "tab-B") fresh_tab).2 = Some "tab-A"
  ∧ (sessionStorage <$> window (isClientUid (Some "tab-B") fresh_tab).2)
    = Some (Some {| items := {[UID_STORAGE_KEY := "tab-A"]};
                    setItem_throws := false |}).
Proof.
  split_and!; try reflexivity.
  intros Heq. apply (f_equal cachedUid) in Heq. discriminate Heq.
Qed.

(** ** [buildUrl] *)

(** The fallback path appends the identity parameter and then the
    credential parameter, joined to the base by '?' when it has no query
    yet, by nothing when it ends in '?' or '&', and by '&' otherwise. *)
Lemma buildUrl_fallback_order (encodeURIComponent : string → string)
  (uid token tokenQueryParam urlStr : string) :
  uid ≠ "" → token ≠ "" →
  buildUrl_fallback encodeURIComponent uid token tokenQueryParam urlStr
  = urlStr
    +:+ (if negb (includes "?"%char urlStr) then "?"
         else if endsWith "?"%char urlStr || endsWith "&"%char urlStr then ""
         else "&")
    +:+ ("uid=" +:+ encodeURIComponent uid +:+ "&"
         +:+ (encodeURIComponent (credential_key tokenQueryParam)
              +:+ "=" +:+ encodeURIComponent token)).
Proof.
  intros Hu Ht. unfold buildUrl_fallback.
  apply truthy_Some in Hu, Ht. rewrite Hu, Ht. cbn [app join].
  destruct (includes "?" urlStr); cbn [negb]; [| done].
  by destruct (endsWith "?" urlStr || endsWith "&" urlStr).
Qed.

Lemma param_index_app_absent (name : string) (l k : list (string * string)) :
  name ∉ l.*1 →
  param_index name (l ++ k) = (λ j, (length l + j)%nat) <$> param_index name k.
Proof.
  induction l as [| [a v] l IH]; intros Hnotin.
  - cbn. by destruct (param_index name k).
  - cbn in Hnotin. apply not_elem_of_cons in Hnotin as [Hne Hrest].
    cbn. rewrite bool_decide_eq_false_2 by congruence.
    rewrite IH by done. by destruct (param_index name k).
Qed.

Lemma param_index_lt (name : string) (l : list (string * string)) (i : nat) :
  param_index name l = Some i → (i < length l)%nat.
Proof.
  revert i. induction l as [| [a v] l IH]; intros i; [done |].
  cbn. case_bool_decide.
  - intros [= <-]. lia.
  - destruct (param_index name l) as [j |]; [| done].
    intros [= <-]. specialize (IH j eq_refl). lia.
Qed.

Lemma param_index_app_present (name : string) (l k : list (string * string)) (i : nat) :
  param_index name l = Some i → param_index name (l ++ k) = Some i.
Proof.
  revert i. induction l as [| [a v] l IH]; intros i; [done |].
  cbn. case_bool_decide; [done |].
  destruct (param_index name l) as [j |]; [| done].
  intros [= <-]. by rewrite (IH j).
Qed.

Lemma set_first_names (name value : string) (l : list (string * string)) (other : string) :
  other ≠ name → other ∉ l.*1 → other ∉ (set_first name value l).*1.
Proof.
  intros Hne. induction l as [| [a v] l IH]; [done |].
  cbn. intros Hnotin. apply not_elem_of_cons in Hnotin as [Ha Hrest].
  case_bool_decide.
  - cbn. apply not_elem_of_cons. split; [done |].
    intros Hin. apply Hrest.
    apply list_elem_of_fmap in Hin as (p & -> & Hp).
    apply list_elem_of_filter in Hp as [_ Hp].
    apply list_elem_of_fmap. eauto.
  - cbn. apply not_elem_of_cons. split; [done | by apply IH].
Qed.

Lemma set_first_index (name value : string) (l : list (string * string)) :
  name ∈ l.*1 → is_Some (param_index name (set_first name value l)).
Proof.
  induction l as [| [a v] l IH]; cbn.
  - intros Hin. by apply elem_of_nil in Hin.
  - intros Hin. case_bool_decide as Ha.
    + cbn. rewrite bool_decide_eq_true_2 by done. eauto.
    + apply elem_of_cons in Hin as [-> | Hin]; [done |].
      cbn. rewrite bool_decide_eq_false_2 by done.
      destruct (IH Hin) as [j ->]. eauto.
Qed.

(** On the [URL] path the order is right whenever the base URL has no
    parameter called like the credential parameter. *)
Lemma buildUrl_params_order (uid token tokenQueryParam : string) (u : URL) :
  uid ≠ "" → token ≠ "" →
  credential_key tokenQueryParam ≠ "uid" →
  credential_key tokenQueryParam ∉ (searchParams u).*1 →
  uid_before (credential_key tokenQueryParam)
             (searchParams (buildUrl_params uid token tokenQueryParam u)) = true.
Proof.
  intros Hu Ht Hkey Hnotin. unfold buildUrl_params.
  apply truthy_Some in Hu, Ht. rewrite Hu, Ht. cbn [searchParams with_searchParams].
  set (key := credential_key tokenQueryParam) in *.
  unfold URLSearchParams_set at 1.
  set (l1 := URLSearchParams_set "uid" uid (searchParams u)).
  assert (Hfresh : key ∉ l1.*1).
  { subst l1. unfold URLSearchParams_set. case_bool_decide.
    - by apply set_first_names.
    - rewrite fmap_app. cbn. rewrite elem_of_app, list_elem_of_singleton.
      intros [? | ?]; done. }
  assert (Huid : is_Some (param_index "uid" l1)).
  { subst l1. unfold URLSearchParams_set. case_bool_decide as Hin.
    - by apply set_first_index.
    - rewrite param_index_app_absent by done. cbn.
      rewrite bool_decide_eq_true_2 by done. eauto. }
  rewrite bool_decide_eq_false_2 by done.
  destruct Huid as [i Hi]. unfold uid_before.
  rewrite (param_index_app_present _ _ _ _ Hi).
  rewrite param_index_app_absent by done. cbn.
  rewrite bool_decide_eq_true_2 by done. cbn.
  apply bool_decide_eq_true_2. apply param_index_lt in Hi. lia.
Qed.

Lemma buildUrl_params_location (uid token tokenQueryParam : string) (u : URL) :
  location (buildUrl_params uid token tokenQueryParam u) = location u
  ∧ hash (buildUrl_params uid token tokenQueryParam u) = hash u.
Proof.
  unfold buildUrl_params.
  by destruct (truthy (Some uid)), (truthy (Some token)).
Qed.

(** C6, as the code has it, for a non-empty identity and a non-empty
    credential. When [new URL] throws, the result is the base URL, a
    joint, the identity parameter, '&' and the credential parameter; the
    joint is '?' when the base has no '?', nothing when the base ends in
    '?' or '&', and '&' otherwise. When [new URL] succeeds, the result
    is the serialized URL with the same location and fragment, and in
    its parameters the identity comes before the credential provided the
    base URL had no parameter called like the credential parameter (a
    name other than "uid"). *)
Theorem buildUrl_identity_first
  (URL_new : string → string → option URL)
  (urlencode encodeURIComponent : string → string)
  (urlStr token : string) (tokenQueryParam : option string) (r : Realm) :
  (getClientUid r).1 ≠ "" → token ≠ "" →
  let uid := (getClientUid r).1 in
  let r' := (getClientUid r).2 in
  let key := credential_key (default "authToken" tokenQueryParam) in
  let built := buildUrl URL_new urlencode encodeURIComponent urlStr token
                        tokenQueryParam r in
  built.2 = r'
  ∧ match URL_new urlStr (match window r' with Some w => origin w | None => "" end) with
    | None =>
      built.1
      = urlStr
        +:+ (if negb (includes "?"%char urlStr) then "?"
             else if endsWith "?"%char urlStr || endsWith "&"%char urlStr then ""
             else "&")
        +:+ ("uid=" +:+ encodeURIComponent uid +:+ "&"
             +:+ (encodeURIComponent key +:+ "=" +:+ encodeURIComponent token))
    | Some u =>
      ∃ u', built.1 = URL_toString urlencode u'
            ∧ location u' = location u ∧ hash u' = hash u
            ∧ (key ≠ "uid" → key ∉ (searchParams u).*1 →
               uid_before key (searchParams u') = true)
    end.
Proof.
  intros Hu Ht uid r' key built. subst uid r' key built. unfold buildUrl.
  destruct (getClientUid r) as [uid r'] eqn:Eg. cbn [fst snd] in *.
  destruct (URL_new urlStr _) as [u |].
  - split; [done |]. eexists. split; [done |].
    destruct (buildUrl_params_location uid token (default "authToken" tokenQueryParam) u)
      as [Hloc Hhash].
    split_and!; [done | done |].
    intros Hkey Hnotin. by apply buildUrl_params_order.
  - split; [done |]. cbn [fst]. by apply buildUrl_fallback_order.
Qed.

(** A base URL with an unrelated query on the [URL] path, and the same
    base on a platform where [new URL] throws. *)
Lemma buildUrl_identity_first_witness :
  (plain_buildUrl "https://x.example/sse?room=7" "T1" None known_tab).1
  = "https://x.example/sse?room=7&uid=tab-A&authToken=T1"
  ∧ (buildUrl throwing_URL_new plain_encode plain_encode
              "https://x.example/sse?room=7" "T1" (Some "key") known_tab).1
    = "https://x.example/sse?room=7&uid=tab-A&key=T1".
Proof.
  assert (Hu : (getClientUid known_tab).1 ≠ "") by discriminate.
  assert (Ht : "T1" ≠ "") by discriminate.
  split.
  - destruct (buildUrl_identity_first plain_URL_new plain_encode plain_encode
                "https://x.example/sse?room=7" "T1" None known_tab Hu Ht)
      as [_ (u' & Hbuilt & _ & _ & Horder)].
    reflexivity.
  - destruct (buildUrl_identity_first throwing_URL_new plain_encode plain_encode
                "https://x.example/sse?room=7" "T1" (Some "key") known_tab Hu Ht)
      as [_ Hbuilt].
    exact Hbuilt.
Defined.

(** C6 as stated fails in two places. On the [URL] path, a base URL that
    already carries a parameter called like the credential parameter
    gets the credential first: [set("uid", ...)] appends the identity
    after it and [set("authToken", ...)] then overwrites the old value in
    place. On the fallback path, a base URL with a query that ends in
    '&' (or a base that ends in '?') is joined with nothing, not with
    '&'. *)
Lemma buildUrl_order_and_joint_fail :
  plain_buildUrl "https://x.example/sse?authToken=stale" "T1" None known_tab
  = ("https://x.example/sse?authToken=T1&uid=tab-A", known_tab)
  ∧ (searchParams <$> plain_URL_new "https://x.example/sse?authToken=stale"
                                     "https://app.example")
    = Some [("authToken", "stale")]
  ∧ uid_before "authToken" [("authToken", "T1"); ("uid", "tab-A")] = false
  ∧ buildUrl throwing_URL_new plain_encode plain_encode
             "https://x.example/sse?room=7&" "T1" None known_tab
    = ("https://x.example/sse?room=7&uid=tab-A&authToken=T1", known_tab)
  ∧ buildUrl throwing_URL_new plain_encode plain_encode
             "https://x.example/sse?" "T1" None known_tab
    = ("https://x.example/sse?uid=tab-A&authToken=T1", known_tab).
Proof. split_and!; reflexivity. Qed.

(** The fallback path on the same input keeps the promised order. *)
Lemma buildUrl_fallback_same_input :
  buildUrl throwing_URL_new plain_encode plain_encode
           "https://x.example/sse?authToken=stale" "T1" None known_tab
  = ("https://x.example/sse?authToken=stale&uid=tab-A&authToken=T1", known_tab).
Proof. reflexivity. Qed.

(** A base URL without query, and one with an unrelated query. *)
Lemma buildUrl_examples :
  (plain_buildUrl "https://x.example/sse" "T1" None known_tab).1
  = "https://x.example/sse?uid=tab-A&authToken=T1"
  ∧ (plain_buildUrl "https://x.example/sse?room=7" "T1" (Some "key") known_tab).1
    = "https://x.example/sse?room=7&uid=tab-A&key=T1"
  ∧ (plain_buildUrl "/sse?room=7" "T1" None known_tab).1
    = "https://app.example/sse?room=7&uid=tab-A&authToken=T1".
Proof. split_and!; reflexivity. Qed.

(** ** [connect] *)

(** The second guard of [connect]: when a transport is tracked under
    [cfg.id], the call returns the manager as it was, so no connection
    state is recorded, no listener is notified, no token loader is
    started and no transport is opened. *)
Lemma connect_registered_noop (cfg : ConnectionConfig.t) (m : Manager) :
  is_Some (sources m !! ConnectionConfig.id cfg) →
  connect cfg m = m
  ∧ store (connect cfg m) = store m
  ∧ sources (connect cfg m) = sources m
  ∧ transports (connect cfg m) = transports m
  ∧ pending (connect cfg m) = pending m
  ∧ trace (connect cfg m) = trace m.
Proof.
  intros Hreg.
  assert (Hnoop : connect cfg m = m).
  { unfold connect. destruct (window (realm m)) as [w |]; [| done].
    destruct (hasEventSource w); cbn [negb]; [| done].
    by rewrite bool_decide_eq_true_2. }
  by rewrite Hnoop.
Qed.

(** Connect, let the token arrive, and connect again. *)
Lemma connect_registered_noop_sample :
  let m := run plain_URL_new plain_encode plain_encode
               [DoConnect sample_cfg; TokenSettled 0 (inr "T1")]
               sample_manager in
  sources m !! "a" = Some 0%nat
  ∧ es_url <$> transports m !! 0%nat
    = Some "https://x.example/sse?uid=tab-A&authToken=T1"
  ∧ connect sample_cfg m = m.
Proof.
  intros m.
  assert (Hreg : is_Some (sources m !! ConnectionConfig.id sample_cfg))
    by (exists 0%nat; reflexivity).
  split_and!; [reflexivity | reflexivity |].
  exact (proj1 (connect_registered_noop sample_cfg m Hreg)).
Defined.

(** C7. The claim fails in the code while the first call's token is
    still being loaded. The guard, commented "already
    connected/connecting", looks at the tracked transports, and a
    transport is tracked only once the token has arrived. After a first
    [connect] the connection is recorded as [connecting] and nothing is
    tracked; a second [connect] with the same id then is no no-op: it
    records the [connecting] state again, notifies the store's listener
    again and starts a second token load. When both tokens have arrived
    two transports are open and only the second is tracked, so that
    [disconnect] closes the second and leaves the first open. *)
Theorem connect_while_token_pending :
  let m1 := connect sample_cfg sample_manager in
  let m2 := connect sample_cfg m1 in
  let m3 := run plain_URL_new plain_encode plain_encode
                [TokenSettled 0 (inr "T1"); TokenSettled 0 (inr "T2")] m2 in
  let m4 := disconnect "a" m3 in
  connections (state (store m1)) !! "a"
  = Some (Typed (connection "a" "https://x.example/sse" connecting None))
  ∧ sources m1 = ∅
  ∧ pending m1 = [sample_cfg]
  ∧ m2 ≠ m1
  ∧ trace m2 = trace m1 ++ [Notified 1%nat; TokenLoaderCalled "a"]
  ∧ pending m2 = [sample_cfg; sample_cfg]
  ∧ es_url <$> transports m3
    = ["https://x.example/sse?uid=tab-A&authToken=T1";
       "https://x.example/sse?uid=tab-A&authToken=T2"]
  ∧ es_closed <$> transports m3 = [false; false]
  ∧ sources m3 = {[ "a" := 1%nat ]}
  ∧ es_closed <$> transports m4 = [false; true]
  ∧ sources m4 = ∅.
Proof.
  intros m1 m2 m3 m4. split_and!; try reflexivity.
  intros Heq. apply (f_equal pending) in Heq. discriminate Heq.
Qed.

(** ** A token loader that fails *)

(** C8. When the token loader of a pending [connect] rejects with [e],
    the entry of the connection becomes [{id, url, status: error,
    error: "token: " + String(e)}], the store's listeners are notified,
    the host's [onError] is called with the id and [e] when the host
    supplied one, and the attempt is over: the task is gone, no
    [EventSource] is constructed, and the tracked transports, the other
    connections' entries and the log are as before. *)
Theorem token_rejected_no_transport
  (URL_new : string → string → option URL)
  (urlencode encodeURIComponent : string → string)
  (task : nat) (cfg : ConnectionConfig.t) (e : JsValue) (m : Manager) :
  pending m !! task = Some cfg →
  let m' := step URL_new urlencode encodeURIComponent (TokenSettled task (inl e)) m in
  connections (state (store m')) !! ConnectionConfig.id cfg
  = Some (Typed {| SSEConnectionState.id := ConnectionConfig.id cfg;
                   SSEConnectionState.url := ConnectionConfig.url cfg;
                   SSEConnectionState.status := error;
                   SSEConnectionState.lastEvent := None;
                   SSEConnectionState.error := Some ("token: " +:+ String_ e) |})
  ∧ (∀ id, id ≠ ConnectionConfig.id cfg →
           connections (state (store m')) !! id = connections (state (store m)) !! id)
  ∧ log (store m') = log (store m)
  ∧ trace m'
    = trace m ++ map Notified (listeners (store m))
      ++ match callbacks m with
         | Some cb => if onError cb then [HostOnError (ConnectionConfig.id cfg) e] else []
         | None => []
         end
  ∧ sources m' = sources m
  ∧ transports m' = transports m
  ∧ pending m' = delete task (pending m)
  ∧ realm m' = realm m.
Proof.
  intros Htask m'. subst m'. cbn [step]. rewrite Htask.
  cbn [token_settled]. unfold token_rejected, call_host, on_store.
  cbn -[String_ append].
  split_and!.
  - destruct (callbacks m) as [cb |]; [destruct (onError cb) |];
      cbn -[String_ append]; by rewrite lookup_insert_eq.
  - intros id Hne.
    destruct (callbacks m) as [cb |]; [destruct (onError cb) |];
      cbn -[String_ append]; by rewrite lookup_insert_ne.
  - by destruct (callbacks m) as [cb |]; [destruct (onError cb) |].
  - destruct (callbacks m) as [cb |]; [destruct (onError cb) |];
      cbn -[String_ append]; by rewrite ?app_assoc, ?app_nil_r.
  - by destruct (callbacks m) as [cb |]; [destruct (onError cb) |].
  - by destruct (callbacks m) as [cb |]; [destruct (onError cb) |].
  - by destruct (callbacks m) as [cb |]; [destruct (onError cb) |].
  - by destruct (callbacks m) as [cb |]; [destruct (onError cb) |].
Qed.

(** The loader of connection "a" rejects with [new Error("expired")]. *)
Lemma token_rejected_no_transport_witness :
  let m := connect sample_cfg sample_manager in
  let m' := step plain_URL_new plain_encode plain_encode
                 (TokenSettled 0 (inl (VError "Error" "expired"))) m in
  pending m !! 0%nat = Some sample_cfg
  ∧ connections (state (store m')) !! "a"
    = Some (Typed (connection "a" "https://x.example/sse" error
                              (Some "token: Error: expired")))
  ∧ trace m' = [Notified 1%nat; TokenLoaderCalled "a"; Notified 1%nat;
                HostOnError "a" (VError "Error" "expired")]
  ∧ sources m' = ∅ ∧ transports m' = [] ∧ pending m' = [].
Proof.
  intros m m'.
  assert (Htask : pending m !! 0%nat = Some sample_cfg) by reflexivity.
  destruct (token_rejected_no_transport plain_URL_new plain_encode plain_encode
              0 sample_cfg (VError "Error" "expired") m Htask)
    as (Hentry & _ & _ & Htrace & Hsrc & Hts & Hpend & _).
  split_and!; [done | | exact Htrace | exact Hsrc | exact Hts | exact Hpend].
  exact Hentry.
Defined.

(** ** The filtered event list *)

Lemma filter_filter_andb {A : Type} (p q : A → bool) (l : list A) :
  List.filter q (List.filter p l) = List.filter (λ x, p x && q x) l.
Proof.
  induction l as [| x l IH]; [done |].
  cbn. destruct (p x); cbn; [destruct (q x) |]; by rewrite IH.
Qed.

Lemma filter_guarded {A : Type} (g : bool) (p : A → bool) (l : list A) :
  (if g then List.filter p l else l)
  = List.filter (λ x, if g then p x else true) l.
Proof.
  destruct g; [done |].
  induction l as [| x l IH]; [done |]. cbn. by rewrite <- IH.
Qed.

Lemma filter_sublist {A : Type} (p : A → bool) (l : list A) :
  sublist (List.filter p l) l.
Proof.
  induction l as [| x l IH]; cbn; [constructor |].
  destruct (p x); by constructor.
Qed.

Lemma useSSEEvents_compute_as_filter (fns : nat → SSEMessage → bool)
  (f : EventsFilter) (evs : list SSEMessage) :
  useSSEEvents_compute fns f evs = List.filter (satisfies_effective fns f) evs.
Proof.
  unfold useSSEEvents_compute.
  assert (Hsince : match sinceTs f with
                   | Some ts => if bool_decide (ts ≠ 0)
                                then List.filter (λ e, timestamp e >=? ts) evs
                                else evs
                   | None => evs
                   end
                   = List.filter (λ e, match sinceTs f with
                                       | Some ts => if bool_decide (ts ≠ 0)
                                                    then timestamp e >=? ts else true
                                       | None => true
                                       end) evs).
  { destruct (sinceTs f) as [ts |].
    - apply (filter_guarded (bool_decide (ts ≠ 0))).
    - apply (filter_guarded false (λ _, true)). }
  rewrite Hsince. rewrite !filter_guarded.
  assert (Hpred : ∀ l, match predicate f with
                       | Some p => List.filter (fns p) l
                       | None => l
                       end
                       = List.filter (λ e, match predicate f with
                                           | Some p => fns p e
                                           | None => true
                                           end) l).
  { intros l. destruct (predicate f) as [p |].
    - induction l as [| x l IH]; [done |]. cbn. by rewrite <- IH.
    - apply (filter_guarded false (λ _, true)). }
  rewrite Hpred. rewrite !filter_filter_andb.
  apply List.filter_ext. intros e. unfold satisfies_effective.
  by rewrite !andb_assoc.
Qed.

Lemma all_effective_agree (fns : nat → SSEMessage → bool)
  (f : EventsFilter) (e : SSEMessage) :
  all_effective f → satisfies_effective fns f e = satisfies_supplied fns f e.
Proof.
  intros (Hsince & Hids & Htypes). unfold satisfies_effective, satisfies_supplied.
  assert (Hs : match sinceTs f with
               | Some ts => if bool_decide (ts ≠ 0) then timestamp e >=? ts else true
               | None => true
               end
               = match sinceTs f with
                 | Some ts => timestamp e >=? ts
                 | None => true
                 end).
  { destruct (sinceTs f) as [ts |]; [| done].
    rewrite bool_decide_eq_true_2; [done | congruence]. }
  rewrite Hs.
  destruct (connectionIds f) as [[| id ids] |]; [done | |];
    destruct (types f) as [[| t ts] |]; done.
Qed.

(** The applied conditions, one by one. *)
Lemma satisfies_effective_spec (fns : nat → SSEMessage → bool)
  (f : EventsFilter) (e : SSEMessage) :
  satisfies_effective fns f e = true
  ↔ (∀ ts, sinceTs f = Some ts → ts ≠ 0 → ts ≤ timestamp e)
    ∧ (∀ ids, connectionIds f = Some ids → ids ≠ [] → connectionId e ∈ ids)
    ∧ (∀ tys, types f = Some tys → tys ≠ [] → type e ∈ tys)
    ∧ (∀ p, predicate f = Some p → fns p e = true).
Proof.
  unfold satisfies_effective, Set_has. rewrite !andb_true_iff.
  assert (Hsince : match sinceTs f with
                   | Some ts => if bool_decide (ts ≠ 0) then timestamp e >=? ts else true
                   | None => true
                   end = true
                   ↔ ∀ ts, sinceTs f = Some ts → ts ≠ 0 → ts ≤ timestamp e).
  { destruct (sinceTs f) as [ts |]; [| by split].
    case_bool_decide as Hts.
    - rewrite Z.geb_le. split; [by intros Hle ? [= <-] _ | intros Hle; by apply Hle].
    - split; [by intros _ ? [= <-] ? | done]. }
  assert (Hids : (if given_nonempty (connectionIds f)
                  then bool_decide (connectionId e ∈ default [] (connectionIds f))
                  else true) = true
                 ↔ ∀ ids, connectionIds f = Some ids → ids ≠ [] → connectionId e ∈ ids).
  { destruct (connectionIds f) as [[| id ids] |]; cbn [given_nonempty default].
    - split; [by intros _ ? [= <-] ? | done].
    - rewrite bool_decide_eq_true.
      split; [by intros Hin ? [= <-] _ | intros Hin; by apply Hin].
    - by split. }
  assert (Htys : (if given_nonempty (types f)
                  then bool_decide (type e ∈ default [] (types f))
                  else true) = true
                 ↔ ∀ tys, types f = Some tys → tys ≠ [] → type e ∈ tys).
  { destruct (types f) as [[| t tys] |]; cbn [given_nonempty default].
    - split; [by intros _ ? [= <-] ? | done].
    - rewrite bool_decide_eq_true.
      split; [by intros Hin ? [= <-] _ | intros Hin; by apply Hin].
    - by split. }
  assert (Hpred : match predicate f with
                  | Some p => fns p e
                  | None => true
                  end = true
                  ↔ ∀ p, predicate f = Some p → fns p e = true).
  { destruct (predicate f) as [p |]; [| by split].
    split; [by intros Hp ? [= <-] | intros Hp; by apply Hp]. }
  rewrite Hsince, Hids, Htys, Hpred. tauto.
Qed.

(** ** The latest matching event *)

Lemma matches_Matching (connectionId_arg : OneOrMany) (type_arg : option OneOrMany)
  (e : SSEMessage) :
  matches (as_array connectionId_arg) (as_array <$> type_arg) e = true
  ↔ Matching connectionId_arg type_arg e.
Proof.
  unfold matches, Matching, Set_has. rewrite andb_true_iff, bool_decide_eq_true.
  destruct type_arg as [t |]; cbn; [by rewrite bool_decide_eq_true | tauto].
Qed.

Lemma not_matches_Matching (connectionId_arg : OneOrMany) (type_arg : option OneOrMany)
  (e : SSEMessage) :
  matches (as_array connectionId_arg) (as_array <$> type_arg) e = false
  ↔ ¬ Matching connectionId_arg type_arg e.
Proof. rewrite <- matches_Matching. by destruct (matches _ _ e). Qed.

(** One round of either loop after the timestamp test. *)
Lemma scan_back_cons (idSet : list string) (typeSet : option (list string))
  (e : SSEMessage) (older : list SSEMessage) :
  scan_back idSet typeSet (e :: older)
  = if matches idSet typeSet e then Some e else scan_back idSet typeSet older.
Proof.
  cbn [scan_back]. unfold matches.
  destruct (Set_has idSet (connectionId e)); cbn; [| done].
  destruct typeSet as [ts |]; [| done]. by destruct (Set_has ts (type e)).
Qed.

Lemma scan_back_since_cons (since : Z) (idSet : list string)
  (typeSet : option (list string)) (e : SSEMessage) (older : list SSEMessage) :
  scan_back_since since idSet typeSet (e :: older)
  = if timestamp e <? since then None
    else if matches idSet typeSet e then Some e
    else scan_back_since since idSet typeSet older.
Proof.
  cbn [scan_back_since]. unfold matches.
  destruct (timestamp e <? since); [done |].
  destruct (Set_has idSet (connectionId e)); cbn; [| done].
  destruct typeSet as [ts |]; [| done]. by destruct (Set_has ts (type e)).
Qed.

(** A list cut at its first element with a property. *)
Lemma first_cut_unique {A : Type} (P : A → Prop) (l1 l2 k1 k2 : list A) (x y : A) :
  l1 ++ x :: l2 = k1 ++ y :: k2 →
  P x → P y → (∀ z, z ∈ l1 → ¬ P z) → (∀ z, z ∈ k1 → ¬ P z) →
  l1 = k1 ∧ x = y ∧ l2 = k2.
Proof.
  revert k1. induction l1 as [| a l1 IH]; intros [| b k1] Heq Hx Hy Hl Hk.
  - by injection Heq as -> ->.
  - injection Heq as -> _. destruct (Hk b); [left | done].
  - injection Heq as -> _. destruct (Hl y); [left | done].
  - injection Heq as -> Heq.
    destruct (IH k1 Heq Hx Hy) as (-> & -> & ->); [| | done].
    + intros z Hz. apply Hl. by right.
    + intros z Hz. apply Hk. by right.
Qed.

Lemma scan_back_Some (idSet : list string) (typeSet : option (list string))
  (l : list SSEMessage) (e : SSEMessage) :
  scan_back idSet typeSet l = Some e
  ↔ ∃ newer older, l = newer ++ e :: older
                   ∧ matches idSet typeSet e = true
                   ∧ ∀ x, x ∈ newer → matches idSet typeSet x = false.
Proof.
  induction l as [| a l IH].
  - split; [done |]. intros ([| ? ?] & older & Heq & _); done.
  - rewrite scan_back_cons. destruct (matches idSet typeSet a) eqn:Ha.
    + split.
      * intros [= <-]. exists [], l. split_and!; [done | done |].
        intros x Hx. by apply elem_of_nil in Hx.
      * intros ([| b newer] & older & Heq & He & Hnewer).
        -- by injection Heq as ->.
        -- injection Heq as <- _. rewrite Hnewer in Ha; [done | left].
    + rewrite IH. split.
      * intros (newer & older & -> & He & Hnewer).
        exists (a :: newer), older. split_and!; [done | done |].
        intros x [-> | Hx]%elem_of_cons; [done | by apply Hnewer].
      * intros ([| b newer] & older & Heq & He & Hnewer).
        -- injection Heq as -> _. congruence.
        -- injection Heq as <- ->. exists newer, older. split_and!; [done | done |].
           intros x Hx. apply Hnewer. by right.
Qed.

Lemma scan_back_None (idSet : list string) (typeSet : option (list string))
  (l : list SSEMessage) :
  scan_back idSet typeSet l = None
  ↔ ∀ x, x ∈ l → matches idSet typeSet x = false.
Proof.
  induction l as [| a l IH].
  - split; [| done]. intros _ x Hx. by apply elem_of_nil in Hx.
  - rewrite scan_back_cons. destruct (matches idSet typeSet a) eqn:Ha.
    + split; [done |]. intros Hall. rewrite Hall in Ha; [done | left].
    + rewrite IH. split.
      * intros Hall x [-> | Hx]%elem_of_cons; [done | by apply Hall].
      * intros Hall x Hx. apply Hall. by right.
Qed.

(** Splitting the log and splitting its reversal. *)
Lemma reverse_split {A : Type} (l newer older : list A) (e : A) :
  reverse l = newer ++ e :: older ↔ l = reverse older ++ e :: reverse newer.
Proof.
  split.
  - intros Heq. apply (f_equal reverse) in Heq.
    rewrite reverse_involutive in Heq. rewrite Heq.
    by rewrite reverse_app, reverse_cons, <- app_assoc.
  - intros ->. by rewrite reverse_app, reverse_cons, !reverse_involutive, <- app_assoc.
Qed.

(** C3. [useSSEEvent] returns the event appended last among those whose
    connection id is requested and whose type is requested (every type
    when the type argument is omitted): it returns [e] exactly when the
    log is [older ++ e :: newer] with [e] matching and nothing in [newer]
    matching. It returns nothing exactly when no event of the log
    matches, and so on the empty log. *)
Theorem useSSEEvent_latest (connectionId_arg : OneOrMany)
  (type_arg : option OneOrMany) (s : InternalState) :
  (∀ e, useSSEEvent connectionId_arg type_arg s = Some e
        ↔ ∃ older newer,
            events s = older ++ e :: newer
            ∧ Matching connectionId_arg type_arg e
            ∧ ∀ x, x ∈ newer → ¬ Matching connectionId_arg type_arg x)
  ∧ (useSSEEvent connectionId_arg type_arg s = None
     ↔ ∀ x, x ∈ events s → ¬ Matching connectionId_arg type_arg x)
  ∧ (events s = [] → useSSEEvent connectionId_arg type_arg s = None).
Proof.
  assert (Hnone : useSSEEvent connectionId_arg type_arg s = None
                  ↔ ∀ x, x ∈ events s → ¬ Matching connectionId_arg type_arg x).
  { unfold useSSEEvent. rewrite scan_back_None. split.
    - intros Hall x Hx. apply not_matches_Matching, Hall. by apply elem_of_reverse.
    - intros Hall x Hx. apply not_matches_Matching, Hall. by apply elem_of_reverse. }
  split_and!; [| done |].
  - intros e. unfold useSSEEvent. rewrite scan_back_Some. split.
    + intros (newer & older & Heq & He & Hnewer).
      exists (reverse older), (reverse newer). split_and!.
      * by apply reverse_split.
      * by apply matches_Matching.
      * intros x Hx. apply not_matches_Matching, Hnewer. by apply elem_of_reverse.
    + intros (older & newer & Heq & He & Hnewer).
      exists (reverse newer), (reverse older). split_and!.
      * apply reverse_split. by rewrite !reverse_involutive.
      * by apply matches_Matching.
      * intros x Hx. apply not_matches_Matching, Hnewer. by apply elem_of_reverse.
  - intros Hempty. apply Hnone. rewrite Hempty. intros x Hx. by apply elem_of_nil in Hx.
Qed.

(** The log holds two events of "a" and a newer one of "b". *)
Lemma useSSEEvent_latest_witness :
  let s := state_of [ev "a" "message" 1; ev "a" "tick" 2; ev "b" "message" 3] in
  useSSEEvent (One "a") None s = Some (ev "a" "tick" 2)
  ∧ useSSEEvent (Many ["a"; "b"]) (Some (One "message")) s = Some (ev "b" "message" 3)
  ∧ useSSEEvent (One "c") None s = None
  ∧ useSSEEvent (One "a") None (state_of []) = None.
Proof.
  intros s. split_and!.
  - apply (useSSEEvent_latest (One "a") None s).
    exists [ev "a" "message" 1], [ev "b" "message" 3].
    split_and!; [reflexivity | split; [by apply list_elem_of_singleton | done] |].
    intros x Hx [Hid _]. apply list_elem_of_singleton in Hx as ->.
    cbn in Hid. apply list_elem_of_singleton in Hid. discriminate Hid.
  - reflexivity.
  - reflexivity.
  - by apply (useSSEEvent_latest (One "a") None (state_of [])).
Defined.

(** ** The latest matching event since the mount *)

Lemma scan_back_since_Some (since : Z) (idSet : list string)
  (typeSet : option (list string)) (l : list SSEMessage) (e : SSEMessage) :
  scan_back_since since idSet typeSet l = Some e
  ↔ ∃ newer older, l = newer ++ e :: older
                   ∧ matches idSet typeSet e = true
                   ∧ since ≤ timestamp e
                   ∧ ∀ x, x ∈ newer →
                          since ≤ timestamp x ∧ matches idSet typeSet x = false.
Proof.
  induction l as [| a l IH].
  - split; [done |]. intros ([| ? ?] & older & Heq & _); done.
  - rewrite scan_back_since_cons.
    destruct (Z.ltb_spec (timestamp a) since) as [Hold | Hnew].
    + split; [done |].
      intros ([| b newer] & older & Heq & He & Hts & Hnewer).
      * injection Heq as -> _. lia.
      * injection Heq as <- _. destruct (Hnewer a); [left | lia].
    + destruct (matches idSet typeSet a) eqn:Ha.
      * split.
        -- intros [= <-]. exists [], l. split_and!; [done | done | done |].
           intros x Hx. by apply elem_of_nil in Hx.
        -- intros ([| b newer] & older & Heq & He & Hts & Hnewer).
           ++ by injection Heq as ->.
           ++ injection Heq as <- _. destruct (Hnewer a); [left | congruence].
      * rewrite IH. split.
        -- intros (newer & older & -> & He & Hts & Hnewer).
           exists (a :: newer), older. split_and!; [done | done | done |].
           intros x [-> | Hx]%elem_of_cons; [done | by apply Hnewer].
        -- intros ([| b newer] & older & Heq & He & Hts & Hnewer).
           ++ injection Heq as -> _. congruence.
           ++ injection Heq as <- ->. exists newer, older.
              split_and!; [done | done | done |].
              intros x Hx. apply Hnewer. by right.
Qed.

(** The scan ends at the first event older than [since] it reaches. *)
Lemma scan_back_since_stops (since : Z) (idSet : list string)
  (typeSet : option (list string)) (newer older : list SSEMessage) (e : SSEMessage) :
  timestamp e < since →
  (∀ x, x ∈ newer → matches idSet typeSet x = false) →
  scan_back_since since idSet typeSet (newer ++ e :: older) = None.
Proof.
  intros Hold. induction newer as [| a newer IH]; intros Hnewer.
  - cbn [app]. rewrite scan_back_since_cons.
    by destruct (Z.ltb_spec (timestamp e) since); [| lia].
  - cbn [app]. rewrite scan_back_since_cons.
    destruct (timestamp a <? since); [done |].
    rewrite (Hnewer a) by left. apply IH. intros x Hx. apply Hnewer. by right.
Qed.

(** C4. The selector of [useLiveSSEEvent] for the mount instant [since]
    never returns an event with a timestamp below [since]: what it
    returns is in the log, matches, and is not older than [since]. It
    returns [e] exactly when the log is [older ++ e :: newer] with [e]
    matching and not older than [since], and everything in [newer] not
    older than [since] and not matching. As soon as the scan, going from
    the newest event back, reaches an event older than [since] it gives
    up and returns nothing, whatever matching events lie further back. *)
Theorem useLiveSSEEvent_never_before_mount (since : Z)
  (connectionId_arg : OneOrMany) (type_arg : option OneOrMany)
  (s : InternalState) :
  (∀ e, useLiveSSEEvent_selector since connectionId_arg type_arg s = Some e →
        since ≤ timestamp e ∧ e ∈ events s ∧ Matching connectionId_arg type_arg e)
  ∧ (∀ e, useLiveSSEEvent_selector since connectionId_arg type_arg s = Some e
          ↔ ∃ older newer,
              events s = older ++ e :: newer
              ∧ Matching connectionId_arg type_arg e
              ∧ since ≤ timestamp e
              ∧ ∀ x, x ∈ newer →
                     since ≤ timestamp x ∧ ¬ Matching connectionId_arg type_arg x)
  ∧ (∀ older e newer,
       events s = older ++ e :: newer →
       timestamp e < since →
       (∀ x, x ∈ newer → ¬ Matching connectionId_arg type_arg x) →
       useLiveSSEEvent_selector since connectionId_arg type_arg s = None).
Proof.
  assert (Hiff : ∀ e,
    useLiveSSEEvent_selector since connectionId_arg type_arg s = Some e
    ↔ ∃ older newer,
        events s = older ++ e :: newer
        ∧ Matching connectionId_arg type_arg e
        ∧ since ≤ timestamp e
        ∧ ∀ x, x ∈ newer →
               since ≤ timestamp x ∧ ¬ Matching connectionId_arg type_arg x).
  { intros e. unfold useLiveSSEEvent_selector. rewrite scan_back_since_Some. split.
    - intros (newer & older & Heq & He & Hts & Hnewer).
      exists (reverse older), (reverse newer). split_and!.
      + by apply reverse_split.
      + by apply matches_Matching.
      + done.
      + intros x Hx. rewrite elem_of_reverse in Hx. destruct (Hnewer x Hx).
        split; [done | by apply not_matches_Matching].
    - intros (older & newer & Heq & He & Hts & Hnewer).
      exists (reverse newer), (reverse older). split_and!.
      + apply reverse_split. by rewrite !reverse_involutive.
      + by apply matches_Matching.
      + done.
      + intros x Hx. rewrite elem_of_reverse in Hx. destruct (Hnewer x Hx).
        split; [done | by apply not_matches_Matching]. }
  split_and!; [| done |].
  - intros e (older & newer & Heq & He & Hts & _)%Hiff.
    split_and!; [done | | done].
    rewrite Heq. apply elem_of_app. right. left.
  - intros older e newer Heq Hold Hnewer. unfold useLiveSSEEvent_selector.
    rewrite Heq, reverse_app, reverse_cons, <- app_assoc. cbn [app].
    apply scan_back_since_stops; [done |].
    intros x Hx. rewrite elem_of_reverse in Hx. by apply not_matches_Matching, Hnewer.
Qed.

(** The hook mounts at instant 10. An event of "a" from instant 5 is in
    the log: it is not returned, neither alone nor once a later event of
    another connection has arrived; a later event of "a" is. *)
Lemma useLiveSSEEvent_never_before_mount_witness :
  let replayed := ev "a" "message" 5 in
  let other := ev "b" "message" 12 in
  let fresh := ev "a" "message" 15 in
  useLiveSSEEvent_selector 10 (One "a") None (state_of [replayed]) = None
  ∧ useLiveSSEEvent_selector 10 (One "a") None (state_of [replayed; other]) = None
  ∧ useSSEEvent (One "a") None (state_of [replayed; other]) = Some replayed
  ∧ useLiveSSEEvent_selector 10 (One "a") None (state_of [replayed; other; fresh])
    = Some fresh
  ∧ (useLiveSSEEvent 10 0 (One "a") None (state_of [replayed])).2 = 10.
Proof.
  intros replayed other fresh.
  destruct (useLiveSSEEvent_never_before_mount 10 (One "a") None
              (state_of [replayed; other])) as (_ & _ & Hstop).
  split_and!; [reflexivity | | reflexivity | reflexivity | reflexivity].
  apply (Hstop [] replayed [other]); [reflexivity | cbn; lia |].
  intros x Hx [Hid _]. apply list_elem_of_singleton in Hx as ->.
  cbn in Hid. apply list_elem_of_singleton in Hid. discriminate Hid.
Defined.

(** ** Snapshots stay valid *)

Lemma lookup_app_at {A : Type} (h k : list A) (i : nat) :
  (h ++ k) !! (length h + i)%nat = k !! i.
Proof. rewrite lookup_app_r by lia. f_equal. lia. Qed.

Lemma read_connections_app (h k : Heap) (l : loc) m :
  read_connections h l = Some m → read_connections (h ++ k) l = Some m.
Proof.
  unfold read_connections. destruct (h !! l) as [o |] eqn:Hl; [| done].
  by rewrite (lookup_app_l_Some _ _ _ _ Hl).
Qed.

Lemma read_events_app (h k : Heap) (l : loc) arr :
  read_events h l = Some arr → read_events (h ++ k) l = Some arr.
Proof.
  unfold read_events. destruct (h !! l) as [o |] eqn:Hl; [| done].
  by rewrite (lookup_app_l_Some _ _ _ _ Hl).
Qed.

(** A heap that only grew shows every old snapshot as it was. *)
Lemma snapshot_app (h k : Heap) (p : loc) (snap : InternalState) :
  snapshot h p = Some snap → snapshot (h ++ k) p = Some snap.
Proof.
  unfold snapshot. destruct (h !! p) as [o |] eqn:Hp; [| done].
  rewrite (lookup_app_l_Some _ _ _ _ Hp). destruct o as [lc le | | |]; try done.
  destruct (read_connections h lc) as [m |] eqn:Hm; [| done].
  destruct (read_events h le) as [arr |] eqn:Harr; [| done].
  rewrite (read_connections_app _ k _ _ Hm), (read_events_app _ k _ _ Harr). done.
Qed.

Lemma snapshot_inv (h : Heap) (p : loc) (st : InternalState) :
  snapshot h p = Some st →
  ∃ lc le, h !! p = Some (ObjState lc le)
           ∧ read_connections h lc = Some (connections st)
           ∧ read_events h le = Some (events st).
Proof.
  unfold snapshot. destruct (h !! p) as [[lc le | | |] |]; try done.
  destruct (read_connections h lc) as [m |] eqn:Hm; [| done].
  destruct (read_events h le) as [arr |] eqn:Harr; [| done].
  cbn. intros [= <-]. by exists lc, le.
Qed.

(** The in-place [splice] hits the array that [pushEvent] has just
    built, which is the last object of the heap. *)
Lemma heap_splice0_fresh (h : Heap) (arr : list SSEMessage) (k : Z) :
  heap_splice0 (length h) k (h ++ [ObjEvents arr])
  = h ++ [ObjEvents (splice0 k arr)].
Proof.
  unfold heap_splice0.
  rewrite list_lookup_middle by done.
  rewrite insert_app_r_alt by lia.
  by replace (length h - length h)%nat with 0%nat by lia.
Qed.

Lemma heap_setConnection_grows (connect : SSEConnectionState.t)
  (s : StoreRef) (h : Heap) (st : InternalState) :
  snapshot h (ref_state s) = Some st →
  ∃ le, read_events h le = Some (events st)
  ∧ heap_setConnection connect (s, h)
    = Some ({| ref_maxEvents := ref_maxEvents s; ref_state := length h + 1 |},
            h ++ [ObjConnections (<[SSEConnectionState.id connect := Typed connect]>
                                    (connections st));
                  ObjState (length h) le]).
Proof.
  intros (lc & le & Hs & Hm & Harr)%snapshot_inv. exists le. split; [done |].
  unfold heap_setConnection. rewrite Hs, Hm. cbn.
  rewrite length_app. cbn. by rewrite <- app_assoc.
Qed.

Lemma heap_removeConnection_grows (id : string)
  (s : StoreRef) (h : Heap) (st : InternalState) :
  snapshot h (ref_state s) = Some st →
  ∃ le, read_events h le = Some (events st)
  ∧ heap_removeConnection id (s, h)
    = Some ({| ref_maxEvents := ref_maxEvents s; ref_state := length h + 1 |},
            h ++ [ObjConnections (delete id (connections st));
                  ObjState (length h) le]).
Proof.
  intros (lc & le & Hs & Hm & Harr)%snapshot_inv. exists le. split; [done |].
  unfold heap_removeConnection. rewrite Hs, Hm. cbn.
  rewrite length_app. cbn. by rewrite <- app_assoc.
Qed.

Lemma heap_pushEvent_grows (msg : SSEMessage)
  (s : StoreRef) (h : Heap) (st : InternalState) (ls : list Listener) :
  snapshot h (ref_state s) = Some st →
  let st' := state (pushEvent msg {| maxEvents := ref_maxEvents s; state := st;
                                     listeners := ls |}).1 in
  heap_pushEvent msg (s, h)
  = Some ({| ref_maxEvents := ref_maxEvents s; ref_state := length h + 2 |},
          h ++ [ObjEvents (events st'); ObjConnections (connections st');
                ObjState (length h + 1) (length h)]).
Proof.
  intros (lc & le & Hs & Hm & Harr)%snapshot_inv st'. subst st'.
  unfold heap_pushEvent. rewrite Hs, Harr. cbn -[heap_splice0 splice0].
  assert (Hnew : read_events (h ++ [ObjEvents (events st ++ [msg])]) (length h)
                 = Some (events st ++ [msg])).
  { unfold read_events. by rewrite list_lookup_middle. }
  rewrite Hnew. cbn -[heap_splice0 splice0].
  set (arr1 := if Z.of_nat (length (events st ++ [msg])) >? ref_maxEvents s
               then splice0 (Z.of_nat (length (events st ++ [msg])) - ref_maxEvents s)
                            (events st ++ [msg])
               else events st ++ [msg]).
  assert (Hh2 : (if Z.of_nat (length (events st ++ [msg])) >? ref_maxEvents s
                 then heap_splice0 (length h)
                        (Z.of_nat (length (events st ++ [msg])) - ref_maxEvents s)
                        (h ++ [ObjEvents (events st ++ [msg])])
                 else h ++ [ObjEvents (events st ++ [msg])])
                = h ++ [ObjEvents arr1]).
  { subst arr1. destruct (_ >? _); [apply heap_splice0_fresh | done]. }
  rewrite Hh2. rewrite (read_connections_app _ _ _ _ Hm).
  cbn -[splice0]. rewrite !length_app. cbn -[splice0].
  rewrite <- !app_assoc. cbn -[splice0].
  by replace (length h + 1 + 1)%nat with (length h + 2)%nat by lia.
Qed.

(** C10. Take a store whose state reference shows the state [st], any
    earlier state reference [p] with what it shows, and any of the three
    mutators. The mutator succeeds; no object that was in the heap is
    written (the only write in place, the [splice] of [pushEvent], goes
    to the array built in that same call); so [p] shows after the
    mutation what it showed before, connection map and event sequence
    alike. The store's new state is an object built by the call, and it
    shows the state that the mutator computes. *)
Theorem mutation_keeps_snapshots (mu : Mutation) (s : StoreRef) (h : Heap)
  (st : InternalState) (ls : list Listener) :
  snapshot h (ref_state s) = Some st →
  ∃ s' h',
    heap_mutate mu (s, h) = Some (s', h')
    ∧ (∀ l o, h !! l = Some o → h' !! l = Some o)
    ∧ (∀ p snap, snapshot h p = Some snap → snapshot h' p = Some snap)
    ∧ (length h ≤ ref_state s')%nat
    ∧ ref_maxEvents s' = ref_maxEvents s
    ∧ snapshot h' (ref_state s')
      = Some (state (mutate mu {| maxEvents := ref_maxEvents s; state := st;
                                  listeners := ls |})).
Proof.
  intros Hst.
  assert (Hgrow : ∀ k s', heap_mutate mu (s, h) = Some (s', h ++ k) →
            (∀ l o, h !! l = Some o → (h ++ k) !! l = Some o)
            ∧ (∀ p snap, snapshot h p = Some snap → snapshot (h ++ k) p = Some snap)).
  { intros k s' _. split.
    - intros l o Hl. by apply lookup_app_l_Some.
    - intros p snap Hp. by apply snapshot_app. }
  destruct mu as [connect | id | msg]; cbn [heap_mutate mutate].
  - destruct (heap_setConnection_grows connect s h st Hst) as (le & Harr & Hres).
    eexists _, _. split; [exact Hres |].
    destruct (Hgrow _ _ Hres) as [Hcells Hsnaps].
    split_and!; [done | done | cbn; lia | done |].
    unfold snapshot. cbn [ref_state].
    rewrite lookup_app_at. cbn.
    unfold read_connections. rewrite list_lookup_middle by done.
    by rewrite (read_events_app _ _ _ _ Harr).
  - destruct (heap_removeConnection_grows id s h st Hst) as (le & Harr & Hres).
    eexists _, _. split; [exact Hres |].
    destruct (Hgrow _ _ Hres) as [Hcells Hsnaps].
    split_and!; [done | done | cbn; lia | done |].
    unfold snapshot. cbn [ref_state].
    rewrite lookup_app_at. cbn.
    unfold read_connections. rewrite list_lookup_middle by done.
    by rewrite (read_events_app _ _ _ _ Harr).
  - assert (Hres := heap_pushEvent_grows msg s h st ls Hst). cbn zeta in Hres.
    eexists _, _. split; [exact Hres |].
    destruct (Hgrow _ _ Hres) as [Hcells Hsnaps].
    split_and!; [done | done | cbn; lia | done |].
    unfold snapshot. cbn [ref_state].
    rewrite lookup_app_at. cbn -[pushEvent].
    unfold read_connections, read_events.
    rewrite lookup_app_at. cbn -[pushEvent].
    rewrite list_lookup_middle by done. cbn -[pushEvent].
    by destruct (state (pushEvent msg _).1).
Qed.

(** A snapshot of the fresh store, kept across the first [pushEvent]. *)
Lemma mutation_keeps_snapshots_witness :
  let s := sample_heap_store.1 in
  let h := sample_heap_store.2 in
  let E1 := ev "a" "message" 1 in
  snapshot h (ref_state s) = Some (state_of [])
  ∧ ∃ s' h', heap_mutate (MPushEvent E1) (s, h) = Some (s', h')
             ∧ snapshot h' (ref_state s) = Some (state_of [])
             ∧ events <$> snapshot h' (ref_state s') = Some [E1].
Proof.
  intros s h E1.
  assert (Hst : snapshot h (ref_state s) = Some (state_of [])) by reflexivity.
  destruct (mutation_keeps_snapshots (MPushEvent E1) s h (state_of []) [] Hst)
    as (s' & h' & Hres & _ & Hsnaps & _ & _ & Hnew).
  split; [exact Hst |].
  exists s', h'. split_and!; [exact Hres | by apply Hsnaps |].
  rewrite Hnew. reflexivity.
Defined.

(** Capacity 1 and two events: the second [pushEvent] evicts the first
    event by a [splice] in place, and still the state held after the
    first push shows the first event, while the current state shows
    the second. *)
Lemma snapshot_survives_eviction :
  let E1 := ev "a" "message" 1 in
  let E2 := ev "a" "message" 2 in
  ∃ p2 p1 p0 s h,
    heap_mutations [MPushEvent E1; MPushEvent E2]
                   [ref_state sample_heap_store.1] sample_heap_store
    = Some ([p2; p1; p0], (s, h))
    ∧ events <$> snapshot h p0 = Some []
    ∧ events <$> snapshot h p1 = Some [E1]
    ∧ events <$> snapshot h p2 = Some [E2]
    ∧ ref_state s = p2.
Proof. intros E1 E2. eexists _, _, _, _, _. split_and!; reflexivity. Qed.

(** ** The filtered event list across renders *)

(** Each mutator on the heap appends objects and leaves the new state
    where the same mutator on the store's value puts it. *)
Lemma heap_mutate_simulates (mu : Mutation) (s : StoreRef) (h : Heap) (st : Store) :
  snapshot h (ref_state s) = Some (state st) →
  ref_maxEvents s = maxEvents st →
  ∃ s' k,
    heap_mutate mu (s, h) = Some (s', h ++ k)
    ∧ ref_maxEvents s' = maxEvents (mutate mu st)
    ∧ snapshot (h ++ k) (ref_state s') = Some (state (mutate mu st)).
Proof.
  intros Hst Hcap.
  assert (Hsame : {| maxEvents := ref_maxEvents s; state := state st;
                     listeners := listeners st |} = st).
  { rewrite Hcap. by destruct st. }
  destruct mu as [connect | id | msg]; cbn [heap_mutate mutate].
  - destruct (heap_setConnection_grows connect s h (state st) Hst)
      as (le & Harr & Hres).
    eexists _, _. split; [exact Hres |]. split; [done |].
    unfold snapshot. cbn [ref_state].
    rewrite lookup_app_at. cbn.
    unfold read_connections. rewrite list_lookup_middle by done.
    by rewrite (read_events_app _ _ _ _ Harr).
  - destruct (heap_removeConnection_grows id s h (state st) Hst)
      as (le & Harr & Hres).
    eexists _, _. split; [exact Hres |]. split; [done |].
    unfold snapshot. cbn [ref_state].
    rewrite lookup_app_at. cbn.
    unfold read_connections. rewrite list_lookup_middle by done.
    by rewrite (read_events_app _ _ _ _ Harr).
  - assert (Hres := heap_pushEvent_grows msg s h (state st) (listeners st) Hst).
    cbn zeta in Hres. rewrite Hsame in Hres.
    eexists _, _. split; [exact Hres |]. split; [done |].
    unfold snapshot. cbn [ref_state].
    rewrite lookup_app_at. cbn -[pushEvent].
    unfold read_connections, read_events.
    rewrite lookup_app_at. cbn -[pushEvent].
    rewrite list_lookup_middle by done. cbn -[pushEvent].
    by destruct (state (pushEvent msg _).1).
Qed.

Lemma memo_of_app (fns : nat → SSEMessage → bool) (h k : Heap)
  (fs : list EventsFilter) (cell : MemoCell) :
  memo_of fns h fs cell → memo_of fns (h ++ k) fs cell.
Proof.
  destruct cell as [| | deps value]; [done | done |].
  intros (f0 & evs0 & Hf0 & Hdeps & Hread & Hvalue).
  exists f0, evs0. split_and!; [done | done | | done].
  by apply read_events_app.
Qed.

(** Filters that agree on the threshold, the two lists and the
    predicate apply the same conditions. *)
Lemma satisfies_effective_same (fns : nat → SSEMessage → bool)
  (f f' : EventsFilter) (e : SSEMessage) :
  sinceTs f = sinceTs f' →
  default [] (connectionIds f) = default [] (connectionIds f') →
  default [] (types f) = default [] (types f') →
  predicate f = predicate f' →
  satisfies_effective fns f e = satisfies_effective fns f' e.
Proof.
  unfold satisfies_effective. intros -> Hids Htys ->.
  assert (Hgiven : ∀ xs xs' : option (list string),
            default [] xs = default [] xs' → given_nonempty xs = given_nonempty xs').
  { intros [[| x xs] |] [[| x' xs'] |]; cbn; done. }
  by rewrite (Hgiven _ _ Hids), (Hgiven _ _ Htys), Hids, Htys.
Qed.

(** One render with a filter, from a memo cell that holds what
    [memo_of] says: the result is the filtered list of the log as it is
    at this render, and the cell afterwards is again as [memo_of] says. *)
Lemma useSSEEvents_render (fns : nat → SSEMessage → bool)
  (fs : list EventsFilter) (f : EventsFilter) (p : loc) (h : Heap)
  (st : InternalState) (cell : MemoCell) :
  (∀ f1 f2, f1 ∈ fs → f2 ∈ fs → keys_tell_apart f1 f2) →
  f ∈ fs →
  snapshot h p = Some st →
  memo_of fns h fs cell →
  ∃ cell', useSSEEvents fns (Some f) p h cell
           = Some (List.filter (satisfies_effective fns f) (events st), cell')
           ∧ memo_of fns h fs cell'.
Proof.
  intros Hkeys Hf (lc & le & Hp & _ & Hread)%snapshot_inv Hcell.
  unfold useSSEEvents. rewrite Hp, Hread. cbn [mbind option_bind].
  rewrite useSSEEvents_compute_as_filter.
  assert (Hfresh : memo_of fns h fs
            (Memoized (deps_of f le)
                      (List.filter (satisfies_effective fns f) (events st)))).
  { exists f, (events st). by split_and!. }
  destruct cell as [| | deps value]; [by eexists | done |].
  destruct Hcell as (f0 & evs0 & Hf0 & Hdeps & Hread0 & Hvalue).
  case_decide as Heq; [| by eexists].
  assert (Hsame : value = List.filter (satisfies_effective fns f) (events st)).
  { rewrite Hdeps in Heq. injection Heq as Hle Hsince Hids Htys Hpred.
    rewrite <- Hle in Hread0. rewrite Hread in Hread0. injection Hread0 as <-.
    destruct (Hkeys f f0 Hf Hf0) as [Hids' Htys'].
    rewrite Hvalue. apply List.filter_ext. intros e. symmetry.
    apply satisfies_effective_same; auto. }
  exists (Memoized deps value). split; [by rewrite Hsame | by exists f0, evs0].
Qed.

Lemma mutate_maxEvents (mu : Mutation) (s : Store) :
  maxEvents (mutate mu s) = maxEvents s.
Proof. by destruct mu. Qed.

(** A component that always passes a filter, with filters whose keys
    tell their lists apart: every render returns the filtered list of
    the log as it is at that render. *)
Lemma component_filtered (fns : nat → SSEMessage → bool) (fs : list EventsFilter)
  (acts : list Act) :
  (∀ f1 f2, f1 ∈ fs → f2 ∈ fs → keys_tell_apart f1 f2) →
  ∀ (s : StoreRef) (h : Heap) (st : Store) (cell : MemoCell),
    snapshot h (ref_state s) = Some (state st) →
    ref_maxEvents s = maxEvents st →
    memo_of fns h fs cell →
    Render None ∉ acts →
    (∀ f, f ∈ filters_of acts → f ∈ fs) →
    component fns acts (s, h) cell = Some (map (filtered fns) (rendered acts st)).
Proof.
  intros Hkeys.
  induction acts as [| [mu | [f |]] acts IH]; intros s h st cell Hst Hcap Hcell Hsome Hfs.
  - done.
  - cbn [component rendered].
    destruct (heap_mutate_simulates mu s h st Hst Hcap) as (s' & k & -> & Hcap' & Hst').
    cbn [mbind option_bind].
    apply IH; [done | done | by apply memo_of_app | |].
    + intros Hin. apply Hsome. by right.
    + done.
  - cbn [component rendered map fst snd].
    destruct (useSSEEvents_render fns fs f (ref_state s) h (state st) cell)
      as (cell' & -> & Hcell'); [done | apply Hfs; left | done | done |].
    cbn [mbind option_bind].
    rewrite (IH s h st cell'); [done | done | done | done | |].
    + intros Hin. apply Hsome. by right.
    + intros f' Hf'. apply Hfs. by right.
  - destruct Hsome. left.
Qed.

Lemma rendered_filters (acts : list Act) (s : Store) :
  Render None ∉ acts →
  Forall (λ asked, ∃ f, asked.1 = Some f) (rendered acts s).
Proof.
  revert s. induction acts as [| [mu | [f |]] acts IH]; intros s Hsome;
    cbn [rendered].
  - constructor.
  - apply IH. intros Hin. apply Hsome. by right.
  - constructor; [by exists f |]. apply IH. intros Hin. apply Hsome. by right.
  - destruct Hsome. left.
Qed.

(** C2, as the code has it. Take a component that calls the hook with
    a filter at every render, while the store is mutated between the
    renders, and let the join keys of the filters it passes tell their
    lists apart. Then every render returns the list of the events of the
    log as it is at that render, in the log's order, that satisfy all
    the conditions the code applies: timestamp >= sinceTs when sinceTs
    is given and not 0, connectionId among connectionIds when that list
    is given and not empty, type among types when that list is given and
    not empty, and the predicate when given. A threshold of 0 and an
    empty list count as not supplied. When no supplied condition is of
    that kind, the result is the subsequence satisfying all supplied
    conditions. *)
Theorem useSSEEvents_conjunctive (fns : nat → SSEMessage → bool)
  (acts : list Act) (C : Z) :
  Render None ∉ acts →
  (∀ f f', f ∈ filters_of acts → f' ∈ filters_of acts → keys_tell_apart f f') →
  ∃ outs,
    component fns acts (new_Store_on_heap C []) Unmounted = Some outs
    ∧ Forall2 (λ asked out,
        ∃ f, asked.1 = Some f
             ∧ out = List.filter (satisfies_effective fns f) asked.2
             ∧ sublist out asked.2
             ∧ (∀ e, e ∈ out
                     ↔ e ∈ asked.2
                       ∧ (∀ ts, sinceTs f = Some ts → ts ≠ 0 → ts ≤ timestamp e)
                       ∧ (∀ ids, connectionIds f = Some ids → ids ≠ [] →
                                 connectionId e ∈ ids)
                       ∧ (∀ tys, types f = Some tys → tys ≠ [] → type e ∈ tys)
                       ∧ (∀ p, predicate f = Some p → fns p e = true))
             ∧ (all_effective f → out = events_by_spec fns f asked.2))
      (rendered acts (new_Store C)) outs.
Proof.
  intros Hsome Hkeys. eexists. split.
  - by apply (component_filtered fns (filters_of acts) acts Hkeys
                _ _ (new_Store C) Unmounted).
  - assert (Hasked := rendered_filters acts (new_Store C) Hsome).
    induction Hasked as [| [filter evs] rest (f & Hf) _ IH]; cbn [map]; constructor;
      [| exact IH].
    cbn [fst snd] in *. subst filter. exists f. unfold filtered. cbn [fst snd].
    split_and!.
    + done.
    + done.
    + apply filter_sublist.
    + intros e. rewrite <- satisfies_effective_spec.
      rewrite !list_elem_of_In. apply filter_In.
    + intros Hall. unfold events_by_spec.
      apply List.filter_ext. intros e. by apply all_effective_agree.
Qed.

Ltac each_member H :=
  repeat (apply elem_of_cons in H as [H | H]; [subst |]);
  [.. | by apply elem_of_nil in H].

(** Events of connections "a" and "b" arrive while a component renders
    four times: twice with a filter for connection "a", type "message",
    from instant 2 on, once more with it after two more events, and
    then with a filter for connection "a" and a predicate. *)
Lemma useSSEEvents_conjunctive_witness :
  let f := {| connectionIds := Some ["a"]; types := Some ["message"];
              predicate := None; sinceTs := Some 2 |} in
  let g := {| connectionIds := Some ["a"]; types := None;
              predicate := Some 0%nat; sinceTs := None |} in
  let acts := [Mutate (MPushEvent (ev "a" "message" 1));
               Mutate (MPushEvent (ev "b" "message" 2));
               Render (Some f); Render (Some f);
               Mutate (MPushEvent (ev "a" "message" 3));
               Mutate (MPushEvent (ev "a" "tick" 4));
               Render (Some f); Render (Some g)] in
  (Render None ∉ acts)
  ∧ (∀ f1 f2, f1 ∈ filters_of acts → f2 ∈ filters_of acts → keys_tell_apart f1 f2)
  ∧ component sample_fns acts (new_Store_on_heap 10 []) Unmounted
    = Some [[]; []; [ev "a" "message" 3]; [ev "a" "tick" 4]]
  ∧ ∃ outs,
      component sample_fns acts (new_Store_on_heap 10 []) Unmounted = Some outs
      ∧ Forall2 (λ asked out,
          ∃ f, asked.1 = Some f
               ∧ out = List.filter (satisfies_effective sample_fns f) asked.2
               ∧ sublist out asked.2
               ∧ (∀ e, e ∈ out
                       ↔ e ∈ asked.2
                         ∧ (∀ ts, sinceTs f = Some ts → ts ≠ 0 → ts ≤ timestamp e)
                         ∧ (∀ ids, connectionIds f = Some ids → ids ≠ [] →
                                   connectionId e ∈ ids)
                         ∧ (∀ tys, types f = Some tys → tys ≠ [] → type e ∈ tys)
                         ∧ (∀ p, predicate f = Some p → sample_fns p e = true))
               ∧ (all_effective f → out = events_by_spec sample_fns f asked.2))
        (rendered acts (new_Store 10)) outs.
Proof.
  intros f g acts.
  assert (Hsome : Render None ∉ acts).
  { intros Hin. subst acts.
    repeat (apply elem_of_cons in Hin as [Hin | Hin]; [discriminate Hin |]).
    by apply elem_of_nil in Hin. }
  assert (Hkeys : ∀ f1 f2, f1 ∈ filters_of acts → f2 ∈ filters_of acts →
                           keys_tell_apart f1 f2).
  { intros f1 f2 H1 H2. subst acts. cbn [filters_of] in H1, H2.
    each_member H1; each_member H2; split; intros Hk;
      first [reflexivity | by vm_compute in Hk]. }
  split_and!; [exact Hsome | exact Hkeys | reflexivity |].
  exact (useSSEEvents_conjunctive sample_fns acts 10 Hsome Hkeys).
Defined.

(** C2 as stated fails in two ways. By design, a condition that is
    supplied but empty is skipped: with [connectionIds: []] no event has
    its id in the list, yet the hook returns every event. And by the
    memo's keys, the hook can return the list of an earlier filter: the
    lists ["a|b"] and ["a"; "b"] have the same key, so after a render
    with the first, a render with the second returns the first one's
    empty list although the log holds an event of connection "a". *)
Lemma useSSEEvents_empty_list_and_stale_memo :
  let e := ev "a" "message" 1 in
  let empty := {| connectionIds := Some []; types := None;
                  predicate := None; sinceTs := None |} in
  let barred := {| connectionIds := Some ["a|b"]; types := None;
                   predicate := None; sinceTs := None |} in
  let both := {| connectionIds := Some ["a"; "b"]; types := None;
                 predicate := None; sinceTs := None |} in
  component sample_fns [Mutate (MPushEvent e); Render (Some empty)]
            (new_Store_on_heap 10 []) Unmounted
  = Some [[e]]
  ∧ events_by_spec sample_fns empty [e] = []
  ∧ component sample_fns [Mutate (MPushEvent e); Render (Some barred);
                          Render (Some both)]
              (new_Store_on_heap 10 []) Unmounted
    = Some [[]; []]
  ∧ component sample_fns [Mutate (MPushEvent e); Render (Some both)]
              (new_Store_on_heap 10 []) Unmounted
    = Some [[e]]
  ∧ events_by_spec sample_fns both [e] = [e]
  ∧ joined_key (connectionIds barred) = joined_key (connectionIds both).
Proof. intros e empty barred both. split_and!; reflexivity. Qed.

(** * Further properties *)

(** ** The identifier across calls, reloads and failures *)

(** X1. Once [getClientUid] has returned an identifier, it keeps
    returning that identifier and changes nothing any more, however
    often it is called: nothing is generated and the storage is not
    touched again. *)
Theorem getClientUid_repeated (n : nat) (r : Realm) :
  (getClientUid r).1 ≠ "" →
  Nat.iter n (λ p, getClientUid p.2) (getClientUid r) = getClientUid r.
Proof.
  intros Hu. induction n as [| n IH]; [done |].
  rewrite Nat.iter_succ, IH. by apply getClientUid_stable.
Qed.

Lemma getClientUid_repeated_witness :
  Nat.iter 3 (λ p, getClientUid p.2) (getClientUid fresh_tab) = ("tab-A", known_tab).
Proof.
  assert (Hu : (getClientUid fresh_tab).1 ≠ "") by discriminate.
  exact (getClientUid_repeated 3 fresh_tab Hu).
Defined.

(** X2. An identifier obtained in a browser whose session storage works
    survives a reload of the page: a module that starts over (nothing
    cached, any source of fresh identifiers) in the same window reads it
    back from the storage, caches it, and generates nothing. *)
Theorem getClientUid_survives_reload (r : Realm) (w : Window) (ss : Storage)
  (entropy' : nat → string) (drawn' : nat) :
  window r = Some w →
  sessionStorage w = Some ss →
  setItem_throws ss = false →
  truthy (cachedUid r) = false →
  (getClientUid r).1 ≠ "" →
  getClientUid (reload (getClientUid r).2 entropy' drawn')
  = ((getClientUid r).1,
     set_cachedUid (getClientUid r).1 (reload (getClientUid r).2 entropy' drawn')).
Proof.
  intros Hw Hss Hthrows Hc.
  assert (Hread : ∀ (u : string) (r1 : Realm) (w1 : Window) (ss1 : Storage),
            u ≠ "" → window r1 = Some w1 → sessionStorage w1 = Some ss1 →
            items ss1 !! UID_STORAGE_KEY = Some u →
            getClientUid (reload r1 entropy' drawn')
            = (u, set_cachedUid u (reload r1 entropy' drawn'))).
  { intros u r1 w1 ss1 Hu Hw1 Hss1 Hitem. unfold getClientUid.
    cbn [reload cachedUid window]. change (truthy None) with false. cbn iota.
    rewrite Hw1, Hss1, Hitem.
    apply truthy_Some in Hu. rewrite Hu.
    change (default "" (Some u)) with u. by rewrite Hu. }
  destruct (truthy (items ss !! UID_STORAGE_KEY)) eqn:Hitem.
  - assert (Hg : getClientUid r
                 = (default "" (items ss !! UID_STORAGE_KEY),
                    set_cachedUid (default "" (items ss !! UID_STORAGE_KEY)) r)).
    { unfold getClientUid. rewrite Hc, Hw, Hss, Hitem.
      apply truthy_default in Hitem as [_ Hne].
      apply truthy_Some in Hne. by rewrite Hne. }
    rewrite Hg. cbn [fst snd]. intros _.
    apply truthy_default in Hitem as [Hsome Hne].
    by apply (Hread _ _ w ss).
  - assert (Hg : getClientUid r
                 = (entropy r (drawn r),
                    set_cachedUid (entropy r (drawn r))
                      (set_storage
                         {| items := <[UID_STORAGE_KEY := entropy r (drawn r)]> (items ss);
                            setItem_throws := setItem_throws ss |} w
                         (generateUid r).2))).
    { unfold getClientUid. rewrite Hc, Hw, Hss, Hitem, truthy_empty.
      cbn [negb]. unfold generateUid. by rewrite Hthrows. }
    rewrite Hg. cbn [fst snd]. intros Hu.
    eapply Hread; [done | reflexivity | reflexivity |].
    cbn. apply lookup_insert_eq.
Qed.

Lemma getClientUid_survives_reload_witness :
  getClientUid (reload (getClientUid fresh_tab).2 (λ _, "other") 7)
  = ("tab-A", set_cachedUid "tab-A" (reload (getClientUid fresh_tab).2 (λ _, "other") 7)).
Proof.
  apply (getClientUid_survives_reload fresh_tab sample_window
           {| items := ∅; setItem_throws := false |} (λ _, "other") 7%nat);
    [reflexivity | reflexivity | reflexivity | reflexivity | discriminate].
Defined.

(** X3. When session storage cannot be used (reaching it throws, or it
    holds no identifier and [setItem] throws), the identifier lives in
    memory only: the window and its storage are left as they were, the
    returned identifier is the one generated last and it is cached. When
    [setItem] was what threw, the identifier generated first is
    discarded and a second one is returned. *)
Theorem getClientUid_storage_unusable (r : Realm) (w : Window) :
  window r = Some w →
  truthy (cachedUid r) = false →
  (sessionStorage w = None
   ∨ ∃ ss, sessionStorage w = Some ss
           ∧ truthy (items ss !! UID_STORAGE_KEY) = false
           ∧ setItem_throws ss = true) →
  let u := (getClientUid r).1 in
  let r' := (getClientUid r).2 in
  window r' = window r
  ∧ cachedUid r' = Some u
  ∧ u = entropy r (drawn r' - 1)
  ∧ drawn r' = match sessionStorage w with
               | Some _ => (drawn r + 2)%nat
               | None => (drawn r + 1)%nat
               end.
Proof.
  intros Hw Hc Hbad. unfold getClientUid, getClientUid_catch, generateUid.
  rewrite Hc, Hw. destruct Hbad as [Hnone | (ss & Hss & Hitem & Hthrows)].
  - rewrite Hnone. cbn. split_and!; [done | done | f_equal; lia | lia].
  - rewrite Hss, Hitem, truthy_empty, Hthrows. cbn.
    split_and!; [done | done | f_equal; lia | lia].
Qed.

Lemma getClientUid_storage_unusable_witness :
  let w := {| sessionStorage := Some {| items := ∅; setItem_throws := true |};
              hasEventSource := true; origin := "https://app.example" |} in
  let r := {| window := Some w; cachedUid := None;
              entropy := sample_entropy; drawn := 0 |} in
  (getClientUid r).1 = "tab-B"
  ∧ window (getClientUid r).2 = Some w
  ∧ cachedUid (getClientUid r).2 = Some "tab-B".
Proof.
  intros w r.
  destruct (getClientUid_storage_unusable r w) as (Hwin & Hcache & Hu & _).
  - reflexivity.
  - reflexivity.
  - right. eexists. split_and!; reflexivity.
  - split_and!; [rewrite Hu; reflexivity | exact Hwin | rewrite Hcache; reflexivity].
Defined.

(** X4. On a server (no [window]) nothing is ever generated or cached:
    [getClientUid] returns the empty string and [isClientUid] is false
    for every candidate, both leaving the state as it was. *)
Theorem identity_on_server (candidate : option string) (r : Realm) :
  window r = None →
  truthy (cachedUid r) = false →
  getClientUid r = ("", r) ∧ isClientUid candidate r = (false, r).
Proof.
  intros Hw Hc.
  assert (Hget : getClientUid r = ("", r)).
  { unfold getClientUid. by rewrite Hc, Hw. }
  split; [done |]. unfold isClientUid. rewrite Hget.
  destruct (truthy candidate) eqn:Hcand; cbn [negb]; [| done].
  apply truthy_default in Hcand as [_ Hne].
  by rewrite bool_decide_eq_false_2.
Qed.

Lemma identity_on_server_witness :
  let r := {| window := None; cachedUid := None;
              entropy := sample_entropy; drawn := 0 |} in
  getClientUid r = ("", r) ∧ isClientUid (Some "tab-A") r = (false, r).
Proof.
  intros r. apply (identity_on_server (Some "tab-A") r); reflexivity.
Defined.

(** ** The store's connection entries and listeners *)

(** Reading a key of the connections object after a write, a removal,
    and when the key is an own property. *)
Lemma property_get_own (m : gmap string Stored) (k : string) (v : Stored) :
  m !! k = Some v → property_get m k = Some (Own v).
Proof. unfold property_get. by intros ->. Qed.

Lemma property_get_insert_eq (m : gmap string Stored) (k : string) (v : Stored) :
  property_get (<[k := v]> m) k = Some (Own v).
Proof. apply property_get_own, lookup_insert_eq. Qed.

Lemma property_get_insert_ne (m : gmap string Stored) (k k' : string) (v : Stored) :
  k' ≠ k → property_get (<[k := v]> m) k' = property_get m k'.
Proof. intros Hne. unfold property_get. by rewrite lookup_insert_ne. Qed.

Lemma property_get_absent (m : gmap string Stored) (k : string) :
  m !! k = None →
  property_get m k = if bool_decide (k ∈ Object_prototype)
                     then Some (Inherited k) else None.
Proof. unfold property_get. by intros ->. Qed.

Lemma property_get_delete_ne (m : gmap string Stored) (k k' : string) :
  k' ≠ k → property_get (delete k m) k' = property_get m k'.
Proof. intros Hne. unfold property_get. by rewrite lookup_delete_ne. Qed.

(** X5. [setConnection] replaces the entry of its id wholesale: reading
    the id back gives exactly the state passed in (a [lastEvent] or
    [error] of the old entry is gone), every other entry and the log are
    untouched, and every listener is called. A second [setConnection]
    for the same id wins over the first, and a [removeConnection] after
    it leaves the connections as a [removeConnection] alone would. *)
Theorem setConnection_roundtrip (c c2 : SSEConnectionState.t) (s : Store) :
  useSSEConnection (SSEConnectionState.id c) (getState (setConnection c s).1)
  = Some (Own (Typed c))
  ∧ (∀ id, id ≠ SSEConnectionState.id c →
       useSSEConnection id (getState (setConnection c s).1)
       = useSSEConnection id (getState s))
  ∧ log (setConnection c s).1 = log s
  ∧ (setConnection c s).2 = listeners s
  ∧ (SSEConnectionState.id c2 = SSEConnectionState.id c →
     state (setConnection c2 (setConnection c s).1).1 = state (setConnection c2 s).1)
  ∧ state (removeConnection (SSEConnectionState.id c) (setConnection c s).1).1
    = state (removeConnection (SSEConnectionState.id c) s).1.
Proof.
  unfold useSSEConnection, getState. cbn. split_and!.
  - apply property_get_insert_eq.
  - intros id Hne. by apply property_get_insert_ne.
  - done.
  - done.
  - intros ->. by rewrite insert_insert_eq.
  - by rewrite delete_insert_eq.
Qed.

Lemma setConnection_roundtrip_witness :
  let s := (pushEvent (ev "a" "message" 1) (new_Store 5)).1 in
  let c := connection "a" "https://x.example/sse" error (Some "SSE error") in
  let c2 := connection "a" "https://x.example/sse" open None in
  useSSEConnection "a" (getState s)
  = Some (Own (Typed {| SSEConnectionState.id := "a";
                        SSEConnectionState.url := "";
                        SSEConnectionState.status := open;
                        SSEConnectionState.lastEvent := Some (ev "a" "message" 1);
                        SSEConnectionState.error := None |}))
  ∧ useSSEConnection "a" (getState (setConnection c s).1) = Some (Own (Typed c))
  ∧ state (setConnection c2 (setConnection c s).1).1 = state (setConnection c2 s).1.
Proof.
  intros s c c2.
  destruct (setConnection_roundtrip c c2 s) as (Hread & _ & _ & _ & Hlast & _).
  split_and!; [reflexivity | exact Hread | by apply Hlast].
Defined.

(** X6. [removeConnection] removes the store's entry of the id and
    touches nothing else: the connections object afterwards has no
    property of its own under the id, so that reading the id gives
    [undefined], or the member of [Object.prototype] of that name when
    there is one; reading any other id gives what it gave before, the
    log is the same and every listener is called. For an id without an
    entry the state afterwards equals the state before, and still every
    listener is called. *)
Theorem removeConnection_lookup (id : string) (s : Store) :
  connections (getState (removeConnection id s).1) !! id = None
  ∧ useSSEConnection id (getState (removeConnection id s).1)
    = (if bool_decide (id ∈ Object_prototype) then Some (Inherited id) else None)
  ∧ (∀ id', id' ≠ id →
       connections (getState (removeConnection id s).1) !! id'
       = connections (getState s) !! id'
       ∧ useSSEConnection id' (getState (removeConnection id s).1)
         = useSSEConnection id' (getState s))
  ∧ log (removeConnection id s).1 = log s
  ∧ (removeConnection id s).2 = listeners s
  ∧ (connections (getState s) !! id = None →
     state (removeConnection id s).1 = state s).
Proof.
  unfold useSSEConnection, getState. cbn. split_and!.
  - apply lookup_delete_eq.
  - apply property_get_absent, lookup_delete_eq.
  - intros id' Hne. split; [by apply lookup_delete_ne |].
    by apply property_get_delete_ne.
  - done.
  - done.
  - intros Hnone. rewrite delete_id by done. by destruct (state s).
Qed.

Lemma removeConnection_lookup_witness :
  let s := subscribe 1%nat (new_Store 5) in
  state (removeConnection "ghost" s).1 = state s
  ∧ (removeConnection "ghost" s).2 = [1%nat]
  ∧ useSSEConnection "toString" (getState (removeConnection "toString" s).1)
    = Some (Inherited "toString").
Proof.
  intros s.
  destruct (removeConnection_lookup "ghost" s) as (_ & _ & _ & _ & Hcalled & Hsame).
  split_and!; [by apply Hsame | exact Hcalled |].
  exact (proj1 (proj2 (removeConnection_lookup "toString" s))).
Defined.

Lemma filter_absent (l : Listener) (ls : list Listener) :
  l ∉ ls → filter (λ l', l' ≠ l) ls = ls.
Proof.
  induction ls as [| x ls IH]; [done |].
  intros [Hne Hrest]%not_elem_of_cons.
  rewrite filter_cons_True by congruence. by rewrite IH.
Qed.

(** X7. The listeners form a set: subscribing a listener twice is
    subscribing it once, and unsubscribing a listener that was not
    subscribed before its [subscribe] gives back the store as it was. *)
Theorem subscribe_set_semantics (l : Listener) (s : Store) :
  subscribe l (subscribe l s) = subscribe l s
  ∧ l ∈ listeners (subscribe l s)
  ∧ (l ∉ listeners s → unsubscribe l (subscribe l s) = s)
  ∧ (l ∈ listeners s → subscribe l s = s).
Proof.
  split_and!.
  - unfold subscribe at 1. cbn [listeners maxEvents state].
    rewrite decide_True; [done |].
    cbn. case_decide; [done |]. apply elem_of_app. right. by left.
  - cbn. case_decide; [done |]. apply elem_of_app. right. by left.
  - intros Hnotin. unfold unsubscribe, subscribe. cbn.
    rewrite decide_False by done.
    rewrite filter_app, filter_absent by done.
    rewrite filter_cons_False by (intros Hne; by apply Hne).
    rewrite filter_nil, app_nil_r. by destruct s.
  - intros Hin. unfold subscribe. rewrite decide_True by done. by destruct s.
Qed.

Lemma subscribe_set_semantics_witness :
  let s := subscribe 1%nat (new_Store 5) in
  unsubscribe 2%nat (subscribe 2%nat s) = s ∧ subscribe 1%nat s = s.
Proof.
  intros s.
  destruct (subscribe_set_semantics 2%nat s) as (_ & _ & Hback & _).
  destruct (subscribe_set_semantics 1%nat s) as (_ & _ & _ & Hsame).
  split; [apply Hback | apply Hsame]; cbn.
  - intros Hin. apply list_elem_of_singleton in Hin. discriminate Hin.
  - by apply list_elem_of_singleton.
Defined.

Lemma call_listeners_other (l : Listener) (c : StoreCall) (s : Store) :
  c ≠ CallSubscribe l → l ∉ listeners s → l ∉ listeners (call c s).
Proof.
  intros Hc Hnotin. destruct c as [? | ? | ? | l' | l']; cbn; try done.
  - case_decide; [done |]. rewrite elem_of_app, list_elem_of_singleton.
    intros [? | ->]; [done | by apply Hc].
  - intros [_ Hin]%list_elem_of_filter. done.
Qed.

(** X8. A listener that unsubscribed is not called again, whatever the
    store is asked to do afterwards, until it subscribes again. *)
Theorem unsubscribed_not_called (l : Listener) (cs : list StoreCall)
  (mu : Mutation) (s : Store) :
  CallSubscribe l ∉ cs →
  let s' := calls cs (unsubscribe l s) in
  (l ∉ listeners s')
  ∧ times_called l (match mu with
                    | MSetConnection c => (setConnection c s').2
                    | MRemoveConnection id => (removeConnection id s').2
                    | MPushEvent msg => (pushEvent msg s').2
                    end) = 0%nat.
Proof.
  intros Hcs s'.
  assert (Hnotin : l ∉ listeners s').
  { subst s'. assert (H0 : l ∉ listeners (unsubscribe l s)).
    { cbn. intros [Hne _]%list_elem_of_filter. by apply Hne. }
    revert H0. generalize (unsubscribe l s). clear s.
    induction cs as [| c cs IH]; intros s H0; [done |].
    apply not_elem_of_cons in Hcs as [Hc Hcs].
    apply (IH Hcs). apply call_listeners_other; [congruence | done]. }
  split; [done |].
  destruct mu; by apply times_called_absent.
Qed.

Lemma unsubscribed_not_called_witness :
  let s := subscribe 2%nat (subscribe 1%nat (new_Store 5)) in
  let cs := [CallPushEvent (ev "a" "message" 1); CallSubscribe 3%nat] in
  (pushEvent (ev "a" "message" 2) (calls cs (unsubscribe 1%nat s))).2 = [2%nat; 3%nat]
  ∧ times_called 1%nat
      (pushEvent (ev "a" "message" 2) (calls cs (unsubscribe 1%nat s))).2 = 0%nat.
Proof.
  intros s cs. split; [reflexivity |].
  refine (proj2 (unsubscribed_not_called 1%nat cs (MPushEvent (ev "a" "message" 2)) s _)).
  subst cs. rewrite !not_elem_of_cons.
  split_and!; (discriminate || apply not_elem_of_nil).
Defined.

(** ** The manager as a client of the store *)

Lemma on_store_fields (f : Store → Store * list Listener) (m : Manager) :
  store (on_store f m) = (f (store m)).1
  ∧ trace (on_store f m) = trace m ++ map Notified (f (store m)).2
  ∧ callbacks (on_store f m) = callbacks m
  ∧ sources (on_store f m) = sources m
  ∧ transports (on_store f m) = transports m
  ∧ pending (on_store f m) = pending m
  ∧ realm (on_store f m) = realm m.
Proof. unfold on_store. by destruct (f (store m)). Qed.

Lemma call_host_fields (supplied : Callbacks → bool) (e : Effect) (m : Manager) :
  store (call_host supplied e m) = store m
  ∧ callbacks (call_host supplied e m) = callbacks m
  ∧ sources (call_host supplied e m) = sources m
  ∧ transports (call_host supplied e m) = transports m
  ∧ pending (call_host supplied e m) = pending m
  ∧ realm (call_host supplied e m) = realm m
  ∧ trace (call_host supplied e m)
    = trace m ++ match callbacks m with
                 | Some cb => if supplied cb then [e] else []
                 | None => []
                 end.
Proof.
  unfold call_host. destruct m as [s [cb |] src ts p r tr]; cbn;
    [destruct (supplied cb) |]; cbn; by rewrite ?app_nil_r.
Qed.

Lemma calls_app (cs1 cs2 : list StoreCall) (s : Store) :
  calls (cs1 ++ cs2) s = calls cs2 (calls cs1 s).
Proof. apply foldl_app. Qed.

Ltac no_calls := exists []; split; [constructor | reflexivity].

Lemma connect_store (cfg : ConnectionConfig.t) (m : Manager) :
  ∃ cs, Forall is_mutator cs ∧ store (connect cfg m) = calls cs (store m).
Proof.
  unfold connect. destruct (window (realm m)) as [w |]; [| no_calls].
  destruct (hasEventSource w); cbn [negb]; [| no_calls].
  case_bool_decide; [no_calls |].
  eexists [CallSetConnection _]. split; [by repeat constructor |].
  cbn [with_pending emit store]. by rewrite (proj1 (on_store_fields _ _)).
Qed.

Lemma handle_message_store (es : EventSource) (ev : MessageEvent) (m : Manager) :
  ∃ msg, store (handle_message es ev m) = (pushEvent msg (store m)).1
         ∧ msg = message_of es ev (getClientUid (realm m)).1.
Proof.
  unfold handle_message. destruct (getClientUid (realm m)) as [own r'].
  eexists. split; [| reflexivity].
  rewrite (proj1 (call_host_fields _ _ _)).
  by rewrite (proj1 (on_store_fields _ _)).
Qed.

Lemma handle_messages_store (es : EventSource) (ev : MessageEvent)
  (ts : list string) (m : Manager) :
  ∃ cs, Forall is_mutator cs
        ∧ store (foldl (λ m _, handle_message es ev m) m ts) = calls cs (store m).
Proof.
  revert m. induction ts as [| t ts IH]; intros m; [no_calls |].
  cbn [foldl]. destruct (IH (handle_message es ev m)) as (cs & Hcs & Hstore).
  destruct (handle_message_store es ev m) as (msg & Hpush & _).
  exists (CallPushEvent msg :: cs). split; [by constructor |].
  rewrite Hstore, Hpush. done.
Qed.

Lemma token_resolved_fields
  (URL_new : string → string → option URL)
  (urlencode encodeURIComponent : string → string)
  (cfg : ConnectionConfig.t) (token : string) (m : Manager) :
  let token_resolved' := token_resolved URL_new urlencode encodeURIComponent in
  let built := buildUrl URL_new urlencode encodeURIComponent
                 (ConnectionConfig.url cfg) token
                 (Some (default "authToken" (ConnectionConfig.tokenQueryParam cfg)))
                 (realm m) in
  store (token_resolved' cfg token m) = store m
  ∧ trace (token_resolved' cfg token m) = trace m
  ∧ pending (token_resolved' cfg token m) = pending m
  ∧ callbacks (token_resolved' cfg token m) = callbacks m
  ∧ realm (token_resolved' cfg token m) = built.2
  ∧ (EventSource_constructible URL_new built.1 built.2 = true →
     sources (token_resolved' cfg token m)
     = <[ConnectionConfig.id cfg := length (transports m)]> (sources m)
     ∧ transports (token_resolved' cfg token m)
       = transports m ++ [{| es_url := built.1; es_closed := false; es_cfg := cfg;
                             es_types := listened_types cfg |}])
  ∧ (EventSource_constructible URL_new built.1 built.2 = false →
     sources (token_resolved' cfg token m) = sources m
     ∧ transports (token_resolved' cfg token m) = transports m).
Proof.
  intros token_resolved' built. subst token_resolved' built. unfold token_resolved.
  destruct (buildUrl _ _ _ _ _ _ _) as [fullUrl r']. cbn [fst snd].
  by destruct (EventSource_constructible URL_new fullUrl r').
Qed.

Lemma handle_open_fields (es : EventSource) (m : Manager) :
  store (handle_open es m)
  = (setConnection (connection (ConnectionConfig.id (es_cfg es)) (es_url es)
                               open None) (store m)).1
  ∧ sources (handle_open es m) = sources m
  ∧ transports (handle_open es m) = transports m
  ∧ pending (handle_open es m) = pending m
  ∧ realm (handle_open es m) = realm m.
Proof.
  unfold handle_open.
  match goal with |- context [call_host ?c ?e ?m1] =>
    destruct (call_host_fields c e m1) as (-> & _ & -> & -> & -> & -> & _) end.
  match goal with |- context [on_store ?f ?m1] =>
    destruct (on_store_fields f m1) as (-> & _ & _ & -> & -> & -> & ->) end.
  done.
Qed.

Lemma handle_error_fields (es : EventSource) (message : option string)
  (m : Manager) :
  store (handle_error es message m)
  = (setConnection (connection (ConnectionConfig.id (es_cfg es)) (es_url es) error
                      (Some (String_ (VString (default "SSE error" message)))))
                   (store m)).1
  ∧ sources (handle_error es message m) = sources m
  ∧ transports (handle_error es message m) = transports m
  ∧ pending (handle_error es message m) = pending m
  ∧ realm (handle_error es message m) = realm m.
Proof.
  unfold handle_error.
  match goal with |- context [call_host ?c ?e ?m1] =>
    destruct (call_host_fields c e m1) as (-> & _ & -> & -> & -> & -> & _) end.
  match goal with |- context [on_store ?f ?m1] =>
    destruct (on_store_fields f m1) as (-> & _ & _ & -> & -> & -> & ->) end.
  done.
Qed.

Lemma dispatch_store (es : EventSource) (message : option string)
  (ev : MessageEvent) (m : Manager) :
  ∃ cs, Forall is_mutator cs ∧ store (dispatch es message ev m) = calls cs (store m).
Proof.
  unfold dispatch.
  set (m1 := if bool_decide (ev_type ev = "open") then handle_open es m else m).
  set (m2 := if bool_decide (ev_type ev = "error") then handle_error es message m1
             else m1).
  assert (H1 : ∃ cs, Forall is_mutator cs ∧ store m1 = calls cs (store m)).
  { subst m1. case_bool_decide; [| no_calls].
    eexists [CallSetConnection _]. split; [by repeat constructor |].
    by rewrite (proj1 (handle_open_fields es m)). }
  assert (H2 : ∃ cs, Forall is_mutator cs ∧ store m2 = calls cs (store m1)).
  { subst m2. case_bool_decide; [| no_calls].
    eexists [CallSetConnection _]. split; [by repeat constructor |].
    by rewrite (proj1 (handle_error_fields es message m1)). }
  destruct H1 as (cs1 & Hcs1 & Hs1). destruct H2 as (cs2 & Hcs2 & Hs2).
  destruct (handle_messages_store es ev
              (filter (λ t, t = ev_type ev) (es_types es)) m2) as (cs3 & Hcs3 & Hs3).
  exists (cs1 ++ cs2 ++ cs3). split; [by repeat apply Forall_app_2 |].
  by rewrite Hs3, Hs2, Hs1, !calls_app.
Qed.

Lemma step_store
  (URL_new : string → string → option URL)
  (urlencode encodeURIComponent : string → string)
  (i : Input) (m : Manager) :
  ∃ cs, Forall is_mutator cs
        ∧ store (step URL_new urlencode encodeURIComponent i m) = calls cs (store m).
Proof.
  destruct i as [cfg | id | | task outcome | h now | h message now | h ev];
    cbn [step].
  - apply connect_store.
  - exists [CallRemoveConnection id]. split; [by repeat constructor |].
    unfold disconnect. rewrite (proj1 (on_store_fields _ _)).
    by destruct (sources m !! id).
  - no_calls.
  - destruct (pending m !! task) as [cfg |]; [| no_calls].
    destruct outcome as [e | token]; cbn [token_settled].
    + eexists [CallSetConnection _]. split; [by repeat constructor |].
      unfold token_rejected. rewrite (proj1 (call_host_fields _ _ _)).
      by rewrite (proj1 (on_store_fields _ _)).
    + exists []. split; [done |].
      by rewrite (proj1 (token_resolved_fields _ _ _ _ _ _)).
  - destruct (live h m) as [es |]; [| no_calls]. apply dispatch_store.
  - destruct (live h m) as [es |]; [| no_calls]. apply dispatch_store.
  - destruct (live h m) as [es |]; [| no_calls]. apply dispatch_store.
Qed.

Lemma run_store
  (URL_new : string → string → option URL)
  (urlencode encodeURIComponent : string → string)
  (inputs : list Input) (m : Manager) :
  ∃ cs, Forall is_mutator cs
        ∧ store (run URL_new urlencode encodeURIComponent inputs m) = calls cs (store m).
Proof.
  revert m. induction inputs as [| i inputs IH]; intros m; [no_calls |].
  cbn [run foldl].
  destruct (IH (step URL_new urlencode encodeURIComponent i m)) as (cs2 & Hcs2 & Hrun).
  destruct (step_store URL_new urlencode encodeURIComponent i m) as (cs1 & Hcs1 & Hstep).
  exists (cs1 ++ cs2). split; [by apply Forall_app |].
  unfold run in Hrun. rewrite Hrun, Hstep. by rewrite calls_app.
Qed.

Lemma mutators_keep_listeners (cs : list StoreCall) (s : Store) :
  Forall is_mutator cs →
  listeners (calls cs s) = listeners s ∧ maxEvents (calls cs s) = maxEvents s.
Proof.
  intros Hcs. revert s. induction Hcs as [| c cs Hc Hcs IH]; intros s; [done |].
  change (calls (c :: cs) s) with (calls cs (call c s)).
  destruct (IH (call c s)) as [-> ->]. by destruct c.
Qed.

Lemma call_within_capacity (c : StoreCall) (s : Store) :
  log_within_capacity s → log_within_capacity (call c s).
Proof.
  intros [Hcap Hlen]. unfold log_within_capacity. rewrite call_maxEvents.
  split; [done |]. destruct c; try done.
  cbn [call]. rewrite pushEvent_log by done. rewrite length_drop. lia.
Qed.

Lemma calls_within_capacity (cs : list StoreCall) (s : Store) :
  log_within_capacity s → log_within_capacity (calls cs s).
Proof.
  revert s. induction cs as [| c cs IH]; intros s Hs; [done |].
  apply (IH (call c s)). by apply call_within_capacity.
Qed.

(** X9. Whatever the host and the event loop do to a manager (connects,
    disconnects, tokens resolving or rejecting, transport events), the
    store it writes to keeps its capacity and its subscribers, and a log
    that was within capacity stays within capacity. *)
Theorem run_keeps_store_bounded
  (URL_new : string → string → option URL)
  (urlencode encodeURIComponent : string → string)
  (inputs : list Input) (m : Manager) :
  log_within_capacity (store m) →
  let m' := run URL_new urlencode encodeURIComponent inputs m in
  log_within_capacity (store m')
  ∧ maxEvents (store m') = maxEvents (store m)
  ∧ listeners (store m') = listeners (store m).
Proof.
  intros Hs m'. subst m'.
  destruct (run_store URL_new urlencode encodeURIComponent inputs m)
    as (cs & Hcs & ->).
  destruct (mutators_keep_listeners cs (store m) Hcs) as [Hls Hcap].
  split_and!; [by apply calls_within_capacity | done | done].
Qed.

Lemma run_keeps_store_bounded_witness :
  let m := new_SSEManager (new_Store 1) (Some all_callbacks) known_tab in
  let tick n := {| ev_type := "message"; ev_data := Some "{}";
                   ev_parsed := Some "{}"; ev_lastEventId := None; ev_now := n |} in
  let m' := run plain_URL_new plain_encode plain_encode
                [DoConnect sample_cfg; TokenSettled 0 (inr "T1"); TransportOpen 0 0;
                 TransportMessage 0 (tick 1); TransportMessage 0 (tick 2)] m in
  log_within_capacity (store m)
  ∧ log_within_capacity (store m')
  ∧ timestamp <$> log (store m') = [2].
Proof.
  intros m tick m'.
  assert (Hm : log_within_capacity (store m)) by (split; cbn; lia).
  split_and!; [exact Hm | | reflexivity].
  exact (proj1 (run_keeps_store_bounded plain_URL_new plain_encode plain_encode _ m Hm)).
Defined.

(** ** Tracked transports *)


Lemma connect_frame (cfg : ConnectionConfig.t) (m : Manager) :
  sources (connect cfg m) = sources m ∧ transports (connect cfg m) = transports m.
Proof.
  unfold connect. destruct (window (realm m)) as [w |]; [| done].
  destruct (hasEventSource w); cbn [negb]; [| done].
  case_bool_decide; [done |].
  cbn [with_pending emit sources transports].
  by destruct (on_store_fields (setConnection
       (connection (ConnectionConfig.id cfg) (ConnectionConfig.url cfg) connecting None)) m)
    as (_ & _ & _ & -> & -> & _).
Qed.




Lemma close_transport_lookup (h h' : nat) (ts : list EventSource) :
  close_transport h ts !! h'
  = if decide (h = h') then closed_source <$> ts !! h' else ts !! h'.
Proof.
  unfold close_transport. destruct (ts !! h) as [es |] eqn:Hh.
  - case_decide as Heq.
    + subst h'. rewrite list_lookup_insert_eq by (by eapply lookup_lt_Some).
      by rewrite Hh.
    + by rewrite list_lookup_insert_ne.
  - case_decide as Heq; [| done]. subst h'. by rewrite Hh.
Qed.

Lemma disconnect_fields (id : string) (m : Manager) :
  sources (disconnect id m) = delete id (sources m)
  ∧ transports (disconnect id m)
    = match sources m !! id with
      | Some h => close_transport h (transports m)
      | None => transports m
      end
  ∧ store (disconnect id m) = (removeConnection id (store m)).1
  ∧ pending (disconnect id m) = pending m
  ∧ realm (disconnect id m) = realm m
  ∧ trace (disconnect id m) = trace m ++ map Notified (listeners (store m)).
Proof.
  unfold disconnect.
  match goal with |- context [on_store ?f ?m1] =>
    destruct (on_store_fields f m1) as (-> & -> & _ & -> & -> & -> & ->) end.
  destruct (sources m !! id) as [h |] eqn:Hid; cbn; [done |].
  by rewrite delete_id.
Qed.



(** ** The life of a connection *)

Lemma connect_fresh (cfg : ConnectionConfig.t) (m : Manager) :
  in_browser m →
  sources m !! ConnectionConfig.id cfg = None →
  connect cfg m
  = with_pending (pending m ++ [cfg])
      (emit (TokenLoaderCalled (ConnectionConfig.id cfg))
         (on_store (setConnection
            (connection (ConnectionConfig.id cfg) (ConnectionConfig.url cfg)
                        connecting None)) m)).
Proof.
  intros (w & Hw & Hes) Hsrc. unfold connect. rewrite Hw, Hes. cbn [negb].
  rewrite bool_decide_eq_false_2; [done |].
  rewrite Hsrc. by intros [? ?].
Qed.

Lemma filter_none {A : Type} (P : A → Prop) `{∀ x, Decision (P x)} (l : list A) :
  (∀ x, x ∈ l → ¬ P x) → filter P l = [].
Proof.
  induction l as [| a l IH]; intros Hnone; [done |].
  rewrite filter_cons_False by (apply Hnone; left).
  apply IH. intros x Hx. apply Hnone. by right.
Qed.

(** The transport's own ["open"] and ["error"] reach the lifecycle
    listener alone unless the name is among the custom types, and an
    event of any other name reaches the custom listeners alone. *)
Lemma dispatch_open_only (es : EventSource) (now : Z) (m : Manager) :
  "open" ∉ es_types es →
  dispatch es None (lifecycle_event "open" now) m = handle_open es m.
Proof.
  intros Hnot. unfold dispatch. cbn [lifecycle_event ev_type].
  rewrite (bool_decide_eq_true_2 ("open" = "open")) by done.
  rewrite (bool_decide_eq_false_2 ("open" = "error")) by done.
  rewrite filter_none; [done |]. by intros t Ht ->.
Qed.

Lemma dispatch_error_only (es : EventSource) (message : option string) (now : Z)
  (m : Manager) :
  "error" ∉ es_types es →
  dispatch es message (lifecycle_event "error" now) m = handle_error es message m.
Proof.
  intros Hnot. unfold dispatch. cbn [lifecycle_event ev_type].
  rewrite (bool_decide_eq_false_2 ("error" = "open")) by done.
  rewrite (bool_decide_eq_true_2 ("error" = "error")) by done.
  rewrite filter_none; [done |]. by intros t Ht ->.
Qed.

Lemma dispatch_custom (es : EventSource) (message : option string)
  (ev : MessageEvent) (m : Manager) :
  ev_type ev ≠ "open" → ev_type ev ≠ "error" →
  dispatch es message ev m
  = foldl (λ m _, handle_message es ev m) m
          (filter (λ t, t = ev_type ev) (es_types es)).
Proof.
  intros Hopen Herror. unfold dispatch.
  by rewrite !bool_decide_eq_false_2 by done.
Qed.

(** X11. A first [connect] in a browser, its token resolving and the
    transport opening, for a connection that does not listen to a
    custom event called "open" and whose built URL the [EventSource]
    constructor accepts: after [connect] the entry is [connecting] with
    the configured url and a token load is pending; when the token
    arrives the transport is constructed for the built URL and tracked,
    while the entry still says [connecting]; when the transport opens
    the entry is [open] with the built URL, and the host's [onOpen], if
    supplied, is the last thing called. *)
Theorem connect_resolve_open
  (URL_new : string → string → option URL)
  (urlencode encodeURIComponent : string → string)
  (cfg : ConnectionConfig.t) (token : string) (now : Z) (m : Manager) :
  in_browser m →
  sources m !! ConnectionConfig.id cfg = None →
  "open" ∉ listened_types cfg →
  let id := ConnectionConfig.id cfg in
  let built := buildUrl URL_new urlencode encodeURIComponent
                 (ConnectionConfig.url cfg) token
                 (Some (default "authToken" (ConnectionConfig.tokenQueryParam cfg)))
                 (realm m) in
  let fullUrl := built.1 in
  EventSource_constructible URL_new fullUrl built.2 = true →
  let m1 := connect cfg m in
  let m2 := step URL_new urlencode encodeURIComponent
                 (TokenSettled (length (pending m)) (inr token)) m1 in
  let m3 := step URL_new urlencode encodeURIComponent
                 (TransportOpen (length (transports m)) now) m2 in
  useSSEConnection id (state (store m1))
  = Some (Own (Typed (connection id (ConnectionConfig.url cfg) connecting None)))
  ∧ pending m1 = pending m ++ [cfg]
  ∧ sources m1 = sources m
  ∧ useSSEConnection id (state (store m2))
    = Some (Own (Typed (connection id (ConnectionConfig.url cfg) connecting None)))
  ∧ pending m2 = pending m
  ∧ sources m2 !! id = Some (length (transports m))
  ∧ transports m2
    = transports m ++ [{| es_url := fullUrl; es_closed := false; es_cfg := cfg;
                          es_types := listened_types cfg |}]
  ∧ useSSEConnection id (state (store m3))
    = Some (Own (Typed (connection id fullUrl open None)))
  ∧ log (store m3) = log (store m)
  ∧ trace m3
    = trace m ++ map Notified (listeners (store m)) ++ [TokenLoaderCalled id]
      ++ map Notified (listeners (store m))
      ++ match callbacks m with
         | Some cb => if onOpen cb then [HostOnOpen id] else []
         | None => []
         end.
Proof.
  intros Hb Hsrc Hnot id built fullUrl Hnew m1 m2 m3.
  assert (Hm1 := connect_fresh cfg m Hb Hsrc). fold m1 in Hm1.
  destruct m as [s cb src ts p r tr]. cbn [pending transports sources store
    callbacks trace realm] in *.
  unfold on_store, emit, with_pending in Hm1. cbn in Hm1.
  assert (Hm2 : m2 = {| store := store m1; callbacks := cb;
                        sources := <[id := length ts]> src;
                        transports := ts ++ [{| es_url := fullUrl; es_closed := false;
                                                es_cfg := cfg;
                                                es_types := listened_types cfg |}];
                        pending := p;
                        realm := built.2;
                        trace := trace m1 |}).
  { subst m2 fullUrl. rewrite Hm1. cbn [step pending].
    rewrite list_lookup_middle by done. rewrite delete_middle, app_nil_r.
    cbn [token_settled]. unfold token_resolved.
    cbn [realm with_pending]. fold built.
    destruct built as [u r']. cbn [fst snd] in *. by rewrite Hnew. }
  assert (Hm3 : m3 = handle_open {| es_url := fullUrl; es_closed := false;
                                    es_cfg := cfg; es_types := listened_types cfg |} m2).
  { subst m3. cbn [step]. unfold live. rewrite Hm2. cbn [transports].
    rewrite list_lookup_middle by done. cbn [es_closed].
    by apply dispatch_open_only. }
  rewrite Hm3, Hm2, Hm1. unfold useSSEConnection, handle_open, call_host, on_store.
  cbn. split_and!; try done;
    try (destruct cb as [cb |]; [destruct (onOpen cb) |]; cbn);
    first [ apply property_get_insert_eq
          | apply lookup_insert_eq
          | done
          | rewrite <- ?app_assoc; cbn; by rewrite ?app_nil_r ].
Qed.

Lemma connect_resolve_open_witness :
  let m1 := connect sample_cfg sample_manager in
  let m2 := step plain_URL_new plain_encode plain_encode (TokenSettled 0 (inr "T1")) m1 in
  let m3 := step plain_URL_new plain_encode plain_encode (TransportOpen 0 5) m2 in
  in_browser sample_manager
  ∧ useSSEConnection "a" (state (store m2))
    = Some (Own (Typed (connection "a" "https://x.example/sse" connecting None)))
  ∧ useSSEConnection "a" (state (store m3))
    = Some (Own (Typed (connection "a" "https://x.example/sse?uid=tab-A&authToken=T1"
                                   open None))).
Proof.
  intros m1 m2 m3.
  assert (Hb : in_browser sample_manager)
    by (eexists; split; reflexivity).
  assert (Hnot : "open" ∉ listened_types sample_cfg)
    by (by apply (bool_decide_eq_false_1 (_ ∈ _))).
  destruct (connect_resolve_open plain_URL_new plain_encode plain_encode
              sample_cfg "T1" 5 sample_manager Hb eq_refl Hnot eq_refl)
    as (_ & _ & _ & Hconnecting & _ & _ & _ & Hopen & _).
  split_and!; [exact Hb | exact Hconnecting | exact Hopen].
Defined.

(** X12. [disconnect] does not cancel a token load that is under way:
    after [connect] and [disconnect] the store has no entry of the id
    but the load is still pending, and when the token arrives and the
    [EventSource] constructor accepts the built URL, the transport is
    constructed and tracked all the same, open, for a connection the
    store has no entry of. *)
Theorem disconnect_keeps_token_load
  (URL_new : string → string → option URL)
  (urlencode encodeURIComponent : string → string)
  (cfg : ConnectionConfig.t) (token : string) (m : Manager) :
  in_browser m →
  sources m !! ConnectionConfig.id cfg = None →
  let id := ConnectionConfig.id cfg in
  let built := buildUrl URL_new urlencode encodeURIComponent
                 (ConnectionConfig.url cfg) token
                 (Some (default "authToken" (ConnectionConfig.tokenQueryParam cfg)))
                 (realm m) in
  EventSource_constructible URL_new built.1 built.2 = true →
  let m2 := disconnect id (connect cfg m) in
  let m3 := step URL_new urlencode encodeURIComponent
                 (TokenSettled (length (pending m)) (inr token)) m2 in
  connections (state (store m2)) !! id = None
  ∧ pending m2 = pending m ++ [cfg]
  ∧ connections (state (store m3)) !! id = None
  ∧ sources m3 !! id = Some (length (transports m))
  ∧ transports m3 !! length (transports m)
    = Some {| es_url := built.1; es_closed := false; es_cfg := cfg;
              es_types := listened_types cfg |}.
Proof.
  intros Hb Hsrc id built Hnew m2 m3. subst m3 m2 id.
  rewrite (connect_fresh cfg m Hb Hsrc).
  destruct m as [s cb src ts p r tr]. cbn [pending transports sources realm] in *.
  unfold disconnect, on_store, emit, with_pending.
  cbn [setConnection removeConnection sources store callbacks transports pending
       realm trace fst snd with_state notify listeners state connections events
       maxEvents].
  rewrite Hsrc.
  cbn [setConnection removeConnection sources store callbacks transports pending
       realm trace fst snd with_state notify listeners state connections events
       maxEvents step].
  rewrite list_lookup_middle by done. rewrite delete_middle, app_nil_r.
  cbn [token_settled]. unfold token_resolved.
  cbn [realm with_pending with_realm with_sources sources transports store pending
       callbacks trace].
  fold built. destruct built as [fullUrl r']. cbn [fst snd] in *. rewrite Hnew.
  cbn [sources store callbacks transports pending realm trace with_sources with_realm
       state connections].
  split_and!.
  - apply lookup_delete_eq.
  - done.
  - apply lookup_delete_eq.
  - apply lookup_insert_eq.
  - by rewrite list_lookup_middle.
Qed.

Lemma disconnect_keeps_token_load_witness :
  let m2 := disconnect "a" (connect sample_cfg sample_manager) in
  let m3 := step plain_URL_new plain_encode plain_encode
                 (TokenSettled 0 (inr "T1")) m2 in
  connections (state (store m3)) !! "a" = None
  ∧ sources m3 !! "a" = Some 0%nat
  ∧ (es_closed <$> transports m3 !! 0%nat) = Some false.
Proof.
  intros m2 m3.
  assert (Hb : in_browser sample_manager) by (eexists; split; reflexivity).
  destruct (disconnect_keeps_token_load plain_URL_new plain_encode plain_encode
              sample_cfg "T1" sample_manager Hb eq_refl eq_refl)
    as (_ & _ & Hgone & Htracked & Hopen).
  split_and!; [exact Hgone | exact Htracked |].
  exact (f_equal (fmap es_closed) Hopen).
Defined.

(** X13. A failed token load is not final: since nothing is tracked
    for the id, a later [connect] is accepted, puts the entry back to
    [connecting] without the error message, and starts a new load. *)
Theorem connect_again_after_rejection
  (URL_new : string → string → option URL)
  (urlencode encodeURIComponent : string → string)
  (cfg : ConnectionConfig.t) (e : JsValue) (m : Manager) :
  in_browser m →
  sources m !! ConnectionConfig.id cfg = None →
  let id := ConnectionConfig.id cfg in
  let m2 := step URL_new urlencode encodeURIComponent
                 (TokenSettled (length (pending m)) (inl e)) (connect cfg m) in
  let m3 := connect cfg m2 in
  useSSEConnection id (state (store m2))
  = Some (Own (Typed (connection id (ConnectionConfig.url cfg) error
                                 (Some ("token: " +:+ String_ e)))))
  ∧ pending m2 = pending m
  ∧ useSSEConnection id (state (store m3))
    = Some (Own (Typed (connection id (ConnectionConfig.url cfg) connecting None)))
  ∧ pending m3 = pending m ++ [cfg]
  ∧ sources m3 = sources m
  ∧ transports m3 = transports m.
Proof.
  intros Hb Hsrc id m2 m3. subst id.
  assert (Hm1 := connect_fresh cfg m Hb Hsrc).
  assert (Hb2 : in_browser m2 ∧ sources m2 = sources m ∧ transports m2 = transports m
                ∧ pending m2 = pending m
                ∧ useSSEConnection (ConnectionConfig.id cfg) (state (store m2))
                  = Some (Own (Typed (connection (ConnectionConfig.id cfg)
                                        (ConnectionConfig.url cfg) error
                                        (Some ("token: " +:+ String_ e)))))).
  { subst m2. rewrite Hm1. destruct m as [s cb src ts p r tr]. cbn [step pending].
    unfold on_store, emit, with_pending. cbn [setConnection pending].
    rewrite list_lookup_middle by done. rewrite delete_middle, app_nil_r.
    cbn [token_settled]. unfold token_rejected, call_host, on_store.
    cbn -[String_ append]. unfold in_browser, useSSEConnection.
    destruct cb as [cb |]; [destruct (onError cb) |]; cbn -[String_ append];
      rewrite property_get_insert_eq; by split_and!. }
  destruct Hb2 as (Hb2 & Hs2 & Ht2 & Hp2 & Hstatus).
  subst m3. clearbody m2.
  assert (Hm3 := connect_fresh cfg m2 Hb2). rewrite Hs2 in Hm3.
  specialize (Hm3 Hsrc). rewrite Hm3.
  unfold useSSEConnection, on_store, emit, with_pending. cbn.
  rewrite Hp2, Hs2, Ht2. split_and!; try done. apply property_get_insert_eq.
Qed.

Lemma connect_again_after_rejection_witness :
  let m2 := step plain_URL_new plain_encode plain_encode
                 (TokenSettled 0 (inl (VString "offline")))
                 (connect sample_cfg sample_manager) in
  useSSEConnection "a" (state (store m2))
  = Some (Own (Typed (connection "a" "https://x.example/sse" error
                                 (Some "token: offline"))))
  ∧ useSSEConnection "a" (state (store (connect sample_cfg m2)))
    = Some (Own (Typed (connection "a" "https://x.example/sse" connecting None)))
  ∧ pending (connect sample_cfg m2) = [sample_cfg].
Proof.
  intros m2.
  assert (Hb : in_browser sample_manager) by (eexists; split; reflexivity).
  destruct (connect_again_after_rejection plain_URL_new plain_encode plain_encode
              sample_cfg (VString "offline") sample_manager Hb eq_refl)
    as (Hfailed & _ & Hentry & Hpending & _).
  split_and!; [exact Hfailed | exact Hentry | exact Hpending].
Defined.

(** ** Transport events *)

Ltac by_callbacks cb :=
  destruct cb as [[[] [] []] |]; cbn -[String_ append].

(** X14. Events and errors of one transport overwrite each other's
    traces unevenly. A message after an error turns the status back to
    [open] and records the message as [lastEvent], but the error text
    stays in the entry. An error, or an [open], after a message replaces
    the entry wholesale, so the [lastEvent] is lost. *)
Theorem messages_and_errors_interleave (es : EventSource)
  (message : option string) (ev : MessageEvent) (m : Manager) :
  let id := ConnectionConfig.id (es_cfg es) in
  let msg := message_of es ev (getClientUid (realm m)).1 in
  useSSEConnection id (state (store (handle_message es ev (handle_error es message m))))
  = Some (Own (Typed
       {| SSEConnectionState.id := id;
          SSEConnectionState.url := es_url es;
          SSEConnectionState.status := open;
          SSEConnectionState.lastEvent := Some msg;
          SSEConnectionState.error := Some (default "SSE error" message) |}))
  ∧ useSSEConnection id (state (store (handle_error es message (handle_message es ev m))))
    = Some (Own (Typed (connection id (es_url es) error
                                   (Some (default "SSE error" message)))))
  ∧ useSSEConnection id (state (store (handle_open es (handle_message es ev m))))
    = Some (Own (Typed (connection id (es_url es) open None))).
Proof.
  intros id msg. subst id msg. destruct m as [s cb src ts p r tr].
  unfold handle_message, handle_error, handle_open, call_host, on_store,
    useSSEConnection, message_of.
  cbn [realm with_realm store callbacks sources transports pending trace].
  split_and!.
  - by_callbacks cb; destruct (getClientUid r) as [own r'];
      cbn -[String_ append property_get];
      rewrite property_get_insert_eq; cbn -[String_ append property_get];
      rewrite property_get_insert_eq; reflexivity.
  - destruct (getClientUid r) as [own r']. by_callbacks cb;
      cbn -[String_ append property_get];
      rewrite property_get_insert_eq; reflexivity.
  - destruct (getClientUid r) as [own r']. by_callbacks cb;
      cbn -[String_ append property_get];
      rewrite property_get_insert_eq; reflexivity.
Qed.

Lemma closed_source_twice (o : option EventSource) :
  closed_source <$> (closed_source <$> o) = closed_source <$> o.
Proof. by destruct o. Qed.

Lemma foldr_close_lookup (hs : list nat) (ts : list EventSource) (h : nat) :
  foldr close_transport ts hs !! h
  = if decide (h ∈ hs) then closed_source <$> ts !! h else ts !! h.
Proof.
  induction hs as [| a hs IH].
  - cbn. rewrite decide_False; [done | apply not_elem_of_nil].
  - cbn [foldr]. rewrite close_transport_lookup, IH.
    destruct (decide (a = h)) as [-> | Hne].
    + rewrite (decide_True (P := h ∈ h :: hs)) by left.
      case_decide; [apply closed_source_twice | done].
    + destruct (decide (h ∈ hs)) as [Hin | Hnotin].
      * rewrite decide_True; [done | by right].
      * rewrite decide_False; [done |].
        intros [-> | ?]%elem_of_cons; done.
Qed.

Lemma tracked_handles (m : Manager) (h : nat) :
  h ∈ map snd (map_to_list (sources m)) ↔ ∃ id, sources m !! id = Some h.
Proof.
  rewrite list_elem_of_fmap. split.
  - intros ([id h'] & -> & Hin). exists id. by apply elem_of_map_to_list.
  - intros [id Hid]. exists (id, h). split; [done | by apply elem_of_map_to_list].
Qed.

(** X15. [disconnect(id)] closes the transport tracked under the id,
    stops tracking it and removes the store's entry of the id, notifying
    the listeners; the other ids keep their transports and entries, the
    log stays, and a pending token load stays too. With nothing tracked
    under the id no transport is touched, and the entry is removed all
    the same. *)
Theorem disconnect_effect (id : string) (m : Manager) :
  let m' := disconnect id m in
  sources m' !! id = None
  ∧ connections (state (store m')) !! id = None
  ∧ (∀ id', id' ≠ id →
       sources m' !! id' = sources m !! id'
       ∧ connections (state (store m')) !! id' = connections (state (store m)) !! id'
       ∧ useSSEConnection id' (state (store m')) = useSSEConnection id' (state (store m)))
  ∧ log (store m') = log (store m)
  ∧ pending m' = pending m
  ∧ trace m' = trace m ++ map Notified (listeners (store m))
  ∧ (∀ h, sources m !! id = Some h →
       transports m' !! h = closed_source <$> transports m !! h
       ∧ ∀ h', h' ≠ h → transports m' !! h' = transports m !! h')
  ∧ (sources m !! id = None → transports m' = transports m).
Proof.
  intros m'. subst m'.
  destruct (disconnect_fields id m) as (Hs & Ht & Hst & Hp & _ & Htr).
  rewrite Hs, Hst, Hp, Htr, Ht. unfold useSSEConnection. cbn -[property_get].
  split_and!.
  - apply lookup_delete_eq.
  - apply lookup_delete_eq.
  - intros id' Hne. rewrite !lookup_delete_ne by done.
    by rewrite property_get_delete_ne.
  - done.
  - done.
  - done.
  - intros h ->. split.
    + rewrite close_transport_lookup. by rewrite decide_True.
    + intros h' Hne. rewrite close_transport_lookup. by rewrite decide_False.
  - by intros ->.
Qed.

Lemma disconnect_effect_witness :
  let m := run plain_URL_new plain_encode plain_encode
               [DoConnect sample_cfg; TokenSettled 0 (inr "T1"); TransportOpen 0 5]
               sample_manager in
  sources m !! "a" = Some 0%nat
  ∧ (es_closed <$> transports m !! 0%nat) = Some false
  ∧ (es_closed <$> transports (disconnect "a" m) !! 0%nat) = Some true
  ∧ connections (state (store (disconnect "a" m))) !! "a" = None
  ∧ transports (disconnect "ghost" m) = transports m.
Proof.
  intros m.
  destruct (disconnect_effect "a" m) as (_ & Hgone & _ & _ & _ & _ & Hclose & _).
  destruct (disconnect_effect "ghost" m) as (_ & _ & _ & _ & _ & _ & _ & Hnone).
  split_and!; [reflexivity | reflexivity | | exact Hgone | by apply Hnone].
  rewrite (proj1 (Hclose 0%nat eq_refl)). reflexivity.
Defined.

(** X16. [disconnectAll] closes every tracked transport and forgets
    them all, and that is all it does: untracked transports, pending
    token loads and the store are as before, so the entries keep saying
    what they said (an [open] connection still reads [open]), and no
    listener is notified. *)
Theorem disconnectAll_effect (m : Manager) :
  let m' := disconnectAll m in
  sources m' = ∅
  ∧ store m' = store m
  ∧ trace m' = trace m
  ∧ pending m' = pending m
  ∧ (∀ id h, sources m !! id = Some h →
       transports m' !! h = closed_source <$> transports m !! h)
  ∧ (∀ h, (∀ id, sources m !! id ≠ Some h) →
       transports m' !! h = transports m !! h).
Proof.
  intros m'. subst m'. unfold disconnectAll.
  cbn [with_sources sources store trace pending transports]. split_and!; try done.
  - intros id h Hid. rewrite foldr_close_lookup.
    rewrite decide_True; [done |]. apply tracked_handles. eauto.
  - intros h Hnot. rewrite foldr_close_lookup.
    rewrite decide_False; [done |].
    intros [id Hid]%tracked_handles. by apply (Hnot id).
Qed.

Lemma disconnectAll_effect_witness :
  let m := run plain_URL_new plain_encode plain_encode
               [DoConnect sample_cfg; TokenSettled 0 (inr "T1"); TransportOpen 0 5]
               sample_manager in
  (es_closed <$> transports (disconnectAll m) !! 0%nat) = Some true
  ∧ useSSEConnection "a" (state (store (disconnectAll m)))
    = Some (Own (Typed (connection "a" "https://x.example/sse?uid=tab-A&authToken=T1"
                                   open None))).
Proof.
  intros m.
  destruct (disconnectAll_effect m) as (_ & Hstore & _ & _ & Hclose & _).
  split.
  - rewrite (Hclose "a" 0%nat eq_refl). reflexivity.
  - rewrite Hstore. reflexivity.
Defined.

(** X17. Besides its own ["open"] and ["error"], a transport listens
    to the configured event types only, and an explicit list replaces
    the default instead of extending it: an event of any other name
    changes nothing. So with [eventTypes] given and not empty, plain
    ["message"] events are dropped unless the list names them; without
    [eventTypes], or with an empty list, exactly ["message"] is listened
    to. An event that the server names ["error"] is not dropped: it
    runs the listener of the transport's own errors, which records the
    status [error] and calls the host's [onError]. *)
Theorem unlistened_event_dropped
  (URL_new : string → string → option URL)
  (urlencode encodeURIComponent : string → string)
  (cfg : ConnectionConfig.t) (token : string) (ev : MessageEvent) (m : Manager) :
  let m1 := token_resolved URL_new urlencode encodeURIComponent cfg token m in
  let deliver := step URL_new urlencode encodeURIComponent
                      (TransportMessage (length (transports m)) ev) in
  (ev_type ev ∉ "open" :: "error" :: listened_types cfg → deliver m1 = m1)
  ∧ (∀ t ts, ConnectionConfig.eventTypes cfg = Some (t :: ts) →
       ev_type ev ∉ "open" :: "error" :: t :: ts → deliver m1 = m1)
  ∧ (ConnectionConfig.eventTypes cfg = None ∨ ConnectionConfig.eventTypes cfg = Some [] →
     listened_types cfg = ["message"]
     ∧ (ev_type ev ∉ ["open"; "error"; "message"] → deliver m1 = m1))
  ∧ (ev_type ev = "error" → "error" ∉ listened_types cfg →
     ∀ es, transports m1 !! length (transports m) = Some es →
       deliver m1 = handle_error es None m1).
Proof.
  intros m1 deliver.
  assert (Hdrop : ev_type ev ∉ "open" :: "error" :: listened_types cfg →
                  deliver m1 = m1).
  { intros Hnotin. subst deliver. cbn [step]. unfold live.
    destruct (transports m1 !! length (transports m)) as [es |] eqn:Hes; [| done].
    destruct (es_closed es); [done |].
    assert (Htypes : es_types es = listened_types cfg).
    { subst m1.
      destruct (token_resolved_fields URL_new urlencode encodeURIComponent cfg token m)
        as (_ & _ & _ & _ & _ & Hbuilt & Hthrown).
      cbn zeta in Hbuilt, Hthrown.
      destruct (EventSource_constructible _ _ _).
      - destruct (Hbuilt eq_refl) as [_ Ht]. rewrite Ht in Hes.
        rewrite list_lookup_middle in Hes by done. by injection Hes as <-.
      - destruct (Hthrown eq_refl) as [_ Ht]. rewrite Ht in Hes.
        apply lookup_lt_Some in Hes. lia. }
    rewrite dispatch_custom.
    - rewrite filter_none; [done |]. rewrite Htypes.
      intros x Hx ->. apply Hnotin. by do 2 right.
    - intros Heq. apply Hnotin. rewrite Heq. left.
    - intros Heq. apply Hnotin. rewrite Heq. right. left. }
  split_and!; [done | | |].
  - intros t ts Htypes Hnotin. apply Hdrop. unfold listened_types. by rewrite Htypes.
  - intros Hdefault.
    assert (Hl : listened_types cfg = ["message"]).
    { unfold listened_types. by destruct Hdefault as [-> | ->]. }
    split; [done |]. intros Hne. apply Hdrop. rewrite Hl.
    intros Hin. apply Hne. set_solver.
  - intros Herror Hnot es Hes. subst deliver. cbn [step]. unfold live. rewrite Hes.
    assert (Hopen : es_closed es = false ∧ es_types es = listened_types cfg).
    { subst m1.
      destruct (token_resolved_fields URL_new urlencode encodeURIComponent cfg token m)
        as (_ & _ & _ & _ & _ & Hbuilt & Hthrown).
      cbn zeta in Hbuilt, Hthrown.
      destruct (EventSource_constructible _ _ _).
      - destruct (Hbuilt eq_refl) as [_ Ht]. rewrite Ht in Hes.
        rewrite list_lookup_middle in Hes by done. by injection Hes as <-.
      - destruct (Hthrown eq_refl) as [_ Ht]. rewrite Ht in Hes.
        apply lookup_lt_Some in Hes. lia. }
    destruct Hopen as [-> Htypes]. unfold dispatch. rewrite Herror.
    rewrite (bool_decide_eq_false_2 ("error" = "open")) by done.
    rewrite (bool_decide_eq_true_2 ("error" = "error")) by done.
    rewrite filter_none; [done |]. rewrite Htypes. by intros x Hx ->.
Qed.

Lemma unlistened_event_dropped_witness :
  let cfg := {| ConnectionConfig.id := "a";
                ConnectionConfig.url := "https://x.example/sse";
                ConnectionConfig.tokenQueryParam := None;
                ConnectionConfig.connectOnMount := None;
                ConnectionConfig.eventTypes := Some ["tick"] |} in
  let plain := {| ev_type := "message"; ev_data := Some "{}"; ev_parsed := Some "{}";
                  ev_lastEventId := None; ev_now := 1 |} in
  let failure := {| ev_type := "error"; ev_data := Some "{}"; ev_parsed := Some "{}";
                    ev_lastEventId := None; ev_now := 2 |} in
  let m1 := token_resolved plain_URL_new plain_encode plain_encode cfg "T1"
                           sample_manager in
  let m2 := step plain_URL_new plain_encode plain_encode (TransportMessage 0 failure)
                 m1 in
  step plain_URL_new plain_encode plain_encode (TransportMessage 0 plain) m1 = m1
  ∧ useSSEConnection "a" (state (store m2))
    = Some (Own (Typed (connection "a" "https://x.example/sse?uid=tab-A&authToken=T1"
                                   error (Some "SSE error"))))
  ∧ log (store m2) = [].
Proof.
  intros cfg plain failure m1 m2.
  destruct (unlistened_event_dropped plain_URL_new plain_encode plain_encode
              cfg "T1" plain sample_manager) as (_ & Hexplicit & _).
  destruct (unlistened_event_dropped plain_URL_new plain_encode plain_encode
              cfg "T1" failure sample_manager) as (_ & _ & _ & Herror).
  assert (Hnot : "error" ∉ listened_types cfg)
    by (by apply (bool_decide_eq_false_1 (_ ∈ _))).
  pose (es := {| es_url := "https://x.example/sse?uid=tab-A&authToken=T1";
                 es_closed := false; es_cfg := cfg; es_types := ["tick"] |}).
  assert (Hm2 : m2 = handle_error es None m1)
    by exact (Herror eq_refl Hnot es eq_refl).
  split_and!.
  - apply (Hexplicit "tick" []); [reflexivity |].
    by apply (bool_decide_eq_false_1 (_ ∈ _)).
  - rewrite Hm2. reflexivity.
  - rewrite Hm2. reflexivity.
Defined.

(** X18. An empty token is left out of the URL: the transport is opened
    with the identity parameter alone, on either path. *)
Theorem buildUrl_empty_token
  (URL_new : string → string → option URL)
  (urlencode encodeURIComponent : string → string)
  (urlStr : string) (tokenQueryParam : option string) (r : Realm) :
  (getClientUid r).1 ≠ "" →
  let uid := (getClientUid r).1 in
  let r' := (getClientUid r).2 in
  let built := buildUrl URL_new urlencode encodeURIComponent urlStr ""
                        tokenQueryParam r in
  match URL_new urlStr (match window r' with Some w => origin w | None => "" end) with
  | Some u =>
    built.1 = URL_toString urlencode
                (with_searchParams (URLSearchParams_set "uid" uid (searchParams u)) u)
  | None =>
    built.1 = urlStr
              +:+ (if negb (includes "?"%char urlStr) then "?"
                   else if endsWith "?"%char urlStr || endsWith "&"%char urlStr then ""
                   else "&")
              +:+ ("uid=" +:+ encodeURIComponent uid)
  end.
Proof.
  intros Hu uid r' built. subst uid r' built. unfold buildUrl.
  destruct (getClientUid r) as [uid r']. cbn [fst snd] in *.
  apply truthy_Some in Hu.
  destruct (URL_new urlStr _) as [u |]; cbn [fst].
  - unfold buildUrl_params. by rewrite Hu, truthy_empty.
  - unfold buildUrl_fallback. rewrite Hu, truthy_empty. cbn [app join].
    destruct (includes "?" urlStr); cbn [negb]; [| done].
    by destruct (endsWith "?" urlStr || endsWith "&" urlStr).
Qed.

Lemma buildUrl_empty_token_witness :
  (plain_buildUrl "https://x.example/sse?room=7" "" None known_tab).1
  = "https://x.example/sse?room=7&uid=tab-A"
  ∧ (buildUrl throwing_URL_new plain_encode plain_encode
              "https://x.example/sse" "" None known_tab).1
    = "https://x.example/sse?uid=tab-A".
Proof.
  assert (Hu : (getClientUid known_tab).1 ≠ "") by discriminate.
  split.
  - exact (buildUrl_empty_token plain_URL_new plain_encode plain_encode
             "https://x.example/sse?room=7" None known_tab Hu).
  - exact (buildUrl_empty_token throwing_URL_new plain_encode plain_encode
             "https://x.example/sse" None known_tab Hu).
Defined.

(** ** The provider's effect *)

Lemma connect_tracked (cfg : ConnectionConfig.t) (m : Manager) :
  is_Some (sources m !! ConnectionConfig.id cfg) → connect cfg m = m.
Proof.
  intros Htracked. unfold connect. destruct (window (realm m)) as [w |]; [| done].
  destruct (hasEventSource w); cbn [negb]; [| done].
  by rewrite bool_decide_eq_true_2.
Qed.

Lemma connect_realm (cfg : ConnectionConfig.t) (m : Manager) :
  realm (connect cfg m) = realm m.
Proof.
  unfold connect. destruct (window (realm m)) as [w |]; [| done].
  destruct (hasEventSource w); cbn [negb]; [| done].
  case_bool_decide; [done |]. cbn [with_pending emit realm].
  by rewrite (proj2 (proj2 (proj2 (proj2 (proj2 (proj2 (on_store_fields _ _))))))).
Qed.

Lemma connect_pending (cfg : ConnectionConfig.t) (m : Manager) :
  in_browser m →
  pending (connect cfg m)
  = pending m ++ (if bool_decide (is_Some (sources m !! ConnectionConfig.id cfg))
                  then [] else [cfg]).
Proof.
  intros Hb. case_bool_decide as Htracked.
  - rewrite connect_tracked by done. by rewrite app_nil_r.
  - rewrite connect_fresh; [| done |].
    + cbn [with_pending pending]. done.
    + destruct (sources m !! ConnectionConfig.id cfg) eqn:Hs; [| done].
      destruct Htracked. eauto.
Qed.

Lemma connects_fields (cs : list ConnectionConfig.t) (m : Manager) :
  in_browser m →
  let m' := foldl (λ m c, connect c m) m cs in
  sources m' = sources m
  ∧ transports m' = transports m
  ∧ realm m' = realm m
  ∧ pending m'
    = pending m
      ++ List.filter
           (λ c, negb (bool_decide (is_Some (sources m !! ConnectionConfig.id c)))) cs.
Proof.
  revert m. induction cs as [| c cs IH]; intros m Hb.
  - cbn. by rewrite app_nil_r.
  - cbn [foldl].
    assert (Hb1 : in_browser (connect c m)).
    { unfold in_browser. by rewrite connect_realm. }
    destruct (IH (connect c m) Hb1) as (Hs & Ht & Hr & Hp).
    destruct (connect_frame c m) as [Hs1 Ht1].
    cbn zeta in *. rewrite Hs, Ht, Hr, Hp, Hs1, Ht1, connect_realm.
    split_and!; [done | done | done |].
    rewrite connect_pending by done. rewrite <- app_assoc. f_equal.
    cbn [List.filter]. by case_bool_decide.
Qed.

Lemma decide_id_cons {A : Type} (id : string) (c : ConnectionConfig.t)
  (cs : list ConnectionConfig.t) (x y : A) :
  (if decide (id ∈ ConnectionConfig.id <$> c :: cs) then x else y)
  = if decide (id = ConnectionConfig.id c) then x
    else if decide (id ∈ ConnectionConfig.id <$> cs) then x else y.
Proof.
  destruct (decide (id ∈ ConnectionConfig.id <$> c :: cs)) as [Hin | Hnotin].
  - change (id ∈ ConnectionConfig.id c :: (ConnectionConfig.id <$> cs)) in Hin.
    apply elem_of_cons in Hin as [-> | Hin].
    + by rewrite decide_True.
    + case_decide; [done |]. by rewrite decide_True.
  - change (id ∉ ConnectionConfig.id c :: (ConnectionConfig.id <$> cs)) in Hnotin.
    apply not_elem_of_cons in Hnotin as [Hne Hnotin].
    by rewrite !decide_False.
Qed.

Lemma disconnects_fields (cs : list ConnectionConfig.t) (m : Manager) :
  let m' := foldl (λ m c, disconnect (ConnectionConfig.id c) m) m cs in
  pending m' = pending m
  ∧ realm m' = realm m
  ∧ (∀ id, sources m' !! id
           = if decide (id ∈ ConnectionConfig.id <$> cs) then None else sources m !! id)
  ∧ (∀ id, connections (state (store m')) !! id
           = if decide (id ∈ ConnectionConfig.id <$> cs) then None
             else connections (state (store m)) !! id).
Proof.
  revert m. induction cs as [| c cs IH]; intros m.
  - cbn. split_and!; try done; intros id;
      rewrite decide_False; try done; apply not_elem_of_nil.
  - cbn [foldl]. destruct (IH (disconnect (ConnectionConfig.id c) m))
      as (Hp & Hr & Hs & Hc).
    destruct (disconnect_fields (ConnectionConfig.id c) m)
      as (Hs1 & _ & Hst1 & Hp1 & Hr1 & _).
    cbn zeta in *. rewrite Hp, Hr, Hp1, Hr1. split_and!; [done | done | |].
    + intros id. rewrite Hs, Hs1, decide_id_cons.
      destruct (decide (id = ConnectionConfig.id c)) as [-> | Hne].
      * rewrite lookup_delete_eq. by case_decide.
      * by rewrite lookup_delete_ne.
    + intros id. rewrite Hc, decide_id_cons.
      rewrite Hst1. cbn.
      destruct (decide (id = ConnectionConfig.id c)) as [-> | Hne].
      * rewrite lookup_delete_eq. by case_decide.
      * by rewrite lookup_delete_ne.
Qed.

Lemma filter_all {A : Type} (p : A → bool) (l : list A) :
  (∀ x, x ∈ l → p x = true) → List.filter p l = l.
Proof.
  induction l as [| a l IH]; intros Hall; [done |].
  cbn. rewrite Hall by left. f_equal. apply IH. intros x Hx. apply Hall. by right.
Qed.

Lemma filter_nothing {A : Type} (p : A → bool) (l : list A) :
  (∀ x, x ∈ l → p x = false) → List.filter p l = [].
Proof.
  induction l as [| a l IH]; intros Hall; [done |].
  cbn. rewrite Hall by left. apply IH. intros x Hx. apply Hall. by right.
Qed.

(** X19. The provider's effect connects nothing when the provider is
    disabled, when every connection opts out with
    [connectOnMount: false], and on a server; the manager is then left
    exactly as it was, and a disabled provider's cleanup does nothing
    either. *)
Theorem SSEProvider_effect_skips (enabled : bool)
  (connections : list ConnectionConfig.t) (m : Manager) :
  (enabled = false →
   SSEProvider_effect enabled connections m = m
   ∧ SSEProvider_cleanup enabled connections m = m)
  ∧ ((∀ c, c ∈ connections → ConnectionConfig.connectOnMount c = Some false) →
     SSEProvider_effect enabled connections m = m)
  ∧ (window (realm m) = None → SSEProvider_effect enabled connections m = m).
Proof.
  split_and!.
  - by intros ->.
  - intros Hout. unfold SSEProvider_effect. destruct enabled; [| done]. cbn [negb].
    unfold toConnect. rewrite filter_nothing; [done |].
    intros c Hc. by rewrite (Hout c Hc), bool_decide_eq_true_2.
  - intros Hw. unfold SSEProvider_effect. destruct enabled; [| done]. cbn [negb].
    induction (toConnect connections) as [| c cs IH]; [done |].
    cbn [foldl ctx_connect]. unfold connect at 2. by rewrite Hw.
Qed.

Lemma SSEProvider_effect_skips_witness :
  let quiet := {| ConnectionConfig.id := "b";
                  ConnectionConfig.url := "https://x.example/b";
                  ConnectionConfig.tokenQueryParam := None;
                  ConnectionConfig.connectOnMount := Some false;
                  ConnectionConfig.eventTypes := None |} in
  SSEProvider_effect false [sample_cfg] sample_manager = sample_manager
  ∧ SSEProvider_effect true [quiet] sample_manager = sample_manager
  ∧ pending (SSEProvider_effect true [quiet; sample_cfg] sample_manager) = [sample_cfg].
Proof.
  intros quiet.
  destruct (SSEProvider_effect_skips false [sample_cfg] sample_manager) as (Hoff & _).
  destruct (SSEProvider_effect_skips true [quiet] sample_manager) as (_ & Hout & _).
  split_and!; [by apply Hoff | | reflexivity].
  apply Hout. by intros c ->%list_elem_of_singleton.
Defined.

(** X20. Mounting the provider's connections, unmounting them before
    their tokens have arrived, and mounting them again leaves every
    token load of the first mount pending next to those of the second:
    the cleanup removes the store's entries but cancels nothing, so
    each connection ends up with two loads under way. *)
Theorem SSEProvider_remount_doubles_loads
  (configs : list ConnectionConfig.t) (m : Manager) :
  in_browser m →
  (∀ c, c ∈ toConnect configs → sources m !! ConnectionConfig.id c = None) →
  let m1 := SSEProvider_effect true configs m in
  let m2 := SSEProvider_cleanup true configs m1 in
  let m3 := SSEProvider_effect true configs m2 in
  pending m1 = pending m ++ toConnect configs
  ∧ pending m2 = pending m ++ toConnect configs
  ∧ (∀ c, c ∈ toConnect configs →
       connections (state (store m2)) !! ConnectionConfig.id c = None)
  ∧ pending m3 = pending m ++ toConnect configs ++ toConnect configs
  ∧ sources m3 = sources m2.
Proof.
  intros Hb Huntracked m1 m2 m3.
  unfold SSEProvider_effect, SSEProvider_cleanup, ctx_connect in *. cbn [negb] in *.
  destruct (connects_fields (toConnect configs) m Hb) as (Hs1 & _ & Hr1 & Hp1).
  fold m1 in Hs1, Hr1, Hp1.
  rewrite filter_all in Hp1.
  2: { intros c Hc. rewrite (Huntracked c Hc).
       rewrite bool_decide_eq_false_2; [done | by intros [? ?]]. }
  destruct (disconnects_fields (toConnect configs) m1) as (Hp2 & Hr2 & Hs2 & Hc2).
  fold m2 in Hp2, Hr2, Hs2, Hc2.
  assert (Hb2 : in_browser m2).
  { unfold in_browser. by rewrite Hr2, Hr1. }
  destruct (connects_fields (toConnect configs) m2 Hb2) as (Hs3 & _ & _ & Hp3).
  fold m3 in Hs3, Hp3.
  assert (Hin : ∀ c, c ∈ toConnect configs →
                     ConnectionConfig.id c ∈ ConnectionConfig.id <$> toConnect configs).
  { intros c Hc. apply list_elem_of_fmap. eauto. }
  rewrite filter_all in Hp3.
  2: { intros c Hc. rewrite Hs2, decide_True by (by apply Hin).
       rewrite bool_decide_eq_false_2; [done | by intros [? ?]]. }
  split_and!.
  - done.
  - by rewrite Hp2.
  - intros c Hc. rewrite Hc2. rewrite decide_True; [done | by apply Hin].
  - rewrite Hp3, Hp2, Hp1. by rewrite <- app_assoc.
  - done.
Qed.

Lemma SSEProvider_remount_doubles_loads_witness :
  let m3 := SSEProvider_effect true [sample_cfg]
              (SSEProvider_cleanup true [sample_cfg]
                 (SSEProvider_effect true [sample_cfg] sample_manager)) in
  pending m3 = [sample_cfg; sample_cfg]
  ∧ length (transports
              (run plain_URL_new plain_encode plain_encode
                   [TokenSettled 0 (inr "T1"); TokenSettled 0 (inr "T1")] m3)) = 2%nat.
Proof.
  intros m3.
  assert (Hb : in_browser sample_manager) by (eexists; split; reflexivity).
  destruct (SSEProvider_remount_doubles_loads [sample_cfg] sample_manager Hb)
    as (_ & _ & _ & Hp3 & _).
  - intros c Hc. reflexivity.
  - split; [exact Hp3 | reflexivity].
Defined.

(** ** The selectors under updates *)

Lemma selected_fold (m : gmap string Stored) (ids : list string)
  (acc : gmap string Property) (id : string) :
  foldl (λ out id, match property_get m id with
                   | Some v => if bool_decide (id = "__proto__") then out
                               else <[id := v]> out
                   | None => out
                   end) acc ids !! id
  = if decide (id ∈ ids ∧ id ≠ "__proto__")
    then match property_get m id with Some v => Some v | None => acc !! id end
    else acc !! id.
Proof.
  revert acc. induction ids as [| a ids IH]; intros acc.
  - cbn. rewrite decide_False; [done |]. intros [Hin _]. by apply elem_of_nil in Hin.
  - cbn [foldl]. rewrite IH.
    set (acc' := match property_get m a with
                 | Some v => if bool_decide (a = "__proto__") then acc
                             else <[a := v]> acc
                 | None => acc
                 end).
    assert (Hother : a ≠ id → acc' !! id = acc !! id).
    { intros Hne. subst acc'. destruct (property_get m a) as [v |]; [| done].
      case_bool_decide; [done |]. by rewrite lookup_insert_ne. }
    destruct (decide (id ∈ ids ∧ id ≠ "__proto__")) as [[Hin Hplain] | Hnot].
    + rewrite decide_True by (split; [by right | done]).
      destruct (property_get m id) as [v |] eqn:Hid; [done |].
      destruct (decide (a = id)) as [-> | Hne]; [| by apply Hother].
      subst acc'. by rewrite Hid.
    + destruct (decide (a = id ∧ id ≠ "__proto__")) as [[-> Hplain] | Hnot'].
      * rewrite decide_True by (split; [left | done]).
        subst acc'. destruct (property_get m id) as [v |]; [| done].
        rewrite bool_decide_eq_false_2 by done. apply lookup_insert_eq.
      * rewrite decide_False.
        2: { intros [[-> | Hin]%elem_of_cons Hplain]; [by apply Hnot' | by apply Hnot]. }
        destruct (decide (a = id)) as [-> | Hne]; [| by apply Hother].
        subst acc'. destruct (property_get m id) as [v |]; [| done].
        rewrite bool_decide_eq_true_2; [done |].
        destruct (decide (id = "__proto__")) as [Heq | Hplain]; [done |].
        destruct Hnot'. by split.
Qed.

(** X21. With [ids], every call of the selector of [useSSEConnections]
    builds a new object: two calls on the same state of the store
    return different references, to objects with the same own
    properties, so the snapshot handed to [useSyncExternalStore] is
    never the one handed over before. The own properties are, for each
    requested id other than ["__proto__"], what reading the id from the
    store's connections gives: the store's entry, or for an id without
    an entry that names a member of [Object.prototype], that member;
    ids that were not requested do not appear. Without [ids] the
    selector returns the store's connections object itself and builds
    nothing. *)
Theorem useSSEConnections_new_object (ids : list string) (s : StoreRef) (h : Heap)
  (st : InternalState) :
  snapshot h (ref_state s) = Some st →
  let p := ref_state s in
  let out := ObjSelected (selected ids (connections st)) in
  (∃ lc, useSSEConnections None p h = Some (lc, h)
         ∧ connections_ref h p = Some lc
         ∧ read_connections h lc = Some (connections st))
  ∧ useSSEConnections (Some ids) p h = Some (length h, h ++ [out])
  ∧ useSSEConnections (Some ids) p (h ++ [out])
    = Some ((length h + 1)%nat, h ++ [out; out])
  ∧ (∀ id, selected ids (connections st) !! id
           = if decide (id ∈ ids ∧ id ≠ "__proto__")
             then useSSEConnection id st else None).
Proof.
  intros (lc & le & Hp & Hm & _)%snapshot_inv p out. subst p.
  split_and!.
  - exists lc. unfold useSSEConnections, connections_ref. by rewrite Hp.
  - unfold useSSEConnections. rewrite Hp, Hm. done.
  - unfold useSSEConnections.
    rewrite (lookup_app_l_Some _ _ _ _ Hp).
    rewrite (read_connections_app _ _ _ _ Hm). cbn [mbind option_bind].
    unfold alloc. rewrite length_app. cbn [length].
    by rewrite <- app_assoc.
  - intros id. unfold selected. rewrite selected_fold.
    case_decide; [| apply lookup_empty].
    unfold useSSEConnection.
    destruct (property_get (connections st) id); [done | apply lookup_empty].
Qed.

(** A store with an entry for "a": the selection of "a", an unknown id
    and "toString", taken twice. *)
Lemma useSSEConnections_new_object_witness :
  let c := connection "a" "https://x.example/sse" connecting None in
  ∃ s h first h1 second h2,
    heap_mutate (MSetConnection c) sample_heap_store = Some (s, h)
    ∧ useSSEConnections (Some ["a"; "ghost"; "toString"]) (ref_state s) h
      = Some (first, h1)
    ∧ useSSEConnections (Some ["a"; "ghost"; "toString"]) (ref_state s) h1
      = Some (second, h2)
    ∧ first ≠ second
    ∧ h2 !! first = h2 !! second
    ∧ h2 !! first
      = Some (ObjSelected {[ "a" := Own (Typed c);
                             "toString" := Inherited "toString" ]}).
Proof.
  intros c.
  pose (s := {| ref_maxEvents := 1; ref_state := 4%nat |}).
  pose (h := sample_heap_store.2
             ++ [ObjConnections {[ "a" := Typed c ]}; ObjState 3%nat 1%nat]).
  assert (Hst : snapshot h (ref_state s)
                = Some {| connections := {[ "a" := Typed c ]}; events := [] |})
    by reflexivity.
  destruct (useSSEConnections_new_object ["a"; "ghost"; "toString"] s h _ Hst)
    as (_ & Hfirst & Hsecond & _).
  eexists s, h, _, _, _, _.
  split_and!; [reflexivity | exact Hfirst | exact Hsecond | | reflexivity | reflexivity].
  cbn. lia.
Defined.

Lemma pushEvent_log_room (msg : SSEMessage) (s : Store) :
  Z.of_nat (length (log s)) < maxEvents s →
  log (pushEvent msg s).1 = log s ++ [msg].
Proof.
  intros Hroom. rewrite pushEvent_log by lia. rewrite length_app. cbn [length].
  replace (length (log s) + 1 - Z.to_nat (maxEvents s))%nat with 0%nat by lia.
  by rewrite drop_0.
Qed.

Lemma rendered_mutations (mus : list Mutation) (acts : list Act) (s : Store) :
  rendered (map Mutate mus ++ acts) s
  = rendered acts (foldl (λ s mu, mutate mu s) s mus).
Proof.
  revert s. induction mus as [| mu mus IH]; intros s; [done |].
  cbn [map app rendered foldl]. apply IH.
Qed.

Lemma filters_of_mutations (mus : list Mutation) (acts : list Act) :
  filters_of (map Mutate mus ++ acts) = filters_of acts.
Proof. induction mus as [| mu mus IH]; [done | apply IH]. Qed.

Lemma mutations_maxEvents (mus : list Mutation) (s : Store) :
  maxEvents (foldl (λ s mu, mutate mu s) s mus) = maxEvents s.
Proof.
  revert s. induction mus as [| mu mus IH]; intros s; [done |].
  cbn [foldl]. by rewrite IH, mutate_maxEvents.
Qed.

(** X22. A store is mutated, a component renders with a filter, an
    event is pushed while the log has room, and the component renders
    again with the same filter: the second render returns the list of
    the first, extended at its end by the new event if the event passes
    the filter. The memo does not hold the new event back, since the
    push installs a new events array. *)
Theorem useSSEEvents_after_push (fns : nat → SSEMessage → bool)
  (f : EventsFilter) (msg : SSEMessage) (C : Z) (mus : list Mutation) :
  let s := foldl (λ s mu, mutate mu s) (new_Store C) mus in
  Z.of_nat (length (log s)) < C →
  let before := List.filter (satisfies_effective fns f) (log s) in
  component fns
            (map Mutate mus
             ++ [Render (Some f); Mutate (MPushEvent msg); Render (Some f)])
            (new_Store_on_heap C []) Unmounted
  = Some [before; before ++ (if satisfies_effective fns f msg then [msg] else [])].
Proof.
  intros s Hroom before.
  assert (Hkeys : ∀ f1 f2, f1 ∈ [f] → f2 ∈ [f] → keys_tell_apart f1 f2).
  { intros f1 f2 ->%list_elem_of_singleton ->%list_elem_of_singleton. by split. }
  assert (Hsome : Render None
                  ∉ map Mutate mus
                    ++ [Render (Some f); Mutate (MPushEvent msg); Render (Some f)]).
  { intros [Hin | Hin]%elem_of_app.
    - apply list_elem_of_fmap in Hin as (mu & Heq & _). discriminate Heq.
    - repeat (apply elem_of_cons in Hin as [Hin | Hin]; [discriminate Hin |]).
      by apply elem_of_nil in Hin. }
  assert (Hfs : ∀ f', f' ∈ filters_of
                        (map Mutate mus
                         ++ [Render (Some f); Mutate (MPushEvent msg); Render (Some f)]) →
                      f' ∈ [f]).
  { intros f' Hf'.
    rewrite filters_of_mutations in Hf'. cbn [filters_of] in Hf'.
    each_member Hf'; apply list_elem_of_singleton; reflexivity. }
  etrans.
  { by apply (component_filtered fns [f] _ Hkeys _ _ (new_Store C) Unmounted). }
  rewrite rendered_mutations. fold s.
  cbn [rendered map filtered fst snd mutate]. do 3 f_equal.
  rewrite pushEvent_log_room.
  - rewrite List.filter_app. cbn [List.filter].
    by destruct (satisfies_effective fns f msg).
  - subst s. by rewrite mutations_maxEvents.
Qed.

Lemma useSSEEvents_after_push_witness :
  let f := {| connectionIds := Some ["a"]; types := None;
              predicate := None; sinceTs := None |} in
  let mus := [MPushEvent (ev "a" "message" 1)] in
  component sample_fns
            (map Mutate mus
             ++ [Render (Some f); Mutate (MPushEvent (ev "b" "message" 2));
                 Render (Some f)])
            (new_Store_on_heap 3 []) Unmounted
  = Some [[ev "a" "message" 1]; [ev "a" "message" 1]]
  ∧ component sample_fns
              (map Mutate mus
               ++ [Render (Some f); Mutate (MPushEvent (ev "a" "tick" 2));
                   Render (Some f)])
              (new_Store_on_heap 3 []) Unmounted
    = Some [[ev "a" "message" 1]; [ev "a" "message" 1; ev "a" "tick" 2]].
Proof.
  intros f mus.
  assert (Hroom : Z.of_nat (length (log (foldl (λ s mu, mutate mu s) (new_Store 3) mus)))
                  < 3) by (by vm_compute).
  split.
  - rewrite (useSSEEvents_after_push sample_fns f _ 3 mus Hroom). reflexivity.
  - rewrite (useSSEEvents_after_push sample_fns f _ 3 mus Hroom). reflexivity.
Defined.

Lemma useSSEEvent_push (connectionId_arg : OneOrMany)
  (type_arg : option OneOrMany) (msg : SSEMessage) (s : Store) :
  1 ≤ maxEvents s →
  useSSEEvent connectionId_arg type_arg (state (pushEvent msg s).1)
  = if matches (as_array connectionId_arg) (as_array <$> type_arg) msg
    then Some msg
    else useSSEEvent connectionId_arg type_arg
           (state_of (drop (length (log s) + 1 - Z.to_nat (maxEvents s)) (log s))).
Proof.
  intros Hcap. unfold useSSEEvent. rewrite pushEvent_log by lia.
  rewrite length_app. cbn [length].
  rewrite drop_app_le by lia. rewrite reverse_app. cbn [reverse app state_of events].
  change (reverse [msg]) with [msg]. cbn [app]. apply scan_back_cons.
Qed.

(** X23. What [useSSEEvent] selects changes with a push as follows, for
    a capacity of at least 1: a matching event is selected at once; a
    push of an event that does not match leaves the selection to the
    events that survive the eviction, so with room in the log the
    selection stays, while in a full log it is lost when the selected
    event was the oldest. Changes of connection entries never touch the
    selection. *)
Theorem useSSEEvent_after_push (connectionId_arg : OneOrMany)
  (type_arg : option OneOrMany) (msg : SSEMessage) (s : Store) :
  1 ≤ maxEvents s →
  let select := useSSEEvent connectionId_arg type_arg in
  let kept := drop (length (log s) + 1 - Z.to_nat (maxEvents s)) (log s) in
  (Matching connectionId_arg type_arg msg →
   select (state (pushEvent msg s).1) = Some msg)
  ∧ (¬ Matching connectionId_arg type_arg msg →
     select (state (pushEvent msg s).1) = select (state_of kept))
  ∧ (¬ Matching connectionId_arg type_arg msg →
     Z.of_nat (length (log s)) < maxEvents s →
     select (state (pushEvent msg s).1) = select (state s))
  ∧ (∀ c, select (state (setConnection c s).1) = select (state s))
  ∧ (∀ id, select (state (removeConnection id s).1) = select (state s)).
Proof.
  intros Hcap select kept. subst select kept.
  assert (Hpush := useSSEEvent_push connectionId_arg type_arg msg s Hcap).
  split_and!.
  - intros Hm%matches_Matching. by rewrite Hpush, Hm.
  - intros Hm%not_matches_Matching. by rewrite Hpush, Hm.
  - intros Hm%not_matches_Matching Hroom. rewrite Hpush, Hm.
    replace (length (log s) + 1 - Z.to_nat (maxEvents s))%nat with 0%nat by lia.
    by rewrite drop_0.
  - done.
  - done.
Qed.

Lemma useSSEEvent_after_push_witness :
  let full := (pushEvent (ev "a" "message" 1) (new_Store 1)).1 in
  let roomy := (pushEvent (ev "a" "message" 1) (new_Store 2)).1 in
  useSSEEvent (One "a") None (state full) = Some (ev "a" "message" 1)
  ∧ useSSEEvent (One "a") None (state (pushEvent (ev "b" "message" 2) full).1) = None
  ∧ useSSEEvent (One "a") None (state (pushEvent (ev "b" "message" 2) roomy).1)
    = Some (ev "a" "message" 1)
  ∧ useSSEEvent (One "a") None (state (pushEvent (ev "a" "tick" 2) full).1)
    = Some (ev "a" "tick" 2).
Proof.
  intros full roomy.
  assert (Hfull : 1 ≤ maxEvents full) by (by vm_compute).
  assert (Hroomy : 1 ≤ maxEvents roomy) by (by vm_compute).
  assert (Hb : ¬ Matching (One "a") None (ev "b" "message" 2)).
  { intros [Hid _]. cbn in Hid. apply list_elem_of_singleton in Hid. discriminate Hid. }
  destruct (useSSEEvent_after_push (One "a") None (ev "b" "message" 2) full Hfull)
    as (_ & Hlost & _).
  destruct (useSSEEvent_after_push (One "a") None (ev "b" "message" 2) roomy Hroomy)
    as (_ & _ & Hstays & _).
  destruct (useSSEEvent_after_push (One "a") None (ev "a" "tick" 2) full Hfull)
    as (Hnew & _).
  split_and!.
  - reflexivity.
  - rewrite (Hlost Hb). reflexivity.
  - rewrite (Hstays Hb); [reflexivity | by vm_compute].
  - apply Hnew. split; [by apply list_elem_of_singleton | done].
Defined.

Lemma scan_back_since_scan_back (since : Z) (idSet : list string)
  (typeSet : option (list string)) (l : list SSEMessage) (e : SSEMessage) :
  scan_back_since since idSet typeSet l = Some e →
  scan_back idSet typeSet l = Some e.
Proof.
  induction l as [| a l IH]; [done |].
  rewrite scan_back_since_cons, scan_back_cons.
  destruct (timestamp a <? since); [done |].
  by destruct (matches idSet typeSet a).
Qed.

Lemma scan_back_since_all_new (since : Z) (idSet : list string)
  (typeSet : option (list string)) (l : list SSEMessage) :
  (∀ x, x ∈ l → since ≤ timestamp x) →
  scan_back_since since idSet typeSet l = scan_back idSet typeSet l.
Proof.
  induction l as [| a l IH]; intros Hnew; [done |].
  rewrite scan_back_since_cons, scan_back_cons.
  destruct (Z.ltb_spec (timestamp a) since) as [Hold | _].
  - specialize (Hnew a). assert (since ≤ timestamp a) by (apply Hnew; left). lia.
  - destruct (matches idSet typeSet a); [done |].
    apply IH. intros x Hx. apply Hnew. by right.
Qed.

(** X24. The live hook only ever withholds: whatever its selector
    returns is what [useSSEEvent] returns for the same arguments and
    state, and when no event of the log is older than the mount instant
    the two agree altogether. *)
Theorem useLiveSSEEvent_withholds_only (since : Z) (connectionId_arg : OneOrMany)
  (type_arg : option OneOrMany) (s : InternalState) :
  (∀ e, useLiveSSEEvent_selector since connectionId_arg type_arg s = Some e →
        useSSEEvent connectionId_arg type_arg s = Some e)
  ∧ ((∀ x, x ∈ events s → since ≤ timestamp x) →
     useLiveSSEEvent_selector since connectionId_arg type_arg s
     = useSSEEvent connectionId_arg type_arg s).
Proof.
  unfold useLiveSSEEvent_selector, useSSEEvent. split.
  - intros e. apply scan_back_since_scan_back.
  - intros Hnew. apply scan_back_since_all_new.
    intros x Hx. apply Hnew. by rewrite elem_of_reverse in Hx.
Qed.

Lemma useLiveSSEEvent_withholds_only_witness :
  let s := state_of [ev "a" "message" 11; ev "b" "message" 12] in
  useLiveSSEEvent_selector 10 (One "a") None s = Some (ev "a" "message" 11)
  ∧ useLiveSSEEvent_selector 10 (One "a") None s = useSSEEvent (One "a") None s.
Proof.
  intros s.
  destruct (useLiveSSEEvent_withholds_only 10 (One "a") None s) as [_ Hagree].
  split; [reflexivity |]. apply Hagree.
  intros x [-> | ->%list_elem_of_singleton]%elem_of_cons; cbn; lia.
Defined.

(** X25. The mount instant is taken once: after a first render at a
    non-zero instant, every later render, at whatever time, selects with
    the instant of the first render and leaves the ref as it is. *)
Theorem useLiveSSEEvent_mount_instant_fixed (now1 now2 : Z)
  (c1 c2 : OneOrMany) (t1 t2 : option OneOrMany) (s1 s2 : InternalState) :
  now1 ≠ 0 →
  let ref1 := (useLiveSSEEvent now1 0 c1 t1 s1).2 in
  ref1 = now1
  ∧ useLiveSSEEvent now2 ref1 c2 t2 s2
    = (useLiveSSEEvent_selector now1 c2 t2 s2, now1).
Proof.
  intros Hnow ref1. subst ref1. unfold useLiveSSEEvent. cbn [snd].
  rewrite (bool_decide_eq_true_2 (0 = 0)) by done.
  by rewrite bool_decide_eq_false_2.
Qed.

Lemma useLiveSSEEvent_mount_instant_fixed_witness :
  let s := state_of [ev "a" "message" 15] in
  useLiveSSEEvent 20 (useLiveSSEEvent 10 0 (One "a") None (state_of [])).2
                  (One "a") None s
  = (Some (ev "a" "message" 15), 10).
Proof.
  intros s.
  assert (Hnow : 10 ≠ 0) by lia.
  destruct (useLiveSSEEvent_mount_instant_fixed 10 20 (One "a") (One "a") None None
              (state_of []) s Hnow) as [_ Hsecond].
  rewrite Hsecond. reflexivity.
Defined.

(** ** A delivered message end to end *)

Lemma handle_message_fields (es : EventSource) (ev : MessageEvent) (m : Manager) :
  let msg := message_of es ev (getClientUid (realm m)).1 in
  store (handle_message es ev m) = (pushEvent msg (store m)).1
  ∧ realm (handle_message es ev m) = (getClientUid (realm m)).2
  ∧ trace (handle_message es ev m)
    = trace m ++ map Notified (listeners (store m))
      ++ match callbacks m with
         | Some cb => if onEvent cb then [HostOnEvent msg] else []
         | None => []
         end.
Proof.
  intros msg. subst msg. unfold handle_message, message_of.
  destruct m as [s cb src ts p r tr]. cbn [realm].
  destruct (getClientUid r) as [own r']. unfold call_host, on_store. cbn.
  destruct cb as [cb |]; [destruct (onEvent cb) |]; cbn;
    by rewrite <- ?app_assoc, ?app_nil_r.
Qed.

(** X26. A message event delivered to a listener ends up, for a capacity
    of at least 1, as the newest entry of the log and as what
    [useSSEEvent] returns for the connection, also when asked for its
    type; the raw payload is kept whether or not it parsed; the host's
    [onEvent], if supplied, is called last, after the store's
    listeners; and the event carries the tab's own identifier, which
    [isClientUid] recognises afterwards. *)
Theorem delivered_message_selected (es : EventSource) (ev : MessageEvent)
  (m : Manager) :
  1 ≤ maxEvents (store m) →
  (getClientUid (realm m)).1 ≠ "" →
  let id := ConnectionConfig.id (es_cfg es) in
  let msg := message_of es ev (getClientUid (realm m)).1 in
  let m' := handle_message es ev m in
  last (log (store m')) = Some msg
  ∧ useSSEEvent (One id) None (state (store m')) = Some msg
  ∧ useSSEEvent (One id) (Some (One (ev_type ev))) (state (store m')) = Some msg
  ∧ dataStr msg = ev_data ev
  ∧ data msg = ev_parsed ev
  ∧ (isClientUid (uid msg) (realm m')).1 = true
  ∧ trace m'
    = trace m ++ map Notified (listeners (store m))
      ++ match callbacks m with
         | Some cb => if onEvent cb then [HostOnEvent msg] else []
         | None => []
         end.
Proof.
  intros Hcap Hown id msg m'. subst id m'.
  destruct (handle_message_fields es ev m) as (Hstore & Hrealm & Htrace).
  fold msg in Hstore, Htrace. rewrite Hstore, Hrealm, Htrace.
  split_and!; try done.
  - rewrite pushEvent_log by lia.
    rewrite drop_app_le by (rewrite length_app; cbn; lia). apply last_snoc.
  - rewrite useSSEEvent_push by done. cbn [as_array fmap option_fmap option_map].
    unfold matches, Set_has. cbn [connectionId msg message_of].
    rewrite bool_decide_eq_true_2; [done | by apply list_elem_of_singleton].
  - rewrite useSSEEvent_push by done. cbn [as_array fmap option_fmap option_map].
    unfold matches, Set_has. cbn [connectionId type msg message_of].
    rewrite !bool_decide_eq_true_2; [done | | ]; by apply list_elem_of_singleton.
  - unfold isClientUid. cbn [uid msg message_of].
    apply truthy_Some in Hown as Htruthy. rewrite Htruthy. cbn [negb].
    rewrite getClientUid_stable by done.
    destruct (getClientUid (realm m)) as [own r']. cbn [fst default].
    by apply bool_decide_eq_true_2.
Qed.

Lemma delivered_message_selected_witness :
  let m := run plain_URL_new plain_encode plain_encode
               [DoConnect sample_cfg; TokenSettled 0 (inr "T1"); TransportOpen 0 5]
               sample_manager in
  let broken := {| ev_type := "message"; ev_data := Some "{x"; ev_parsed := None;
                   ev_lastEventId := Some "7"; ev_now := 42 |} in
  let m' := step plain_URL_new plain_encode plain_encode (TransportMessage 0 broken) m in
  (dataStr <$> useSSEEvent (One "a") None (state (store m'))) = Some (Some "{x")
  ∧ (data <$> useSSEEvent (One "a") None (state (store m'))) = Some None
  ∧ (uid <$> useSSEEvent (One "a") None (state (store m'))) = Some (Some "tab-A").
Proof.
  intros m broken m'.
  pose (es := {| es_url := "https://x.example/sse?uid=tab-A&authToken=T1";
                 es_closed := false; es_cfg := sample_cfg;
                 es_types := ["message"] |}).
  assert (Hm' : m' = handle_message es broken m) by (by vm_compute).
  assert (Hid : ConnectionConfig.id (es_cfg es) = "a") by reflexivity.
  assert (Hcap : 1 ≤ maxEvents (store m)) by (by vm_compute).
  assert (Hown : (getClientUid (realm m)).1 ≠ "") by discriminate.
  destruct (delivered_message_selected es broken m Hcap Hown) as (_ & Hsel & _).
  rewrite Hid in Hsel. rewrite Hm', Hsel. split_and!; reflexivity.
Defined.

(** ** Which references change *)

(** X27. The store's references tell apart what changed. Every mutator
    installs a connections object built in the call, so that reference
    changes every time, also on [pushEvent]. The events array changes
    identity on [pushEvent] only: across [setConnection] and
    [removeConnection] the new state holds the very same array as the
    old one. *)
Theorem mutation_references (mu : Mutation) (s : StoreRef) (h : Heap)
  (st : InternalState) :
  snapshot h (ref_state s) = Some st →
  ∃ s' h' lc',
    heap_mutate mu (s, h) = Some (s', h')
    ∧ connections_ref h' (ref_state s') = Some lc'
    ∧ (length h ≤ lc')%nat
    ∧ match mu with
      | MPushEvent _ =>
        ∃ le', events_ref h' (ref_state s') = Some le' ∧ (length h ≤ le')%nat
      | _ =>
        events_ref h' (ref_state s') = events_ref h (ref_state s)
        ∧ is_Some (events_ref h (ref_state s))
      end.
Proof.
  intros Hst.
  assert (Hold := Hst). apply snapshot_inv in Hold as (lc & le & Hs & Hm & Harr).
  destruct mu as [connect | id | msg]; cbn [heap_mutate].
  - exists {| ref_maxEvents := ref_maxEvents s; ref_state := length h + 1 |}.
    eexists. exists (length h).
    split.
    { unfold heap_setConnection. rewrite Hs, Hm. cbn.
      rewrite length_app. cbn. by rewrite <- app_assoc. }
    unfold connections_ref, events_ref. cbn [ref_state].
    rewrite lookup_app_at, Hs. cbn. split_and!; [done | lia | done | eauto].
  - exists {| ref_maxEvents := ref_maxEvents s; ref_state := length h + 1 |}.
    eexists. exists (length h).
    split.
    { unfold heap_removeConnection. rewrite Hs, Hm. cbn.
      rewrite length_app. cbn. by rewrite <- app_assoc. }
    unfold connections_ref, events_ref. cbn [ref_state].
    rewrite lookup_app_at, Hs. cbn. split_and!; [done | lia | done | eauto].
  - assert (Hres := heap_pushEvent_grows msg s h st [] Hst). cbn zeta in Hres.
    eexists _, _. exists (length h + 1)%nat. split; [exact Hres |].
    unfold connections_ref, events_ref. cbn [ref_state].
    rewrite lookup_app_at. cbn -[pushEvent].
    split_and!; [done | lia |]. exists (length h). split; [done | lia].
Qed.

Lemma mutation_references_witness :
  let s := sample_heap_store.1 in
  let h := sample_heap_store.2 in
  let c := connection "a" "https://x.example/sse" connecting None in
  ∃ s' h',
    heap_mutate (MSetConnection c) (s, h) = Some (s', h')
    ∧ events_ref h' (ref_state s') = events_ref h (ref_state s)
    ∧ connections_ref h' (ref_state s') ≠ connections_ref h (ref_state s).
Proof.
  intros s h c.
  assert (Hst : snapshot h (ref_state s) = Some (state_of [])) by reflexivity.
  destruct (mutation_references (MSetConnection c) s h (state_of []) Hst)
    as (s' & h' & lc' & Hres & Hc & Hfresh & Hsame & _).
  exists s', h'. split_and!; [exact Hres | exact Hsame |].
  rewrite Hc. intros Heq. cbn in Heq. injection Heq as ->. cbn in Hfresh. lia.
Defined.
